(** * HTML-diff: tokenizer, LCS alignment and change grouping

    A shallow embedding of the diff engine of the HTML Capture Compare
    extension: [merged_view.js], [compare_view.js], the second side-by-side
    viewer (same engine, its own renderer) and the attribute-aware merged
    viewer ([tokenizeHTML] / [diffHTMLTokens]).

    JavaScript strings are sequences of UTF-16 code units; they are modelled
    as lists of [N].  [while] loops are run by a fuelled combinator whose
    result is [None] only when the fuel runs out, so that termination is a
    theorem and not an assumption.  A thrown exception is an explicit
    outcome of the renderer. *)

From Stdlib Require Import String Ascii DecimalString DecimalNat.
From Stdlib Require Import NArith ZArith Arith Bool Lia List.
Import ListNotations.

Set Implicit Arguments.

(** ** JavaScript strings *)

Module JS.

Abbreviation cu := N (only parsing).
Abbreviation jsstring := (list N) (only parsing).

(** ASCII literal as a JavaScript string. *)
Definition str (s : string) : jsstring :=
  map N_of_ascii (list_ascii_of_string s).

Fixpoint streq (a b : jsstring) : bool :=
  match a, b with
  | [], [] => true
  | x :: a', y :: b' => N.eqb x y && streq a' b'
  | _, _ => false
  end.

(** [Array.prototype.join('')] on an array of strings. *)
Definition join (l : list jsstring) : jsstring := concat l.

(** [arr.slice(i, j)] and [arr.slice(i)]. *)
Definition slice {A} (l : list A) (i j : nat) : list A :=
  firstn (j - i) (skipn i l).
Definition slice_from {A} (l : list A) (i : nat) : list A := skipn i l.

(** [s.startsWith(p)]. *)
Fixpoint startsWith (s p : jsstring) : bool :=
  match p, s with
  | [], _ => true
  | x :: p', y :: s' => N.eqb x y && startsWith s' p'
  | _ :: _, [] => false
  end.

(** Template-literal rendering of a non-negative integer counter. *)
Definition num (k : nat) : jsstring :=
  str (NilEmpty.string_of_uint (Nat.to_uint k)).

(** Character codes used by the regular expressions. *)
Definition LT : cu := 60%N.   (* < *)
Definition GT : cu := 62%N.   (* > *)
Definition AMP : cu := 38%N.  (* & *)
Definition EQ : cu := 61%N.   (* = *)
Definition DQ : cu := 34%N.   (* double quote *)
Definition SQ : cu := 39%N.   (* single quote *)
Definition SLASH : cu := 47%N.

Definition between (lo hi c : N) : bool := N.leb lo c && N.leb c hi.

(** [\w] without the unicode flag: [A-Za-z0-9_]. *)
Definition is_word (c : N) : bool :=
  between 48 57 c || between 65 90 c || N.eqb c 95 || between 97 122 c.

(** [\s]: WhiteSpace and LineTerminator code units.  [String.prototype.trim]
    strips the same set. *)
Definition is_space (c : N) : bool :=
  between 9 13 c || N.eqb c 32 || N.eqb c 160 || N.eqb c 5760
  || between 8192 8202 c || N.eqb c 8232 || N.eqb c 8233
  || N.eqb c 8239 || N.eqb c 8287 || N.eqb c 12288 || N.eqb c 65279.

Definition is_angle (c : cu) : bool := N.eqb c LT || N.eqb c GT.
Definition is_quote (c : cu) : bool := N.eqb c DQ || N.eqb c SQ.

(** Greedy run: the longest prefix whose code units satisfy [p], and the
    rest.  This is what [x+] and [x*] over a character class consume. *)
Fixpoint span (p : cu -> bool) (s : jsstring) : jsstring * jsstring :=
  match s with
  | [] => ([], [])
  | c :: s' =>
      if p c then let (a, b) := span p s' in (c :: a, b) else ([], s)
  end.

(** [while (cond) body], fuelled.  [None] means the fuel ran out or the body
    itself did. *)
Fixpoint while_loop {S : Type} (fuel : nat) (cond : S -> bool)
         (body : S -> option S) (s : S) : option S :=
  if cond s then
    match fuel with
    | O => None
    | Datatypes.S f =>
        match body s with
        | Some s' => while_loop f cond body s'
        | None => None
        end
    end
  else Some s.

(** [str.match(re)] for a global regular expression, given the matcher of
    [re] at the start of a suffix: the search tries each start position from
    [lastIndex] on, a match is pushed and the search resumes after it; a
    position where nothing matches is stepped over. *)
Definition match_step (re : jsstring -> option (jsstring * jsstring))
           (st : jsstring * list jsstring) : option (jsstring * list jsstring) :=
  let (rest, toks) := st in
  match re rest with
  | Some (tok, rest') => Some (rest', toks ++ [tok])
  | None => Some (tl rest, toks)
  end.

Definition match_cond (st : jsstring * list jsstring) : bool :=
  match fst st with [] => false | _ :: _ => true end.

Definition match_all (re : jsstring -> option (jsstring * jsstring))
           (s : jsstring) : option (list jsstring) :=
  option_map snd (while_loop (length s) match_cond (match_step re) (s, [])).

End JS.

Import JS.

(** ** The token regular expression

    [merged_view.js], [compare_view.js] and the second side-by-side viewer
    use the same expression (the two quote characters are written in the
    other order in the class, which is the same class):
    [(<[^>]+>)|(\w+(?:=[QUOTE][^QUOTE]*[QUOTE])?)|(\s+)|([^\w\s<>]+)]
    where QUOTE stands for the single and the double quote. *)

Module TokenRe.

Definition orelse {A} (x : option A) (y : option A) : option A :=
  match x with Some _ => x | None => y end.

(** First alternative, [<[^>]+>]: the greedy class stops at the first [>];
    giving characters back cannot help, they are not [>]. *)
Definition re_tag (s : jsstring) : option (jsstring * jsstring) :=
  match s with
  | c :: s1 =>
      if N.eqb c LT then
        let (body, s2) := span (fun x => negb (N.eqb x GT)) s1 in
        match body, s2 with
        | _ :: _, g :: s3 => Some (c :: body ++ [g], s3)
        | _, _ => None
        end
      else None
  | [] => None
  end.

(** The optional group [=], a quote, non-quotes, a quote. *)
Definition re_attr_value (s : jsstring) : option (jsstring * jsstring) :=
  match s with
  | e :: q :: s2 =>
      if N.eqb e EQ && is_quote q then
        let (body, s3) := span (fun x => negb (is_quote x)) s2 in
        match s3 with
        | q2 :: s4 => Some (e :: q :: body ++ [q2], s4)
        | [] => None
        end
      else None
  | _ => None
  end.

(** Second alternative: a greedy word, then the group if it matches. *)
Definition re_word (s : jsstring) : option (jsstring * jsstring) :=
  let (w, s1) := span is_word s in
  match w with
  | [] => None
  | _ :: _ =>
      match re_attr_value s1 with
      | Some (v, s2) => Some (w ++ v, s2)
      | None => Some (w, s1)
      end
  end.

(** A non-empty greedy run over a class: [\s+], [[^\w\s<>]+], [[^<]+]. *)
Definition re_run (p : cu -> bool) (s : jsstring) : option (jsstring * jsstring) :=
  let (r, s1) := span p s in
  match r with [] => None | _ :: _ => Some (r, s1) end.

Definition is_punct (c : cu) : bool :=
  negb (is_word c || is_space c || is_angle c).

(** The whole expression at one start position: the alternatives in order. *)
Definition re (s : jsstring) : option (jsstring * jsstring) :=
  orelse (re_tag s)
    (orelse (re_word s) (orelse (re_run is_space s) (re_run is_punct s))).

End TokenRe.

(** ** Operations and the LCS table *)

Module Diff.

(** The tags of the operation pairs; [add] is the name the attribute-aware
    viewer gives to an insertion. *)
Inductive optype := equal | delete | insert | add | modify.

Definition op := (optype * jsstring)%type.

Definition table := list (list nat).

(** [Array.from({length: n + 1}, () => new Array(m + 1).fill(0))]. *)
Definition dp_init (n m : nat) : table := repeat (repeat 0 (m + 1)) (n + 1).

(** [dp[i][j]]; the table has [n + 1] rows of [m + 1] cells (lemma
    [lcs_table_correct]) and the loop guards keep every read inside it. *)
Definition dp_get (dp : table) (i j : nat) : nat := nth j (nth i dp []) 0.

Fixpoint set_nth {A} (l : list A) (i : nat) (v : A) : list A :=
  match l, i with
  | [], _ => []
  | _ :: l', O => v :: l'
  | x :: l', S i' => x :: set_nth l' i' v
  end.

(** [dp[i][j] = v], for a cell of the table. *)
Definition dp_set (dp : table) (i j v : nat) : table :=
  set_nth dp i (set_nth (nth i dp []) j v).

(** The indices of [for (let i = n - 1; i >= 0; i--)]. *)
Definition countdown (n : nat) : list nat := rev (seq 0 n).

Section Table.
Variable T : Type.
Variable same : T -> T -> bool.     (* the comparison [===] of the fill *)
Variable undef : T.                 (* an out-of-range read, never taken *)

Definition at_ (A : list T) (i : nat) : T := nth i A undef.

Definition fill_cell (A B : list T) (dp : table) (i j : nat) : table :=
  if same (at_ A i) (at_ B j)
  then dp_set dp i j (1 + dp_get dp (i + 1) (j + 1))
  else dp_set dp i j (Nat.max (dp_get dp (i + 1) j) (dp_get dp i (j + 1))).

Definition lcs_table (A B : list T) : table :=
  let n := length A in
  let m := length B in
  fold_left
    (fun dp i => fold_left (fun dp j => fill_cell A B dp i j) (countdown m) dp)
    (countdown n) (dp_init n m).
End Table.

(** The state of a backtracking loop: [i], [j] and the array [diff]. *)
Record bt := { bt_i : nat; bt_j : nat; bt_diff : list op }.

Definition push (st : bt) (o : op) (i j : nat) : bt :=
  {| bt_i := i; bt_j := j; bt_diff := bt_diff st ++ [o] |}.

(** The two panes an operation list stands for. *)
Definition baseline_side (ops : list op) : jsstring :=
  concat (map snd (filter (fun o => match fst o with equal | delete => true | _ => false end) ops)).
Definition current_side (ops : list op) : jsstring :=
  concat (map snd (filter (fun o => match fst o with equal | insert => true | _ => false end) ops)).

End Diff.

Import Diff.

(** ** [merged_view.js] *)

Module MergedView.

(** [function tokenize(str)]: [str.match(re) || []]. *)
Definition tokenize (s : jsstring) : option (list jsstring) :=
  match_all TokenRe.re s.

Section Backtrack.
Variables A B : list jsstring.
Variable dp : table.
Let n := length A.
Let m := length B.

(** [while (i < n || j < m)] *)
Definition diff_cond (st : bt) : bool :=
  (bt_i st <? n) || (bt_j st <? m).

(** The body of the loop: the three branches in order; when none applies
    the state is left as it is. *)
Definition diff_body (st : bt) : option bt :=
  let i := bt_i st in
  let j := bt_j st in
  if (i <? n) && (j <? m) && streq (at_ [] A i) (at_ [] B j) then
    Some (push st (equal, at_ [] A i) (i + 1) (j + 1))
  else if (j <? m) && ((i =? n) || (dp_get dp (i + 1) j <=? dp_get dp i (j + 1))) then
    Some (push st (insert, at_ [] B j) i (j + 1))
  else if i <? n then
    Some (push st (delete, at_ [] A i) (i + 1) j)
  else Some st.
End Backtrack.

(** The alignment of two token arrays: table, then backtracking from (0,0). *)
Definition align (A B : list jsstring) : option (list op) :=
  let dp := lcs_table streq [] A B in
  option_map bt_diff
    (while_loop (length A + length B) (diff_cond A B) (diff_body A B dp)
       {| bt_i := 0; bt_j := 0; bt_diff := [] |}).

(** [function diffTokens(aStr, bStr)]. *)
Definition diffTokens (aStr bStr : jsstring) : option (list op) :=
  match tokenize aStr, tokenize bStr with
  | Some A, Some B => align A B
  | _, _ => None
  end.

Definition del_open : jsstring :=
  str "<del class=" ++ [DQ] ++ str "diff-deleted" ++ [DQ] ++ str ">".
Definition ins_open : jsstring :=
  str "<ins class=" ++ [DQ] ++ str "diff-added" ++ [DQ] ++ str ">".

(** The callback of [diff.forEach] in [buildMergedHTML]. *)
Definition merged_piece (o : op) : jsstring :=
  match o with
  | (equal, value) => value
  | (delete, value) => del_open ++ value ++ str "</del>"
  | (insert, value) => ins_open ++ value ++ str "</ins>"
  | _ => []
  end.

Definition merge_ops (diff : list op) : jsstring :=
  fold_left (fun html o => html ++ merged_piece o) diff [].

(** [function buildMergedHTML(aStr, bStr)]. *)
Definition buildMergedHTML (aStr bStr : jsstring) : option jsstring :=
  option_map merge_ops (diffTokens aStr bStr).

End MergedView.

(** ** [compare_view.js] *)

Module CompareView.

(** [s.replace(/c/g, r)] for a one-character pattern. *)
Definition replace_all (c : cu) (r : jsstring) (s : jsstring) : jsstring :=
  flat_map (fun x => if N.eqb x c then r else [x]) s.

(** [function esc(s)]. *)
Definition esc (s : jsstring) : jsstring :=
  match s with
  | [] => []
  | _ :: _ =>
      replace_all GT (str "&gt;")
        (replace_all LT (str "&lt;") (replace_all AMP (str "&amp;") s))
  end.

(** A string in a condition: the empty string is falsy. *)
Definition truthy (s : jsstring) : bool :=
  match s with [] => false | _ :: _ => true end.

(** [function tokenize(str)]: the matches, then [filter(token => token)]. *)
Definition tokenize (s : jsstring) : option (list jsstring) :=
  option_map (filter truthy) (match_all TokenRe.re s).

Section Backtrack.
Variables A B : list jsstring.
Variable dp : table.
Let n := length A.
Let m := length B.

(** The look-ahead loop over [(iEnd, jEnd)] inside a differing block that
    starts at [(i, j)]. *)
Definition ahead_cond (e : nat * nat) : bool :=
  let (iEnd, jEnd) := e in
  (iEnd <? n) && (jEnd <? m) && negb (streq (at_ [] A iEnd) (at_ [] B jEnd)).

Definition ahead_body (i j : nat) (e : nat * nat) : option (nat * nat) :=
  let (iEnd, jEnd) := e in
  if dp_get dp i (jEnd + 1) <? dp_get dp (iEnd + 1) j
  then Some (iEnd + 1, jEnd)
  else Some (iEnd, jEnd + 1).

(** [while (i < n && j < m)] *)
Definition diff_cond (st : bt) : bool :=
  (bt_i st <? n) && (bt_j st <? m).

Definition push_if (s : jsstring) (o : op) (diff : list op) : list op :=
  if truthy s then diff ++ [o] else diff.

Definition diff_body (st : bt) : option bt :=
  let i := bt_i st in
  let j := bt_j st in
  if streq (at_ [] A i) (at_ [] B j) then
    Some (push st (equal, at_ [] A i) (i + 1) (j + 1))
  else
    match while_loop (n + m) ahead_cond (ahead_body i j) (i, j) with
    | Some (iEnd, jEnd) =>
        let deleted := join (slice A i iEnd) in
        let added := join (slice B j jEnd) in
        Some {| bt_i := iEnd; bt_j := jEnd;
                bt_diff := push_if added (insert, added)
                             (push_if deleted (delete, deleted) (bt_diff st)) |}
    | None => None
    end.

(** The two statements after the main loop. *)
Definition diff_tail (st : bt) : list op :=
  let i := bt_i st in
  let j := bt_j st in
  let d1 := if i <? n then bt_diff st ++ [(delete, join (slice_from A i))]
            else bt_diff st in
  if j <? m then d1 ++ [(insert, join (slice_from B j))] else d1.
End Backtrack.

Definition align (A B : list jsstring) : option (list op) :=
  let dp := lcs_table streq [] A B in
  option_map (diff_tail A B)
    (while_loop (length A + length B) (diff_cond A B) (diff_body A B dp)
       {| bt_i := 0; bt_j := 0; bt_diff := [] |}).

(** [function diffTokens(aStr, bStr)]. *)
Definition diffTokens (aStr bStr : jsstring) : option (list op) :=
  match tokenize aStr, tokenize bStr with
  | Some A, Some B => align A B
  | _, _ => None
  end.

(** The entries of [allChanges]. *)
Inductive ctype := Cchange | Cdelete | Cinsert.
Record change := { c_type : ctype; delId : jsstring; addId : jsstring }.

(** The variables [renderSideBySide] works on. *)
Record panes := {
  baselineContent : jsstring;
  currentContent : jsstring;
  allChanges : list change;
  changeCounter : nat
}.

Definition panes0 : panes :=
  {| baselineContent := []; currentContent := []; allChanges := [];
     changeCounter := 0 |}.

(** How a call ends; both carry the variables as they stand at that point
    ([allChanges] is a module-level variable and stays observable). *)
Inductive completion :=
| Normal (st : panes)
| ReferenceError (name : jsstring) (st : panes).

Definition vars (c : completion) : panes :=
  match c with Normal st => st | ReferenceError _ st => st end.

(** [`change-${changeCounter}-del`] and [`change-${changeCounter}-add`]. *)
Definition del_id (k : nat) : jsstring := str "change-" ++ num k ++ str "-del".
Definition add_id (k : nat) : jsstring := str "change-" ++ num k ++ str "-add".

(** [`<span class="cls" id="id">body</span>`]. *)
Definition span_open (cls id : jsstring) : jsstring :=
  str "<span class=" ++ [DQ] ++ cls ++ [DQ] ++ str " id=" ++ [DQ] ++ id
  ++ [DQ] ++ str ">".
Definition span_close : jsstring := str "</span>".
Definition span_tag (cls id body : jsstring) : jsstring :=
  span_open cls id ++ body ++ span_close.

Definition step_change (st : panes) (value nextValue : jsstring) : panes :=
  let k := changeCounter st in
  {| baselineContent := baselineContent st
       ++ span_tag (str "diff-deleted") (del_id k) (esc value);
     currentContent := currentContent st
       ++ span_tag (str "diff-added") (add_id k) (esc nextValue);
     allChanges := allChanges st
       ++ [{| c_type := Cchange; delId := del_id k; addId := add_id k |}];
     changeCounter := k + 1 |}.

Definition step_delete (st : panes) (value : jsstring) : panes :=
  let k := changeCounter st in
  {| baselineContent := baselineContent st
       ++ span_tag (str "diff-deleted") (del_id k) (esc value);
     currentContent := currentContent st
       ++ span_tag (str "diff-placeholder") (add_id k) (str "&nbsp;");
     allChanges := allChanges st
       ++ [{| c_type := Cdelete; delId := del_id k; addId := add_id k |}];
     changeCounter := k + 1 |}.

Definition step_equal (st : panes) (value : jsstring) : panes :=
  {| baselineContent := baselineContent st ++ esc value;
     currentContent := currentContent st ++ esc value;
     allChanges := allChanges st;
     changeCounter := changeCounter st |}.

(** The loop [for (let i = 0; i < diff.length; i++)] over the operations
    still to read, [diff[i]], [diff[i + 1]], ...  The [insert] branch reads
    [escapedDelValue], a [const] of the first branch's block: it is not in
    scope there, and evaluating the template literal throws before either
    pane or [allChanges] is touched. *)
Fixpoint render_loop (diff : list op) (st : panes) : completion :=
  match diff with
  | [] => Normal st
  | (type, value) :: rest =>
      match type, rest with
      | delete, (insert, nextValue) :: rest' =>
          render_loop rest' (step_change st value nextValue)
      | delete, _ => render_loop rest (step_delete st value)
      | insert, _ => ReferenceError (str "escapedDelValue") st
      | _, _ => render_loop rest (step_equal st value)
      end
  end.

(** [function renderSideBySide(baselineHTML, currentHTML)], up to the
    assignments to the panes. *)
Definition renderSideBySide (baselineHTML currentHTML : jsstring)
  : option completion :=
  option_map (fun diff => render_loop diff panes0)
             (diffTokens baselineHTML currentHTML).

End CompareView.

(** ** The second side-by-side viewer

    Its [esc], [tokenize] and [diffTokens] are those of [compare_view.js],
    statement for statement; its [renderSideBySide] differs. *)

Module SideBySide.

Definition esc := CompareView.esc.
Definition tokenize := CompareView.tokenize.
Definition align := CompareView.align.
Definition diffTokens := CompareView.diffTokens.

Import CompareView.

Definition step_insert (st : panes) (value : jsstring) : panes :=
  let k := changeCounter st in
  {| baselineContent := baselineContent st
       ++ span_tag (str "diff-placeholder") (del_id k) (str "&nbsp;");
     currentContent := currentContent st
       ++ span_tag (str "diff-added") (add_id k) (esc value);
     allChanges := allChanges st
       ++ [{| c_type := Cinsert; delId := del_id k; addId := add_id k |}];
     changeCounter := k + 1 |}.

Fixpoint render_loop (diff : list op) (st : panes) : panes :=
  match diff with
  | [] => st
  | (type, value) :: rest =>
      match type, rest with
      | delete, (insert, nextValue) :: rest' =>
          render_loop rest' (step_change st value nextValue)
      | delete, _ => render_loop rest (step_delete st value)
      | insert, _ => render_loop rest (step_insert st value)
      | _, _ => render_loop rest (step_equal st value)
      end
  end.

Definition renderSideBySide (baselineHTML currentHTML : jsstring)
  : option panes :=
  option_map (fun diff => render_loop diff panes0)
             (diffTokens baselineHTML currentHTML).

End SideBySide.

(** ** The attribute-aware merged viewer *)

Module HtmlDiff.

Record token := {
  content : jsstring;
  isTag : bool;
  isClosingTag : bool;
  tagName : option jsstring
}.

(** [s.toLowerCase()] on the code units a word can hold. *)
Definition toLowerCase (s : jsstring) : jsstring :=
  map (fun c => if between 65 90 c then (c + 32)%N else c) s.

(** [<\/?(\w+)] at one start position; the result is capture group 1. *)
Definition re_tagname_at (s : jsstring) : option jsstring :=
  match s with
  | c :: s1 =>
      if N.eqb c LT then
        let s2 := match s1 with
                  | d :: s1' => if N.eqb d SLASH then s1' else s1
                  | [] => s1
                  end in
        match fst (span is_word s2) with
        | [] => None
        | w => Some w
        end
      else None
  | [] => None
  end.

(** [tag.match(re)] without the global flag: the first position that
    matches. *)
Fixpoint re_tagname (s : jsstring) : option jsstring :=
  match re_tagname_at s with
  | Some w => Some w
  | None => match s with [] => None | _ :: s' => re_tagname s' end
  end.

(** [function getTagName(tag)]. *)
Definition getTagName (tag : jsstring) : option jsstring :=
  option_map toLowerCase (re_tagname tag).

(** [s.trim()]. *)
Definition trim (s : jsstring) : jsstring :=
  rev (snd (span is_space (rev (snd (span is_space s))))).

(** [/<[^>]+>|[^<]+/g] at one start position. *)
Definition re_html (s : jsstring) : option (jsstring * jsstring) :=
  TokenRe.orelse (TokenRe.re_tag s)
                 (TokenRe.re_run (fun c => negb (N.eqb c LT)) s).

(** The object pushed for a match. *)
Definition mk_token (tok : jsstring) : token :=
  {| content := tok;
     isTag := startsWith tok (str "<");
     isClosingTag := startsWith tok (str "</");
     tagName := if startsWith tok (str "<") then getTagName tok else None |}.

(** One round of [while ((match = regex.exec(str)) !== null)], one start
    position at a time. *)
Definition tok_step (st : jsstring * list token) : option (jsstring * list token) :=
  let (rest, tokens) := st in
  match re_html rest with
  | Some (tok, rest') =>
      Some (rest', if CompareView.truthy (trim tok)
                   then tokens ++ [mk_token tok] else tokens)
  | None => Some (tl rest, tokens)
  end.

Definition tok_cond (st : jsstring * list token) : bool :=
  match fst st with [] => false | _ :: _ => true end.

(** [function tokenizeHTML(str)]. *)
Definition tokenizeHTML (s : jsstring) : option (list token) :=
  option_map snd (while_loop (length s) tok_cond tok_step (s, [])).

Definition opt_streq (a b : option jsstring) : bool :=
  match a, b with
  | Some x, Some y => streq x y
  | None, None => true
  | _, _ => false
  end.

(** [function isAttributeModification(oldToken, newToken)]. *)
Definition isAttributeModification (oldToken newToken : token) : bool :=
  if negb (isTag oldToken) || negb (isTag newToken)
     || isClosingTag oldToken || isClosingTag newToken
  then false
  else opt_streq (tagName oldToken) (tagName newToken)
       && negb (streq (content oldToken) (content newToken)).

Definition same_content (a b : token) : bool := streq (content a) (content b).

Definition no_token : token :=
  {| content := []; isTag := false; isClosingTag := false; tagName := None |}.

Section Backtrack.
Variables baseTokens currentTokens : list token.
Variable dp : table.
Let n := length baseTokens.
Let m := length currentTokens.

Definition diff_cond (st : bt) : bool :=
  (bt_i st <? n) || (bt_j st <? m).

Definition diff_body (st : bt) : option bt :=
  let i := bt_i st in
  let j := bt_j st in
  let b := at_ no_token baseTokens i in
  let c := at_ no_token currentTokens j in
  if (i <? n) && (j <? m) && streq (content b) (content c) then
    Some (push st (equal, content c) (i + 1) (j + 1))
  else if (i <? n) && (j <? m) && isAttributeModification b c then
    Some (push st (modify, content c) (i + 1) (j + 1))
  else if (j <? m) && ((i =? n) || (dp_get dp (i + 1) j <=? dp_get dp i (j + 1))) then
    Some (push st (add, content c) i (j + 1))
  else if i <? n then
    Some (push st (delete, content b) (i + 1) j)
  else Some st.
End Backtrack.

Definition align (baseTokens currentTokens : list token) : option (list op) :=
  let dp := lcs_table same_content no_token baseTokens currentTokens in
  option_map bt_diff
    (while_loop (length baseTokens + length currentTokens)
       (diff_cond baseTokens currentTokens)
       (diff_body baseTokens currentTokens dp)
       {| bt_i := 0; bt_j := 0; bt_diff := [] |}).

(** [function diffHTMLTokens(baselineHTML, currentHTML)]. *)
Definition diffHTMLTokens (baselineHTML currentHTML : jsstring)
  : option (list op) :=
  match tokenizeHTML baselineHTML, tokenizeHTML currentHTML with
  | Some baseTokens, Some currentTokens => align baseTokens currentTokens
  | _, _ => None
  end.

End HtmlDiff.

(** ** Statistics of the attribute-aware viewer *)

Module Legend.

Record stats := { added : nat; deleted : nat; modified : nat }.

(** [function calculateStats(diff)]: the callback of [diff.forEach] applied
    from the left. *)
Definition count_op (st : stats) (o : op) : stats :=
  match fst o with
  | add => {| added := added st + 1; deleted := deleted st; modified := modified st |}
  | delete => {| added := added st; deleted := deleted st + 1; modified := modified st |}
  | modify => {| added := added st; deleted := deleted st; modified := modified st + 1 |}
  | _ => st
  end.

Definition calculateStats (diff : list op) : stats :=
  fold_left count_op diff {| added := 0; deleted := 0; modified := 0 |}.

End Legend.

(** ** Highlighting of the attribute-aware viewer *)

Module Highlight.

Definition DOLLAR : cu := 36%N.
Definition BACKTICK : cu := 96%N.

(** [s.endsWith(p)]. *)
Definition endsWith (s p : jsstring) : bool :=
  (length p <=? length s) && streq (skipn (length s - length p) s) p.

(** [s.lastIndexOf(p)]: the last position at which [p] starts, [-1] when
    there is none.  [pos] is the position of the head of [s], [last] the
    last position found so far. *)
Fixpoint lastIndexOf_from (s p : jsstring) (pos last : Z) : Z :=
  let last' := if startsWith s p then pos else last in
  match s with
  | [] => last'
  | _ :: s' => lastIndexOf_from s' p (pos + 1) last'
  end.

Definition lastIndexOf (s p : jsstring) : Z := lastIndexOf_from s p 0 (-1).

(** [s.slice(0, e)]: a negative [e] counts from the end. *)
Definition slice0 (s : jsstring) (e : Z) : jsstring :=
  let len := Z.of_nat (length s) in
  let e' := if (e <? 0)%Z then Z.max (len + e) 0 else Z.min e len in
  firstn (Z.to_nat e') s.

(** A code unit against a lower-case letter or [=] of a pattern under the
    [i] flag (no unicode flag): only the two ASCII cases of a letter
    canonicalise to it. *)
Definition ci_eq (c p : cu) : bool :=
  N.eqb (if between 65 90 c then (c + 32)%N else c) p.

Fixpoint ci_startsWith (s p : jsstring) : bool :=
  match p, s with
  | [], _ => true
  | x :: p', y :: s' => ci_eq y x && ci_startsWith s' p'
  | _ :: _, [] => false
  end.

(** The expression of [addClassToTag] at one start position: [class=]
    whatever the case, a quote, the longest run without a quote (capture
    group 1), a quote.  The result is the matched text, the group and what
    follows the match.  The run is greedy and stops at a quote or at the
    end, so the match succeeds exactly when a quote follows the longest
    run. *)
Definition re_class_at (s : jsstring) : option (jsstring * jsstring * jsstring) :=
  if ci_startsWith s (str "class=") then
    match skipn 6 s with
    | q :: r =>
        if is_quote q then
          let (v, r') := span (fun c => negb (is_quote c)) r in
          match r' with
          | q' :: rest => Some (firstn 6 s ++ q :: v ++ [q'], v, rest)
          | [] => None
          end
        else None
    | [] => None
    end
  else None.

(** The first position that matches: the text before the match, the matched
    text, capture group 1 and the text after the match. *)
Fixpoint re_class (before s : jsstring)
  : option (jsstring * jsstring * jsstring * jsstring) :=
  match re_class_at s with
  | Some (matched, v, rest) => Some (before, matched, v, rest)
  | None => match s with
            | [] => None
            | c :: s' => re_class (before ++ [c]) s'
            end
  end.

Section Replace.
Variables matched before after capture : jsstring.

(** The replacement text of [String.prototype.replace] for a pattern with
    one capture group: [$$], [$&], [$`], [$'], [$1] and [$01] are expanded,
    any other [$] stands for itself. *)
Fixpoint getSubstitution (template : jsstring) : jsstring :=
  match template with
  | [] => []
  | c :: t =>
      if negb (N.eqb c DOLLAR) then c :: getSubstitution t
      else
        match t with
        | [] => [c]
        | d :: t' =>
            if N.eqb d DOLLAR then DOLLAR :: getSubstitution t'
            else if N.eqb d AMP then matched ++ getSubstitution t'
            else if N.eqb d BACKTICK then before ++ getSubstitution t'
            else if N.eqb d SQ then after ++ getSubstitution t'
            else if N.eqb d 49 then capture ++ getSubstitution t'
            else if N.eqb d 48 then
              match t' with
              | e :: t'' =>
                  if N.eqb e 49 then capture ++ getSubstitution t''
                  else c :: getSubstitution t
              | [] => c :: getSubstitution t
              end
            else c :: getSubstitution t
        end
  end.
End Replace.

(** [function addClassToTag(tag, className, dataId)]. *)
Definition addClassToTag (tag className dataId : jsstring) : jsstring :=
  let selfClosing := endsWith tag (str "/>") in
  let tagEnd := if selfClosing then str "/>" else str ">" in
  let tagWithoutEnd := slice0 tag (lastIndexOf tag tagEnd) in
  match re_class [] tagWithoutEnd with
  | Some (before, matched, existingClasses, after) =>
      let newTag :=
        before
        ++ getSubstitution matched before after existingClasses
             (str "class=" ++ [DQ] ++ existingClasses ++ str " "
              ++ className ++ [DQ])
        ++ after in
      newTag ++ str " data-diff-id=" ++ [DQ] ++ dataId ++ [DQ] ++ tagEnd
  | None =>
      tagWithoutEnd ++ str " class=" ++ [DQ] ++ className ++ [DQ]
      ++ str " data-diff-id=" ++ [DQ] ++ dataId ++ [DQ] ++ tagEnd
  end.

(** [`diff-change-${changeId}`]. *)
Definition change_id (k : nat) : jsstring := str "diff-change-" ++ num k.

(** The [span] put around a text token. *)
Definition wrap (className : jsstring) (k : nat) (content : jsstring) : jsstring :=
  str "<span class=" ++ [DQ] ++ className ++ [DQ]
  ++ str " data-diff-id=" ++ [DQ] ++ change_id k ++ [DQ] ++ str ">"
  ++ content ++ str "</span>".

(** [content.startsWith('<') && !content.startsWith('</')]. *)
Definition is_opening (content : jsstring) : bool :=
  startsWith content (str "<") && negb (startsWith content (str "</")).

(** The callback of [diff.forEach] in [applyDiffHighlighting], on the pair
    of [resultHTML] and [changeId].  An operation of a type the callback
    does not name leaves both as they are. *)
Definition highlight_op (st : jsstring * nat) (o : op) : jsstring * nat :=
  let (resultHTML, changeId) := st in
  let (type, content) := o in
  match type with
  | equal => (resultHTML ++ content, changeId)
  | add =>
      if is_opening content then
        (resultHTML ++ addClassToTag content (str "diff-added") (change_id changeId),
         changeId + 1)
      else if startsWith content (str "</") then (resultHTML ++ content, changeId)
      else (resultHTML ++ wrap (str "diff-added") changeId content, changeId + 1)
  | delete =>
      if is_opening content then
        (resultHTML ++ addClassToTag content (str "diff-deleted") (change_id changeId),
         changeId + 1)
      else if startsWith content (str "</") then (resultHTML ++ content, changeId)
      else (resultHTML ++ wrap (str "diff-deleted") changeId content, changeId + 1)
  | modify =>
      if is_opening content then
        (resultHTML ++ addClassToTag content (str "diff-modified") (change_id changeId),
         changeId + 1)
      else (resultHTML ++ content, changeId)
  | insert => (resultHTML, changeId)
  end.

Definition highlight_loop (diff : list op) : jsstring * nat :=
  fold_left highlight_op diff ([], 0).

(** [function applyDiffHighlighting(diff)]. *)
Definition applyDiffHighlighting (diff : list op) : jsstring :=
  fst (highlight_loop diff).

End Highlight.

(** ** Navigation and filtering of the second side-by-side viewer

    The module-level variables [allChanges], [filteredChanges] and
    [currentIndex], the two click handlers, [filterAndNavigate] and what
    [updateNavigation] and [updateDisplayForFilter] compute.  What they read
    from the document, the text of the rendered elements, comes in as the
    two match predicates. *)

Module Navigation.

Record nav := {
  allChanges : list CompareView.change;
  filteredChanges : list CompareView.change;
  currentIndex : Z
}.

(** The variables when [renderSideBySide] has run: [currentIndex] still has
    its initial value [-1]. *)
Definition rendered (cs : list CompareView.change) : nav :=
  {| allChanges := cs; filteredChanges := cs; currentIndex := (-1)%Z |}.

(** What [updateNavigation] writes: the counter text, the two [disabled]
    flags and the change it highlights. *)
Record controls := {
  counterText : jsstring;
  prevDisabled : bool;
  nextDisabled : bool;
  highlighted : option CompareView.change
}.

Definition updateNavigation (st : nav) : controls :=
  let totalChanges := Z.of_nat (length (filteredChanges st)) in
  let idx := currentIndex st in
  {| counterText :=
       num (Z.to_nat (if (idx <? 0)%Z then 0%Z else (idx + 1)%Z))
       ++ str " / " ++ num (length (filteredChanges st));
     prevDisabled := (idx <=? 0)%Z;
     nextDisabled := (totalChanges - 1 <=? idx)%Z;
     highlighted :=
       if (0 <=? idx)%Z && (idx <? totalChanges)%Z
       then nth_error (filteredChanges st) (Z.to_nat idx) else None |}.

(** The click handlers of [prevBtn] and [nextBtn]. *)
Definition prevClick (st : nav) : nav :=
  if (0 <? currentIndex st)%Z
  then {| allChanges := allChanges st; filteredChanges := filteredChanges st;
          currentIndex := (currentIndex st - 1)%Z |}
  else st.

Definition nextClick (st : nav) : nav :=
  if (currentIndex st <? Z.of_nat (length (filteredChanges st)) - 1)%Z
  then {| allChanges := allChanges st; filteredChanges := filteredChanges st;
          currentIndex := (currentIndex st + 1)%Z |}
  else st.

Section Filter.
(** What the two search modes read from the document, for a search term:
    [isMatch] as a function of the change.  In the XPath mode
    [getNodesByXPath] runs first and [evaluate] throws on an expression it
    cannot parse: [None] then. *)
Variable xpathMatch : jsstring -> option (CompareView.change -> bool).
Variable textMatch : jsstring -> CompareView.change -> bool.

(** [function filterAndNavigate()], for the value of the search box; an
    exception leaves the handler before anything is assigned. *)
Definition filterAndNavigate (value : jsstring) (st : nav) : nav :=
  let searchTerm := HtmlDiff.trim value in
  let reset filtered :=
    {| allChanges := allChanges st; filteredChanges := filtered;
       currentIndex := (-1)%Z |} in
  if negb (CompareView.truthy searchTerm) then reset (allChanges st)
  else if startsWith searchTerm (str "//") then
    match xpathMatch searchTerm with
    | Some isMatch => reset (filter isMatch (allChanges st))
    | None => st
    end
  else reset (filter (textMatch searchTerm) (allChanges st)).

Inductive event := Prev | Next | Search (value : jsstring).

Definition handle (st : nav) (e : event) : nav :=
  match e with
  | Prev => prevClick st
  | Next => nextClick st
  | Search value => filterAndNavigate value st
  end.

Definition run (events : list event) (st : nav) : nav :=
  fold_left handle events st.
End Filter.

(** [updateDisplayForFilter]: whether the elements of a change are shown,
    [filteredChanges.some(fc => fc.delId === change.delId)]. *)
Definition isFiltered (st : nav) (change : CompareView.change) : bool :=
  existsb (fun fc => streq (CompareView.delId fc) (CompareView.delId change))
          (filteredChanges st).

End Navigation.

(** ** Vocabulary of the statements *)

Module Props.

(** [erase_only P s t]: [t] is [s] with some code units deleted, each of
    which satisfies [P]; everything else is kept, in order. *)
Inductive erase_only (P : cu -> bool) : jsstring -> jsstring -> Prop :=
| eo_nil : erase_only P [] []
| eo_keep c s t : erase_only P s t -> erase_only P (c :: s) (c :: t)
| eo_drop c s t : P c = true -> erase_only P s t -> erase_only P (c :: s) t.

(** What [tokenizeHTML] may leave out: a [<] or a whitespace code unit. *)
Definition is_lt_or_space (c : cu) : bool := N.eqb c LT || is_space c.

Definition nonempty (t : jsstring) : Prop := t <> [].

(** A matcher returns a non-empty prefix of its input and the rest. *)
Definition consumes (re : jsstring -> option (jsstring * jsstring)) : Prop :=
  forall s tok rest, re s = Some (tok, rest) -> s = tok ++ rest /\ tok <> [].

Definition contents (toks : list HtmlDiff.token) : list jsstring :=
  map HtmlDiff.content toks.

(** Variant of the backtracking loops. *)
Definition bt_mu (n m : nat) (st : bt) : nat :=
  (n - bt_i st) + (m - bt_j st).

(** Invariants of the backtracking loops: what has been emitted stands for
    the tokens read so far. *)
Definition cover_inv (A B : list jsstring) (st : bt) : Prop :=
  bt_i st <= length A /\ bt_j st <= length B
  /\ baseline_side (bt_diff st) = join (firstn (bt_i st) A)
  /\ current_side (bt_diff st) = join (firstn (bt_j st) B).

Definition ident_inv (A : list jsstring) (st : bt) : Prop :=
  bt_i st = bt_j st /\ bt_i st <= length A
  /\ bt_diff st = map (pair equal) (firstn (bt_i st) A).

Definition ins_inv (B : list jsstring) (st : bt) : Prop :=
  bt_i st = 0 /\ bt_j st <= length B
  /\ bt_diff st = map (pair insert) (firstn (bt_j st) B).

Definition del_inv (A : list jsstring) (st : bt) : Prop :=
  bt_j st = 0 /\ bt_i st <= length A
  /\ bt_diff st = map (pair delete) (firstn (bt_i st) A).

Definition bt0 : bt := {| bt_i := 0; bt_j := 0; bt_diff := [] |}.

Definition range_inv (n m : nat) (st : bt) : Prop :=
  bt_i st <= n /\ bt_j st <= m.

(** What [esc] makes of one code unit. *)
Definition esc_char (c : cu) : jsstring :=
  if N.eqb c AMP then str "&amp;"
  else if N.eqb c LT then str "&lt;"
  else if N.eqb c GT then str "&gt;"
  else [c].

(** The change at index [k] carries the identifiers built from [k]. *)
Definition ids_ok (cs : list CompareView.change) : Prop :=
  forall k c, nth_error cs k = Some c ->
    CompareView.delId c = str "change-" ++ num k ++ str "-del"
    /\ CompareView.addId c = str "change-" ++ num k ++ str "-add".

Definition change_ids (cs : list CompareView.change) : list jsstring :=
  flat_map (fun c => [CompareView.delId c; CompareView.addId c]) cs.

Definition ids_inv (st : CompareView.panes) : Prop :=
  CompareView.changeCounter st = length (CompareView.allChanges st)
  /\ ids_ok (CompareView.allChanges st)
  /\ NoDup (change_ids (CompareView.allChanges st)).

(** The text of a pane: payloads passed through [esc], bare or inside a
    span with one of the three classes and a change identifier, and
    placeholders. *)
Definition is_class (cls : jsstring) : Prop :=
  cls = str "diff-deleted" \/ cls = str "diff-added"
  \/ cls = str "diff-placeholder".

Definition is_id (id : jsstring) : Prop :=
  exists k, id = CompareView.del_id k \/ id = CompareView.add_id k.

Inductive piece (diff : list op) : jsstring -> Prop :=
| piece_text t v :
    In (t, v) diff -> piece diff (CompareView.esc v)
| piece_span cls id t v :
    is_class cls -> is_id id -> In (t, v) diff ->
    piece diff (CompareView.span_tag cls id (CompareView.esc v))
| piece_placeholder cls id :
    is_class cls -> is_id id ->
    piece diff (CompareView.span_tag cls id (str "&nbsp;")).

Definition escaped_pane (diff : list op) (s : jsstring) : Prop :=
  exists ps, Forall (piece diff) ps /\ s = concat ps.

Definition panes_escaped (diff : list op) (st : CompareView.panes) : Prop :=
  escaped_pane diff (CompareView.baselineContent st)
  /\ escaped_pane diff (CompareView.currentContent st).

(** What [buildMergedHTML] would return if it escaped each payload before
    wrapping it. *)
Definition merge_ops_escaped (diff : list op) : jsstring :=
  MergedView.merge_ops (map (fun o => (fst o, CompareView.esc (snd o))) diff).

(** The operations a change stands for: a [change] pairs a delete with an
    insert, the others stand for one operation. *)
Definition covered (c : CompareView.change) : nat :=
  match CompareView.c_type c with CompareView.Cchange => 2 | _ => 1 end.

Definition is_edit (o : op) : bool :=
  match fst o with delete | insert => true | _ => false end.

(** The two image tags of the attribute-change scenario, with double
    quotes around the attribute values. *)
Definition img1 : jsstring :=
  str "<img src=" ++ [DQ] ++ str "1.png" ++ [DQ] ++ str ">".
Definition img2 : jsstring :=
  str "<img src=" ++ [DQ] ++ str "2.png" ++ [DQ] ++ str ">".

(** The recurrence the table is filled by, on the two suffixes: the length
    of their longest common subsequence. *)
Section LcsLen.
Variable T : Type.
Variable same : T -> T -> bool.

Fixpoint lcs_len (A B : list T) : nat :=
  match A with
  | [] => 0
  | a :: A' =>
      (fix go (B : list T) : nat :=
         match B with
         | [] => 0
         | b :: B' =>
             if same a b then S (lcs_len A' B')
             else Nat.max (lcs_len A' B) (go B')
         end) B
  end.
End LcsLen.

(** The backtracking of the specification, on the two suffixes still to
    read: equal tokens give [equal]; otherwise the larger neighbour is
    followed, the insert side on a tie; what is left of one sequence when
    the other is exhausted is inserted or deleted token by token. *)
Fixpoint walk (A : list jsstring) : list jsstring -> list op :=
  match A with
  | [] => map (pair insert)
  | a :: A' =>
      fix go (B : list jsstring) : list op :=
        match B with
        | [] => map (pair delete) A
        | b :: B' =>
            if streq a b then (equal, a) :: walk A' B'
            else if lcs_len streq A' B <=? lcs_len streq A B'
                 then (insert, b) :: go B'
                 else (delete, a) :: walk A' B
        end
  end.

Definition walk_inv (A B : list jsstring) (st : bt) : Prop :=
  bt_i st <= length A /\ bt_j st <= length B
  /\ bt_diff st ++ walk (skipn (bt_i st) A) (skipn (bt_j st) B) = walk A B.

(** A table of the right size. *)
Definition dims (n m : nat) (dp : table) : Prop :=
  length dp = n + 1 /\ forall i, i <= n -> length (nth i dp []) = m + 1.

(** The state of the table while it is filled: rows above [i] are done,
    and row [i] from column [c] on; the last row and column stay zero. *)
Definition filled (T : Type) (same : T -> T -> bool) (A B : list T)
           (i c : nat) (dp : table) : Prop :=
  dims (length A) (length B) dp
  /\ forall i' j, i' <= length A -> j <= length B ->
       (i < i' \/ (i = i' /\ c <= j) \/ j = length B) ->
       dp_get dp i' j = lcs_len same (skipn i' A) (skipn j B).

(** The states the look-ahead of [compare_view.js] goes through in the
    block that starts at [(i, j)]. *)
Inductive ahead_reach (A B : list jsstring) (dp : table) (i j : nat)
  : nat * nat -> Prop :=
| ar_start : ahead_reach A B dp i j (i, j)
| ar_step e e' :
    ahead_reach A B dp i j e ->
    CompareView.ahead_cond A B e = true ->
    CompareView.ahead_body dp i j e = Some e' ->
    ahead_reach A B dp i j e'.

(** Along the look-ahead the table value stays that of the block start, and
    once a row has been left the start row offers less to the right. *)
Definition ahead_path (n m : nat) (dp : table) (i j : nat) (e : nat * nat)
  : Prop :=
  i <= fst e /\ fst e <= n /\ j <= snd e /\ snd e <= m
  /\ dp_get dp (fst e) (snd e) = dp_get dp i j
  /\ (i < fst e -> snd e < m -> dp_get dp i (snd e + 1) < dp_get dp i j).

(** The direction the tie-break prescribes at [(i, j)]: the insert side when
    [dp[i][j+1] >= dp[i+1][j]], the delete side otherwise. *)
Definition to_insert_side (dp : table) (i j : nat) : bool :=
  dp_get dp (i + 1) j <=? dp_get dp i (j + 1).

(** Invariant and variant of the look-ahead of [compare_view.js]. *)
Definition ahead_inv (n m i j : nat) (e : nat * nat) : Prop :=
  i <= fst e /\ fst e <= n /\ j <= snd e /\ snd e <= m.
Definition ahead_mu (n m : nat) (e : nat * nat) : nat :=
  (n - fst e) + (m - snd e).

(** [subseq s l]: [s] is [l] with some elements left out. *)
Inductive subseq {T : Type} : list T -> list T -> Prop :=
| ss_nil l : subseq [] l
| ss_take x s l : subseq s l -> subseq (x :: s) (x :: l)
| ss_skip x s l : subseq s l -> subseq s (x :: l).

(** The payloads of the [equal] operations: the tokens a diff keeps. *)
Definition equal_tokens (ops : list op) : list jsstring :=
  map snd (filter (fun o => match fst o with equal => true | _ => false end) ops).

(** Invariants of the loops of [compare_view.js] for the tokens kept. *)
Definition kept_inv (A B : list jsstring) (st : bt) : Prop :=
  bt_i st <= length A /\ bt_j st <= length B
  /\ equal_tokens (bt_diff st)
     ++ equal_tokens (walk (skipn (bt_i st) A) (skipn (bt_j st) B))
     = equal_tokens (walk A B).

Definition ahead_kept (A B : list jsstring) (i j : nat) (e : nat * nat) : Prop :=
  ahead_path (length A) (length B) (lcs_table streq [] A B) i j e
  /\ equal_tokens (walk (skipn (fst e) A) (skipn (snd e) B))
     = equal_tokens (walk (skipn i A) (skipn j B)).

(** A token of [tokenizeHTML] is a tag, [<], a body without [>], [>], or a
    text run without [<] that is not whitespace only. *)
Definition token_ok (t : HtmlDiff.token) : Prop :=
  (exists body,
      HtmlDiff.content t = LT :: body ++ [GT] /\ body <> []
      /\ forallb (fun c => negb (N.eqb c GT)) body = true
      /\ HtmlDiff.isTag t = true
      /\ HtmlDiff.isClosingTag t = startsWith body [SLASH]
      /\ HtmlDiff.tagName t = HtmlDiff.getTagName (HtmlDiff.content t))
  \/ (forallb (fun c => negb (N.eqb c LT)) (HtmlDiff.content t) = true
      /\ existsb (fun c => negb (is_space c)) (HtmlDiff.content t) = true
      /\ HtmlDiff.isTag t = false /\ HtmlDiff.isClosingTag t = false
      /\ HtmlDiff.tagName t = None).

(** Operations of one type. *)
Definition is_type (t : optype) (o : op) : bool :=
  match t, fst o with
  | equal, equal | delete, delete | insert, insert | add, add
  | modify, modify => true
  | _, _ => false
  end.

Definition count_type (t : optype) (ops : list op) : nat :=
  length (filter (is_type t) ops).

(** Invariants of the loop of [diffHTMLTokens]: the operations emitted
    account for the tokens read. *)
Definition html_count_inv (n m : nat) (st : bt) : Prop :=
  bt_i st <= n /\ bt_j st <= m
  /\ count_type equal (bt_diff st) + count_type modify (bt_diff st)
     + count_type delete (bt_diff st) = bt_i st
  /\ count_type equal (bt_diff st) + count_type modify (bt_diff st)
     + count_type add (bt_diff st) = bt_j st.

Definition html_ident_inv (toks : list HtmlDiff.token) (st : bt) : Prop :=
  bt_i st = bt_j st /\ bt_i st <= length toks
  /\ bt_diff st = map (pair equal) (firstn (bt_i st) (contents toks)).

(** The backtracking of [diffHTMLTokens] on the two suffixes still to read,
    with the LCS lengths where the source reads its table. *)
Fixpoint html_walk (A : list HtmlDiff.token) : list HtmlDiff.token -> list op :=
  match A with
  | [] => map (fun c => (add, HtmlDiff.content c))
  | a :: A' =>
      fix go (B : list HtmlDiff.token) : list op :=
        match B with
        | [] => map (fun x => (delete, HtmlDiff.content x)) A
        | b :: B' =>
            if HtmlDiff.same_content a b
            then (equal, HtmlDiff.content b) :: html_walk A' B'
            else if HtmlDiff.isAttributeModification a b
            then (modify, HtmlDiff.content b) :: html_walk A' B'
            else if lcs_len HtmlDiff.same_content A' B
                    <=? lcs_len HtmlDiff.same_content A B'
            then (add, HtmlDiff.content b) :: go B'
            else (delete, HtmlDiff.content a) :: html_walk A' B
        end
  end.

Definition html_walk_inv (bs cs : list HtmlDiff.token) (st : bt) : Prop :=
  bt_i st <= length bs /\ bt_j st <= length cs
  /\ bt_diff st ++ html_walk (skipn (bt_i st) bs) (skipn (bt_j st) cs)
     = html_walk bs cs.

(** The variables of the backtracking loop of [diffHTMLTokens] after [k]
    rounds; [None] when the loop has ended before. *)
Fixpoint html_steps (bs cs : list HtmlDiff.token) (k : nat) : option bt :=
  match k with
  | O => Some bt0
  | S k' =>
      match html_steps bs cs k' with
      | Some st =>
          if HtmlDiff.diff_cond bs cs st
          then HtmlDiff.diff_body bs cs
                 (lcs_table HtmlDiff.same_content HtmlDiff.no_token bs cs) st
          else None
      | None => None
      end
  end.

Definition nav_inv (st : Navigation.nav) : Prop :=
  (-1 <= Navigation.currentIndex st
   <= Z.of_nat (length (Navigation.filteredChanges st)) - 1)%Z
  /\ subseq (Navigation.filteredChanges st) (Navigation.allChanges st).

(** An operation of the string alignment: one of the three types, with a
    payload that is not empty. *)
Definition plain_op (o : op) : Prop :=
  (fst o = equal \/ fst o = delete \/ fst o = insert) /\ snd o <> [].

Definition plain_inv (A B : list jsstring) (st : bt) : Prop :=
  bt_i st <= length A /\ bt_j st <= length B /\ Forall plain_op (bt_diff st).

(** An operation of [diffHTMLTokens]: never an [insert], and a [modify]
    only with an opening tag as payload. *)
Definition html_op (o : op) : Prop :=
  fst o <> insert
  /\ (fst o = modify -> Highlight.is_opening (snd o) = true).

(** No [>] in a string. *)
Definition no_gt (s : jsstring) : Prop :=
  forallb (fun c => negb (N.eqb c GT)) s = true.

(** *** What a tokenizer reads

    The input cut into the pieces a tokenizer goes through, from left to
    right: a token it returns, or a stretch it steps over. *)
Inductive seg := Kept (tok : jsstring) | Lost (text : jsstring).

Definition seg_text (g : seg) : jsstring :=
  match g with Kept t => t | Lost t => t end.

Fixpoint kept (l : list seg) : list jsstring :=
  match l with
  | [] => []
  | Kept t :: l' => t :: kept l'
  | Lost _ :: l' => kept l'
  end.

Fixpoint lost (l : list seg) : list jsstring :=
  match l with
  | [] => []
  | Kept _ :: l' => lost l'
  | Lost t :: l' => t :: lost l'
  end.

(** The first code unit of [s] exists and satisfies [p]. *)
Definition starts_with (p : cu -> bool) (s : jsstring) : bool :=
  match s with c :: _ => p c | [] => false end.

Definition no_quote (s : jsstring) : Prop :=
  forallb (fun c => negb (is_quote c)) s = true.

Definition not_lt (c : cu) : bool := negb (N.eqb c LT).

(** A tag starts [s]: [<], a non-empty body without [>], [>]. *)
Definition tag_at (s : jsstring) : Prop :=
  exists body rest, s = LT :: body ++ GT :: rest /\ body <> [] /\ no_gt body.

(** An attribute value starts [s]: [=], a quote, a body without quotes, a
    quote. *)
Definition attr_at (s : jsstring) : Prop :=
  exists q v q' rest,
    s = EQ :: q :: v ++ q' :: rest
    /\ is_quote q = true /\ is_quote q' = true /\ no_quote v.

(** How [tokenize] cuts its input.  A tag is a token; a word is a token as
    far as it goes, together with the attribute value that follows it if
    there is one; a run of whitespace and a run of punctuation are tokens
    as far as they go; a [>] where a token would start, and a [<] that
    starts no tag, are stepped over.  Nothing else is. *)
Inductive lexes : jsstring -> list seg -> Prop :=
| lex_end : lexes [] []
| lex_tag body rest segs :
    body <> [] -> no_gt body -> lexes rest segs ->
    lexes (LT :: body ++ GT :: rest) (Kept (LT :: body ++ [GT]) :: segs)
| lex_word w rest segs :
    w <> [] -> forallb is_word w = true ->
    starts_with is_word rest = false -> ~ attr_at rest ->
    lexes rest segs ->
    lexes (w ++ rest) (Kept w :: segs)
| lex_word_attr w q v q' rest segs :
    w <> [] -> forallb is_word w = true ->
    is_quote q = true -> is_quote q' = true -> no_quote v ->
    lexes rest segs ->
    lexes (w ++ EQ :: q :: v ++ q' :: rest)
          (Kept (w ++ EQ :: q :: v ++ [q']) :: segs)
| lex_space r rest segs :
    r <> [] -> forallb is_space r = true ->
    starts_with is_space rest = false ->
    lexes rest segs ->
    lexes (r ++ rest) (Kept r :: segs)
| lex_punct r rest segs :
    r <> [] -> forallb TokenRe.is_punct r = true ->
    starts_with TokenRe.is_punct rest = false ->
    lexes rest segs ->
    lexes (r ++ rest) (Kept r :: segs)
| lex_stray_gt rest segs :
    lexes rest segs -> lexes (GT :: rest) (Lost [GT] :: segs)
| lex_stray_lt rest segs :
    ~ tag_at (LT :: rest) -> lexes rest segs ->
    lexes (LT :: rest) (Lost [LT] :: segs).

(** How [tokenizeHTML] cuts its input.  A tag is a token; the text up to
    the next [<] is a token when it holds a code unit other than
    whitespace and is stepped over when it does not; a [<] that starts no
    tag is stepped over.  Nothing else is. *)
Inductive lexes_html : jsstring -> list seg -> Prop :=
| lexh_end : lexes_html [] []
| lexh_tag body rest segs :
    body <> [] -> no_gt body -> lexes_html rest segs ->
    lexes_html (LT :: body ++ GT :: rest) (Kept (LT :: body ++ [GT]) :: segs)
| lexh_text t rest segs :
    t <> [] -> forallb not_lt t = true -> starts_with not_lt rest = false ->
    existsb (fun c => negb (is_space c)) t = true ->
    lexes_html rest segs ->
    lexes_html (t ++ rest) (Kept t :: segs)
| lexh_blank t rest segs :
    t <> [] -> forallb not_lt t = true -> starts_with not_lt rest = false ->
    forallb is_space t = true ->
    lexes_html rest segs ->
    lexes_html (t ++ rest) (Lost t :: segs)
| lexh_stray_lt rest segs :
    ~ tag_at (LT :: rest) -> lexes_html rest segs ->
    lexes_html (LT :: rest) (Lost [LT] :: segs).

(** Markup [tokenize] loses nothing of: tags, and between them text
    without angle brackets in which no [=] stands directly before a
    quote. *)
Inductive markup : jsstring -> Prop :=
| mk_end : markup []
| mk_tag body rest :
    body <> [] -> no_gt body -> markup rest ->
    markup (LT :: body ++ GT :: rest)
| mk_text c rest :
    is_angle c = false ->
    (c = EQ -> starts_with is_quote rest = false) ->
    markup rest ->
    markup (c :: rest).

(** Markup [tokenizeHTML] loses nothing of: tags, and between them text
    without [<] that is not whitespace only. *)
Inductive markup_html : jsstring -> Prop :=
| mh_end : markup_html []
| mh_tag body rest :
    body <> [] -> no_gt body -> markup_html rest ->
    markup_html (LT :: body ++ GT :: rest)
| mh_text t rest :
    t <> [] -> forallb not_lt t = true -> starts_with not_lt rest = false ->
    existsb (fun c => negb (is_space c)) t = true ->
    markup_html rest ->
    markup_html (t ++ rest).

(** An added or deleted closing tag: [applyDiffHighlighting] copies it
    without a mark. *)
Definition unmarked_closing (o : op) : bool :=
  match fst o with
  | add | delete => startsWith (snd o) (str "</")
  | _ => false
  end.

(** A lower-case word character. *)
Definition is_lower_word (c : N) : bool := is_word c && negb (between 65 90 c).

(** Every [insert] directly follows a [delete]; [prev] tells whether the
    operation before the list is a [delete]. *)
Fixpoint inserts_paired (prev : bool) (diff : list op) : bool :=
  match diff with
  | [] => true
  | (t, _) :: rest =>
      (match t with insert => prev | _ => true end)
      && inserts_paired (match t with delete => true | _ => false end) rest
  end.

End Props.

Import Props.

(** Lists of appended pieces, nested to the right. *)
Ltac app_norm := repeat (progress (cbn [app]; rewrite <- ?app_assoc)).

(** Case analysis on the test of the conditional a hypothesis starts with. *)
Ltac case_if_in H E :=
  match type of H with
  | (if ?c then _ else _) = _ => destruct c eqn:E
  end.

(** Boolean tests of the loops, as propositions. *)
Ltac bools :=
  repeat match goal with
  | H : _ && _ = true |- _ => apply andb_true_iff in H as [? ?]
  | H : _ || _ = false |- _ => apply orb_false_iff in H as [? ?]
  | H : negb _ = true |- _ => apply negb_true_iff in H
  | H : negb _ = false |- _ => apply negb_false_iff in H
  | H : (_ <? _) = true |- _ => apply Nat.ltb_lt in H
  | H : (_ <? _) = false |- _ => apply Nat.ltb_ge in H
  | H : (_ <=? _) = true |- _ => apply Nat.leb_le in H
  | H : (_ <=? _) = false |- _ => apply Nat.leb_gt in H
  | H : (_ =? _) = true |- _ => apply Nat.eqb_eq in H
  | H : (_ =? _) = false |- _ => apply Nat.eqb_neq in H
  end.

(** ** Worked inputs *)

Example tokenize_ex1 :
  MergedView.tokenize (str "<p class='x'>Hi, there</p>")
  = Some [str "<p class='x'>"; str "Hi"; str ","; str " "; str "there"; str "</p>"].
Proof. vm_compute. reflexivity. Qed.

Example tokenize_ex2 :
  MergedView.tokenize (str "a > b id='x' <")
  = Some [str "a"; str " "; str " "; str "b"; str " "; str "id='x'"; str " "].
Proof. vm_compute. reflexivity. Qed.

(** ** Loops *)

Section WhileRule.
Variable St : Type.
Variable Inv : St -> Prop.
Variable mu : St -> nat.
Variable cond : St -> bool.
Variable body : St -> option St.
Hypothesis body_ok : forall s, Inv s -> cond s = true ->
  exists s', body s = Some s' /\ Inv s' /\ mu s' < mu s.

(** Total correctness of a loop with an invariant and a variant. *)
Lemma while_loop_total : forall fuel s,
  Inv s -> mu s <= fuel ->
  exists s', while_loop fuel cond body s = Some s' /\ Inv s' /\ cond s' = false.
Proof.
  induction fuel as [|f IH]; intros s Hi Hm; simpl.
  - destruct (cond s) eqn:Hc.
    + destruct (body_ok Hi Hc) as (s' & _ & _ & Hlt). lia.
    + exists s; auto.
  - destruct (cond s) eqn:Hc.
    + destruct (body_ok Hi Hc) as (s' & Hb & Hi' & Hlt).
      rewrite Hb. apply IH; [assumption | lia].
    + exists s; auto.
Qed.
End WhileRule.

Lemma while_loop_done (St : Type) fuel (cond : St -> bool) body s :
  cond s = false -> while_loop fuel cond body s = Some s.
Proof. intros H; destruct fuel; simpl; rewrite H; reflexivity. Qed.

(** ** Strings and greedy runs *)

Lemma streq_refl a : streq a a = true.
Proof. induction a; simpl; [reflexivity|]. now rewrite N.eqb_refl. Qed.

Lemma streq_eq a b : streq a b = true <-> a = b.
Proof.
  split; [|intros ->; apply streq_refl].
  revert b; induction a as [|x a IH]; destruct b as [|y b]; simpl; try easy.
  rewrite andb_true_iff, N.eqb_eq. intros [-> H]. f_equal. auto.
Qed.

Lemma span_app p s : fst (span p s) ++ snd (span p s) = s.
Proof.
  induction s as [|c s IH]; simpl; [reflexivity|].
  destruct (p c); [|reflexivity].
  destruct (span p s); simpl in *. now rewrite IH.
Qed.

Lemma span_eq p s a b : span p s = (a, b) -> s = a ++ b.
Proof. intros H. rewrite <- (span_app p s), H. reflexivity. Qed.

Lemma span_snd_nil p s : snd (span p s) = [] -> forallb p s = true.
Proof.
  induction s as [|c s IH]; simpl; [reflexivity|].
  destruct (p c); [|discriminate].
  destruct (span p s); simpl in *; auto.
Qed.

Lemma span_snd_head p s c r : snd (span p s) = c :: r -> p c = false.
Proof.
  induction s as [|x s IH]; simpl; [discriminate|].
  destruct (p x) eqn:Hx.
  - destruct (span p s); simpl in *; auto.
  - simpl. now intros [= <- _].
Qed.

(** ** The regular expressions consume what they return *)

Lemma re_tag_consumes : consumes TokenRe.re_tag.
Proof.
  intros [|c s1] tok rest; simpl; [discriminate|].
  destruct (N.eqb c LT); [|discriminate].
  destruct (span _ s1) as [body s2] eqn:Hs. apply span_eq in Hs.
  destruct body as [|b body]; [discriminate|].
  destruct s2 as [|g s3]; [discriminate|].
  intros [= <- <-]. split; [|discriminate].
  subst s1. simpl. now rewrite <- !app_assoc.
Qed.

Lemma re_run_consumes p : consumes (TokenRe.re_run p).
Proof.
  intros s tok rest. unfold TokenRe.re_run.
  destruct (span p s) as [r s1] eqn:Hs. apply span_eq in Hs.
  destruct r; [discriminate|]. intros [= <- <-]. split; [assumption|discriminate].
Qed.

Lemma re_attr_value_consumes : consumes TokenRe.re_attr_value.
Proof.
  intros [|e [|q s2]] tok rest; simpl; try discriminate.
  destruct (N.eqb e EQ && is_quote q); [|discriminate].
  destruct (span _ s2) as [body s3] eqn:Hs. apply span_eq in Hs.
  destruct s3 as [|q2 s4]; [discriminate|].
  intros [= <- <-]. split; [|discriminate].
  subst s2. simpl. now rewrite <- !app_assoc.
Qed.

Lemma re_word_consumes : consumes TokenRe.re_word.
Proof.
  intros s tok rest. unfold TokenRe.re_word.
  destruct (span is_word s) as [w s1] eqn:Hs. apply span_eq in Hs.
  destruct w as [|c w]; [discriminate|].
  destruct (TokenRe.re_attr_value s1) as [[v s2]|] eqn:Hv.
  - apply re_attr_value_consumes in Hv as [-> _].
    intros [= <- <-]. split; [|discriminate]. subst s. now rewrite app_assoc.
  - intros [= <- <-]. split; [assumption|discriminate].
Qed.

Lemma orelse_consumes f g :
  consumes f -> consumes g -> consumes (fun s => TokenRe.orelse (f s) (g s)).
Proof.
  intros Hf Hg s tok rest. unfold TokenRe.orelse.
  destruct (f s) as [[t r]|] eqn:E.
  - intros [= <- <-]. eauto.
  - eauto.
Qed.

Lemma re_consumes : consumes TokenRe.re.
Proof.
  unfold TokenRe.re.
  repeat (apply orelse_consumes);
    auto using re_tag_consumes, re_word_consumes, re_run_consumes.
Qed.

Lemma re_html_consumes : consumes HtmlDiff.re_html.
Proof.
  unfold HtmlDiff.re_html.
  apply orelse_consumes; auto using re_tag_consumes, re_run_consumes.
Qed.

Lemma re_run_none p c r : TokenRe.re_run p (c :: r) = None -> p c = false.
Proof.
  unfold TokenRe.re_run. simpl. destruct (p c); [|reflexivity].
  destruct (span p r); discriminate.
Qed.

Lemma orelse_none A (x y : option A) :
  TokenRe.orelse x y = None -> x = None /\ y = None.
Proof. destruct x; simpl; [discriminate|auto]. Qed.

(** Where the token expression matches nothing there is an angle bracket. *)
Lemma re_none_angle c r : TokenRe.re (c :: r) = None -> is_angle c = true.
Proof.
  unfold TokenRe.re. intros H.
  apply orelse_none in H as [_ H].
  apply orelse_none in H as [Hw H].
  apply orelse_none in H as [Hs Hp].
  apply re_run_none in Hs, Hp. unfold TokenRe.is_punct in Hp.
  apply negb_false_iff in Hp.
  destruct (is_angle c); [reflexivity|].
  rewrite orb_false_r, Hs, orb_false_r in Hp.
  unfold TokenRe.re_word in Hw. simpl in Hw. rewrite Hp in Hw.
  destruct (span is_word r).
  destruct (TokenRe.re_attr_value _) as [[? ?]|]; discriminate.
Qed.

Lemma re_html_none c r : HtmlDiff.re_html (c :: r) = None -> N.eqb c LT = true.
Proof.
  unfold HtmlDiff.re_html. intros H. apply orelse_none in H as [_ H].
  apply re_run_none in H. now apply negb_false_iff in H.
Qed.

(** ** Erasure *)

Lemma erase_only_refl P s : erase_only P s s.
Proof. induction s; constructor; assumption. Qed.

Lemma erase_only_app P s t s' t' :
  erase_only P s t -> erase_only P s' t' -> erase_only P (s ++ s') (t ++ t').
Proof. induction 1; simpl; intros; try constructor; auto. Qed.

Lemma erase_only_all P s : forallb P s = true -> erase_only P s [].
Proof.
  induction s as [|c s IH]; simpl; [constructor|].
  rewrite andb_true_iff. intros [Hc Hs]. apply eo_drop; auto.
Qed.

(** Nothing is erased from a string without erasable code units. *)
Lemma erase_only_clean P s t :
  forallb (fun c => negb (P c)) s = true -> erase_only P s t -> t = s.
Proof.
  intros Hs He; induction He; simpl in Hs; [reflexivity| |];
    apply andb_true_iff in Hs as [Hc Hs].
  - f_equal; auto.
  - rewrite H in Hc. discriminate.
Qed.

(** ** The tokenizers *)

Section MatchAll.
Variable re : jsstring -> option (jsstring * jsstring).
Variable P : cu -> bool.
Hypothesis re_cons : consumes re.
Hypothesis re_none : forall c r, re (c :: r) = None -> P c = true.

Let Inv (s : jsstring) (st : jsstring * list jsstring) : Prop :=
  exists pre, s = pre ++ fst st /\ erase_only P pre (concat (snd st))
              /\ Forall nonempty (snd st).

Lemma match_step_ok s st :
  Inv s st -> match_cond st = true ->
  exists st', match_step re st = Some st' /\ Inv s st'
              /\ length (fst st') < length (fst st).
Proof.
  destruct st as [rest toks]. intros (pre & Hs & He & Hne) Hc.
  unfold match_cond in Hc. simpl in *.
  destruct rest as [|c r]; [discriminate|].
  destruct (re (c :: r)) as [[tok rest']|] eqn:Hre.
  - destruct (re_cons Hre) as [Hsplit Htok].
    eexists; split; [reflexivity|]. split.
    + exists (pre ++ tok). simpl. repeat split.
      * rewrite Hs, Hsplit. now rewrite app_assoc.
      * rewrite concat_app. simpl. rewrite app_nil_r.
        apply erase_only_app; [assumption|apply erase_only_refl].
      * apply Forall_app; split; [assumption|]. constructor; [assumption|constructor].
    + cbn [fst]. rewrite Hsplit, length_app.
      destruct tok; [congruence|simpl; lia].
  - eexists; split; [reflexivity|]. split.
    + exists (pre ++ [c]). simpl. repeat split.
      * rewrite Hs. now rewrite <- app_assoc.
      * rewrite <- (app_nil_r (concat toks)).
        apply erase_only_app; [assumption|].
        apply eo_drop; [eauto|constructor].
      * assumption.
    + simpl. lia.
Qed.

(** [str.match(re)] returns, its matches are non-empty, and put end to end
    they are the input without the positions that matched nothing. *)
Lemma match_all_spec s :
  exists toks, match_all re s = Some toks
               /\ erase_only P s (concat toks) /\ Forall nonempty toks.
Proof.
  destruct (@while_loop_total _ (Inv s) (fun st => length (fst st))
              match_cond (match_step re) (@match_step_ok s)
              (length s) (s, []))
    as ([rest toks] & Hw & (pre & Hs & He & Hne) & Hc).
  - exists []. simpl. repeat split; constructor.
  - simpl. lia.
  - exists toks. unfold match_all. rewrite Hw. simpl in *.
    unfold match_cond in Hc. simpl in Hc.
    destruct rest; [|discriminate].
    rewrite app_nil_r in Hs. subst pre. auto.
Qed.
End MatchAll.

Lemma filter_truthy toks :
  Forall nonempty toks -> filter CompareView.truthy toks = toks.
Proof.
  induction 1 as [|t l Ht _ IH]; simpl; [reflexivity|].
  destruct t; [now elim Ht|]. simpl. now rewrite IH.
Qed.

Lemma merged_tokenize_spec s :
  exists toks, MergedView.tokenize s = Some toks
               /\ erase_only is_angle s (concat toks) /\ Forall nonempty toks.
Proof. apply match_all_spec; [apply re_consumes | apply re_none_angle]. Qed.

(** The filter of [compare_view.js] removes nothing: the two files tokenize
    alike. *)
Lemma compare_tokenize_eq s : CompareView.tokenize s = MergedView.tokenize s.
Proof.
  destruct (merged_tokenize_spec s) as (toks & H & _ & Hne).
  unfold CompareView.tokenize. unfold MergedView.tokenize in H.
  rewrite H. simpl. now rewrite filter_truthy.
Qed.

Lemma forallb_rev A (p : A -> bool) l : forallb p (rev l) = forallb p l.
Proof.
  induction l as [|x l IH]; simpl; [reflexivity|].
  rewrite forallb_app, IH. simpl. rewrite andb_true_r. apply andb_comm.
Qed.

(** A match that [trim] empties is whitespace only. *)
Lemma trim_falsy s :
  CompareView.truthy (HtmlDiff.trim s) = false -> forallb is_space s = true.
Proof.
  unfold HtmlDiff.trim. intros H.
  destruct (rev _) eqn:Hr in H; [|discriminate]. clear H.
  apply (f_equal (@rev _)) in Hr. rewrite rev_involutive in Hr. simpl in Hr.
  apply span_snd_nil in Hr. rewrite forallb_rev in Hr.
  destruct (snd (span is_space s)) as [|c r] eqn:Hs.
  - now apply span_snd_nil.
  - apply span_snd_head in Hs. simpl in Hr. rewrite Hs in Hr. discriminate.
Qed.

Lemma tok_step_ok s st :
  (exists pre, s = pre ++ fst st
               /\ erase_only is_lt_or_space pre (concat (contents (snd st)))) ->
  HtmlDiff.tok_cond st = true ->
  exists st', HtmlDiff.tok_step st = Some st'
    /\ (exists pre, s = pre ++ fst st'
               /\ erase_only is_lt_or_space pre (concat (contents (snd st'))))
    /\ length (fst st') < length (fst st).
Proof.
  destruct st as [rest toks]. intros (pre & Hs & He) Hc.
  unfold HtmlDiff.tok_cond in Hc. simpl in *.
  destruct rest as [|c r]; [discriminate|].
  destruct (HtmlDiff.re_html (c :: r)) as [[tok rest']|] eqn:Hre.
  - destruct (re_html_consumes _ Hre) as [Hsplit Htok].
    eexists; split; [reflexivity|]. split.
    + exists (pre ++ tok). simpl. split.
      * rewrite Hs, Hsplit. now rewrite app_assoc.
      * destruct (CompareView.truthy (HtmlDiff.trim tok)) eqn:Ht.
        -- unfold contents. rewrite map_app, concat_app. simpl.
           rewrite app_nil_r.
           apply erase_only_app; [assumption|apply erase_only_refl].
        -- rewrite <- (app_nil_r (concat _)).
           apply erase_only_app; [assumption|].
           apply erase_only_all. apply trim_falsy in Ht.
           rewrite forallb_forall in *. intros x Hx.
           unfold is_lt_or_space. rewrite (Ht x Hx). apply orb_true_r.
    + cbn [fst]. rewrite Hsplit, length_app.
      destruct tok; [congruence|simpl; lia].
  - eexists; split; [reflexivity|]. split.
    + exists (pre ++ [c]). simpl. split.
      * rewrite Hs. now rewrite <- app_assoc.
      * rewrite <- (app_nil_r (concat _)).
        apply erase_only_app; [assumption|].
        apply eo_drop; [|constructor].
        unfold is_lt_or_space. now rewrite (@re_html_none _ _ Hre).
    + simpl. lia.
Qed.

Lemma tokenizeHTML_spec s :
  exists toks, HtmlDiff.tokenizeHTML s = Some toks
               /\ erase_only is_lt_or_space s (concat (contents toks)).
Proof.
  destruct (@while_loop_total _
              (fun st => exists pre, s = pre ++ fst st
                 /\ erase_only is_lt_or_space pre (concat (contents (snd st))))
              (fun st => length (fst st))
              HtmlDiff.tok_cond HtmlDiff.tok_step (@tok_step_ok s)
              (length s) (s, []))
    as ([rest toks] & Hw & (pre & Hs & He) & Hc).
  - exists []. simpl. split; constructor.
  - simpl. lia.
  - exists toks. split; [exact (f_equal (option_map snd) Hw)|].
    unfold HtmlDiff.tok_cond in Hc. simpl in *.
    destruct rest; [|discriminate].
    rewrite app_nil_r in Hs. now subst pre.
Qed.

(** ** Arrays and panes *)

Lemma firstn_succ A (d : A) l i :
  i < length l -> firstn (i + 1) l = firstn i l ++ [nth i l d].
Proof.
  revert i; induction l as [|x l IH]; intros [|i] H; simpl in *; try lia.
  - reflexivity.
  - f_equal. apply IH. lia.
Qed.

Lemma firstn_slice A (l : list A) i k :
  i <= k -> firstn k l = firstn i l ++ slice l i k.
Proof.
  unfold slice. revert l k; induction i as [|i IH]; intros l k H; simpl.
  - now rewrite Nat.sub_0_r.
  - destruct k as [|k]; [lia|]. destruct l as [|x l]; simpl.
    + now rewrite firstn_nil.
    + f_equal. apply IH. lia.
Qed.

Lemma firstn_slice_from A (l : list A) i : l = firstn i l ++ slice_from l i.
Proof. unfold slice_from. now rewrite firstn_skipn. Qed.

Lemma baseline_side_app o1 o2 :
  baseline_side (o1 ++ o2) = baseline_side o1 ++ baseline_side o2.
Proof. unfold baseline_side. now rewrite filter_app, map_app, concat_app. Qed.

Lemma current_side_app o1 o2 :
  current_side (o1 ++ o2) = current_side o1 ++ current_side o2.
Proof. unfold current_side. now rewrite filter_app, map_app, concat_app. Qed.

Lemma join_snoc l (t : jsstring) : join (l ++ [t]) = join l ++ t.
Proof. unfold join. rewrite concat_app. simpl. now rewrite app_nil_r. Qed.

(** ** [merged_view.js]: the backtracking loop *)

Section MergedLoop.
Variables A B : list jsstring.
Variable dp : table.
Local Abbreviation n := (length A).
Local Abbreviation m := (length B).

(** The loop body always takes one of its three branches. *)
Lemma merged_body_cases st :
  bt_i st <= n ->
  MergedView.diff_cond A B st = true ->
  (bt_i st < n /\ bt_j st < m /\ at_ [] A (bt_i st) = at_ [] B (bt_j st) /\
     MergedView.diff_body A B dp st
     = Some (push st (equal, at_ [] A (bt_i st)) (bt_i st + 1) (bt_j st + 1)))
  \/ (bt_j st < m /\ (bt_i st < n -> at_ [] A (bt_i st) <> at_ [] B (bt_j st)) /\
     MergedView.diff_body A B dp st
     = Some (push st (insert, at_ [] B (bt_j st)) (bt_i st) (bt_j st + 1)))
  \/ (bt_i st < n /\ (bt_j st < m -> at_ [] A (bt_i st) <> at_ [] B (bt_j st)) /\
     MergedView.diff_body A B dp st
     = Some (push st (delete, at_ [] A (bt_i st)) (bt_i st + 1) (bt_j st))).
Proof.
  unfold MergedView.diff_cond, MergedView.diff_body. intros Hle Hc. cbv zeta.
  destruct (streq (at_ [] A (bt_i st)) (at_ [] B (bt_j st))) eqn:Es;
    [apply streq_eq in Es
    |assert (at_ [] A (bt_i st) <> at_ [] B (bt_j st))
       by (intros E; apply streq_eq in E; congruence)];
    destruct (bt_i st <? n) eqn:Ei; destruct (bt_j st <? m) eqn:Ej;
    simpl in *; try discriminate; bools;
    try (left; now auto);
    repeat match goal with
           | |- context [if ?b then _ else _] => destruct b eqn:?
           end; bools;
    try solve [right; left; repeat split; first [now auto | intros; lia]];
    try solve [right; right; repeat split; first [now auto | intros; lia]];
    try lia.
Qed.

Lemma merged_cover_step st :
  cover_inv A B st -> MergedView.diff_cond A B st = true ->
  exists st', MergedView.diff_body A B dp st = Some st'
              /\ cover_inv A B st' /\ bt_mu n m st' < bt_mu n m st.
Proof.
  intros (Hi & Hj & Hb & Hc) Hcond. unfold cover_inv, bt_mu.
  destruct (merged_body_cases st Hi Hcond)
    as [(Hin & Hjm & Heq & ->)|[(Hjm & _ & ->)|(Hin & _ & ->)]];
    eexists; (split; [reflexivity|]); simpl;
    rewrite baseline_side_app, current_side_app, Hb, Hc;
    unfold baseline_side, current_side; simpl;
    rewrite ?app_nil_r;
    rewrite ?(@firstn_succ _ [] A (bt_i st)), ?(@firstn_succ _ [] B (bt_j st)),
            ?join_snoc by assumption;
    unfold at_ in *; try rewrite Heq; repeat split; auto; try lia.
Qed.

Lemma merged_ins_step st :
  A = [] -> ins_inv B st -> MergedView.diff_cond A B st = true ->
  exists st', MergedView.diff_body A B dp st = Some st'
              /\ ins_inv B st' /\ bt_mu n m st' < bt_mu n m st.
Proof.
  intros HA (Hi & Hj & Hd) Hcond. unfold ins_inv, bt_mu.
  assert (Hle : bt_i st <= n) by lia.
  destruct (merged_body_cases st Hle Hcond)
    as [(Hin & _)|[(Hjm & _ & ->)|(Hin & _)]];
    try (exfalso; subst A; simpl in *; lia).
  eexists; (split; [reflexivity|]); simpl.
  rewrite (@firstn_succ _ [] B (bt_j st)), map_app, Hd by assumption.
  repeat split; auto; lia.
Qed.

Lemma merged_del_step st :
  B = [] -> del_inv A st -> MergedView.diff_cond A B st = true ->
  exists st', MergedView.diff_body A B dp st = Some st'
              /\ del_inv A st' /\ bt_mu n m st' < bt_mu n m st.
Proof.
  intros HB (Hj & Hi & Hd) Hcond. unfold del_inv, bt_mu.
  destruct (merged_body_cases st Hi Hcond)
    as [(_ & Hjm & _)|[(Hjm & _)|(Hin & _ & ->)]];
    try (exfalso; subst B; simpl in *; lia).
  eexists; (split; [reflexivity|]); simpl.
  rewrite (@firstn_succ _ [] A (bt_i st)), map_app, Hd by assumption.
  repeat split; auto; lia.
Qed.
End MergedLoop.

Lemma merged_ident_step A dp st :
  ident_inv A st -> MergedView.diff_cond A A st = true ->
  exists st', MergedView.diff_body A A dp st = Some st'
              /\ ident_inv A st'
              /\ bt_mu (length A) (length A) st' < bt_mu (length A) (length A) st.
Proof.
  intros (Hij & Hi & Hd) Hcond. unfold ident_inv, bt_mu.
  destruct (@merged_body_cases A A dp st Hi Hcond)
    as [(Hin & Hjm & Heq & ->)|[(Hjm & Hne & _)|(Hin & Hne & _)]];
    try (exfalso; rewrite <- Hij in *; now apply Hne).
  eexists; (split; [reflexivity|]); simpl.
  rewrite (@firstn_succ _ [] A (bt_i st)), map_app, Hd by assumption.
  repeat split; auto; lia.
Qed.

Lemma merged_align_cover A B :
  exists ops, MergedView.align A B = Some ops
              /\ baseline_side ops = join A /\ current_side ops = join B.
Proof.
  unfold MergedView.align.
  destruct (while_loop_total (cover_inv A B) (bt_mu (length A) (length B))
              _ _ (@merged_cover_step A B (lcs_table streq [] A B))
              (fuel := length A + length B) bt0)
    as (st & Hw & (Hi & Hj & Hb & Hc) & Hcond).
  - unfold cover_inv; simpl. repeat split; try lia; reflexivity.
  - unfold bt_mu; simpl. lia.
  - fold bt0. rewrite Hw. exists (bt_diff st). split; [reflexivity|].
    unfold MergedView.diff_cond in Hcond. bools.
    rewrite Hb, Hc.
    rewrite !firstn_all2 by lia. auto.
Qed.

Lemma merged_align_ident A :
  MergedView.align A A = Some (map (pair equal) A).
Proof.
  unfold MergedView.align.
  destruct (while_loop_total (ident_inv A) (bt_mu (length A) (length A))
              _ _ (@merged_ident_step A (lcs_table streq [] A A))
              (fuel := length A + length A) bt0)
    as (st & Hw & (Hij & Hi & Hd) & Hcond).
  - unfold ident_inv; simpl. repeat split; lia.
  - unfold bt_mu; simpl. lia.
  - fold bt0. rewrite Hw. simpl. rewrite Hd.
    unfold MergedView.diff_cond in Hcond. bools.
    now rewrite firstn_all2 by lia.
Qed.

Lemma merged_align_ins B :
  MergedView.align [] B = Some (map (pair insert) B).
Proof.
  unfold MergedView.align.
  destruct (while_loop_total (ins_inv B) (bt_mu 0 (length B))
              _ _ (fun st => @merged_ins_step [] B (lcs_table streq [] [] B) st eq_refl)
              (fuel := length (@nil jsstring) + length B) bt0)
    as (st & Hw & (Hi & Hj & Hd) & Hcond).
  - unfold ins_inv; simpl. repeat split; lia.
  - unfold bt_mu; simpl. lia.
  - fold bt0. rewrite Hw. simpl. rewrite Hd.
    unfold MergedView.diff_cond in Hcond. bools.
    now rewrite firstn_all2 by lia.
Qed.

Lemma merged_align_del A :
  MergedView.align A [] = Some (map (pair delete) A).
Proof.
  unfold MergedView.align.
  destruct (while_loop_total (del_inv A) (bt_mu (length A) 0)
              _ _ (fun st => @merged_del_step A [] (lcs_table streq [] A []) st eq_refl)
              (fuel := length A + length (@nil jsstring)) bt0)
    as (st & Hw & (Hj & Hi & Hd) & Hcond).
  - unfold del_inv; simpl. repeat split; lia.
  - unfold bt_mu; simpl. lia.
  - fold bt0. rewrite Hw. simpl. rewrite Hd.
    unfold MergedView.diff_cond in Hcond. bools.
    now rewrite firstn_all2 by lia.
Qed.

(** ** [compare_view.js]: look-ahead and main loop *)

Section CompareLoop.
Variables A B : list jsstring.
Variable dp : table.
Local Abbreviation n := (length A).
Local Abbreviation m := (length B).

Lemma ahead_step i j e :
  ahead_inv n m i j e -> CompareView.ahead_cond A B e = true ->
  exists e', CompareView.ahead_body dp i j e = Some e'
             /\ ahead_inv n m i j e' /\ ahead_mu n m e' < ahead_mu n m e.
Proof.
  destruct e as [iEnd jEnd]. unfold ahead_inv, ahead_mu. simpl.
  intros (H1 & H2 & H3 & H4) Hc. bools.
  destruct (_ <? _); eexists; (split; [reflexivity|]); simpl; lia.
Qed.

(** The look-ahead returns, inside the arrays, and past the start of the
    block. *)
Lemma ahead_total i j :
  i < n -> j < m -> at_ [] A i <> at_ [] B j ->
  exists iEnd jEnd,
    while_loop (n + m) (CompareView.ahead_cond A B)
               (CompareView.ahead_body dp i j) (i, j) = Some (iEnd, jEnd)
    /\ i <= iEnd <= n /\ j <= jEnd <= m /\ i + j < iEnd + jEnd.
Proof.
  intros Hi Hj Hne.
  destruct (while_loop_total (ahead_inv n m i j) (ahead_mu n m) _ _
              (@ahead_step i j) (fuel := n + m) (i, j))
    as ([iEnd jEnd] & Hw & (H1 & H2 & H3 & H4) & Hc).
  - unfold ahead_inv; simpl; lia.
  - unfold ahead_mu; simpl; lia.
  - exists iEnd, jEnd. simpl in *. split; [assumption|].
    repeat split; try lia.
    destruct (Nat.eq_dec iEnd i) as [->|]; [|lia].
    destruct (Nat.eq_dec jEnd j) as [->|]; [|lia].
    exfalso. apply andb_false_iff in Hc as [Hc|Hc].
    + apply andb_false_iff in Hc as [Hc|Hc]; bools; lia.
    + bools. apply streq_eq in Hc. contradiction.
Qed.

Lemma compare_body_cases st :
  CompareView.diff_cond A B st = true ->
  (at_ [] A (bt_i st) = at_ [] B (bt_j st) /\
   CompareView.diff_body A B dp st
   = Some (push st (equal, at_ [] A (bt_i st)) (bt_i st + 1) (bt_j st + 1)))
  \/ (exists iEnd jEnd,
        bt_i st <= iEnd <= n /\ bt_j st <= jEnd <= m
        /\ bt_i st + bt_j st < iEnd + jEnd
        /\ CompareView.diff_body A B dp st
           = Some {| bt_i := iEnd; bt_j := jEnd;
                     bt_diff :=
                       CompareView.push_if (join (slice B (bt_j st) jEnd))
                         (insert, join (slice B (bt_j st) jEnd))
                         (CompareView.push_if (join (slice A (bt_i st) iEnd))
                            (delete, join (slice A (bt_i st) iEnd))
                            (bt_diff st)) |}).
Proof.
  unfold CompareView.diff_cond, CompareView.diff_body. intros Hc. bools.
  cbv zeta.
  destruct (streq _ _) eqn:Es.
  - left. apply streq_eq in Es. auto.
  - right.
    assert (Hne : at_ [] A (bt_i st) <> at_ [] B (bt_j st))
      by (intros E; apply streq_eq in E; congruence).
    destruct (ahead_total H H0 Hne) as (iEnd & jEnd & Hw & Hr1 & Hr2 & Hp).
    exists iEnd, jEnd. rewrite Hw. auto.
Qed.

Lemma push_if_sides s d :
  baseline_side (CompareView.push_if s (delete, s) d) = baseline_side d ++ s
  /\ current_side (CompareView.push_if s (delete, s) d) = current_side d
  /\ baseline_side (CompareView.push_if s (insert, s) d) = baseline_side d
  /\ current_side (CompareView.push_if s (insert, s) d) = current_side d ++ s.
Proof.
  unfold CompareView.push_if. destruct s as [|c s]; simpl.
  - now rewrite !app_nil_r.
  - rewrite !baseline_side_app, !current_side_app.
    unfold baseline_side, current_side. simpl. now rewrite !app_nil_r.
Qed.

Lemma compare_cover_step st :
  cover_inv A B st -> CompareView.diff_cond A B st = true ->
  exists st', CompareView.diff_body A B dp st = Some st'
              /\ cover_inv A B st' /\ bt_mu n m st' < bt_mu n m st.
Proof.
  intros (Hi & Hj & Hb & Hc) Hcond. unfold cover_inv, bt_mu.
  destruct (compare_body_cases st Hcond)
    as [(Heq & ->)|(iEnd & jEnd & Hr1 & Hr2 & Hp & ->)];
    unfold CompareView.diff_cond in Hcond; bools;
    eexists; (split; [reflexivity|]); simpl.
  - rewrite baseline_side_app, current_side_app, Hb, Hc.
    unfold baseline_side, current_side; simpl. rewrite ?app_nil_r.
    rewrite (@firstn_succ _ [] A (bt_i st)), (@firstn_succ _ [] B (bt_j st)),
            !join_snoc by assumption.
    unfold at_ in *. rewrite Heq. repeat split; auto; lia.
  - destruct (push_if_sides (join (slice A (bt_i st) iEnd)) (bt_diff st))
      as (E1 & E2 & _).
    destruct (push_if_sides (join (slice B (bt_j st) jEnd))
                (CompareView.push_if (join (slice A (bt_i st) iEnd))
                   (delete, join (slice A (bt_i st) iEnd)) (bt_diff st)))
      as (_ & _ & E3 & E4).
    rewrite E3, E4, E1, E2, Hb, Hc.
    rewrite (@firstn_slice _ A (bt_i st) iEnd), (@firstn_slice _ B (bt_j st) jEnd)
      by lia.
    unfold join. rewrite !concat_app. repeat split; auto; lia.
Qed.

Lemma compare_tail_cover st :
  cover_inv A B st -> CompareView.diff_cond A B st = false ->
  baseline_side (CompareView.diff_tail A B st) = join A
  /\ current_side (CompareView.diff_tail A B st) = join B.
Proof.
  intros (Hi & Hj & Hb & Hc) Hcond. unfold CompareView.diff_tail. cbv zeta.
  assert (HA : join A = baseline_side (bt_diff st) ++ join (slice_from A (bt_i st))).
  { rewrite Hb. unfold join. rewrite <- concat_app.
    now rewrite <- firstn_slice_from. }
  assert (HB : join B = current_side (bt_diff st) ++ join (slice_from B (bt_j st))).
  { rewrite Hc. unfold join. rewrite <- concat_app.
    now rewrite <- firstn_slice_from. }
  rewrite HA, HB. clear HA HB.
  unfold CompareView.diff_cond in Hcond.
  destruct (bt_i st <? n) eqn:Ei; destruct (bt_j st <? m) eqn:Ej;
    try discriminate; bools;
    rewrite ?baseline_side_app, ?current_side_app;
    unfold slice_from;
    rewrite ?(skipn_all2 A) by lia; rewrite ?(skipn_all2 B) by lia;
    unfold baseline_side, current_side; simpl; rewrite ?app_nil_r; auto.
Qed.
End CompareLoop.

Lemma compare_align_cover A B :
  exists ops, CompareView.align A B = Some ops
              /\ baseline_side ops = join A /\ current_side ops = join B.
Proof.
  unfold CompareView.align.
  destruct (while_loop_total (cover_inv A B) (bt_mu (length A) (length B))
              _ _ (@compare_cover_step A B (lcs_table streq [] A B))
              (fuel := length A + length B) bt0)
    as (st & Hw & Hinv & Hcond).
  - unfold cover_inv; simpl. repeat split; try lia; reflexivity.
  - unfold bt_mu; simpl. lia.
  - fold bt0. rewrite Hw. eexists. split; [reflexivity|].
    now apply compare_tail_cover.
Qed.

Lemma compare_ident_step A dp st :
  ident_inv A st -> CompareView.diff_cond A A st = true ->
  exists st', CompareView.diff_body A A dp st = Some st'
              /\ ident_inv A st'
              /\ bt_mu (length A) (length A) st' < bt_mu (length A) (length A) st.
Proof.
  intros (Hij & Hi & Hd) Hcond. unfold ident_inv, bt_mu.
  unfold CompareView.diff_cond in Hcond. bools.
  unfold CompareView.diff_body. cbv zeta.
  rewrite <- Hij, streq_refl.
  eexists; (split; [reflexivity|]); simpl.
  rewrite (@firstn_succ _ [] A (bt_i st)), map_app, Hd by assumption.
  repeat split; auto; lia.
Qed.

Lemma compare_align_ident A :
  CompareView.align A A = Some (map (pair equal) A).
Proof.
  unfold CompareView.align.
  destruct (while_loop_total (ident_inv A) (bt_mu (length A) (length A))
              _ _ (@compare_ident_step A (lcs_table streq [] A A))
              (fuel := length A + length A) bt0)
    as (st & Hw & (Hij & Hi & Hd) & Hcond).
  - unfold ident_inv; simpl. repeat split; lia.
  - unfold bt_mu; simpl. lia.
  - fold bt0. rewrite Hw. simpl. f_equal.
    unfold CompareView.diff_cond in Hcond. rewrite <- Hij in Hcond.
    rewrite andb_diag in Hcond.
    unfold CompareView.diff_tail. cbv zeta. rewrite <- Hij, Hcond, Hd.
    bools. now rewrite firstn_all2 by lia.
Qed.

Lemma compare_align_ins t B :
  CompareView.align [] (t :: B) = Some [(insert, join (t :: B))].
Proof. unfold CompareView.align. now rewrite while_loop_done. Qed.

Lemma compare_align_del t A :
  CompareView.align (t :: A) [] = Some [(delete, join (t :: A))].
Proof. unfold CompareView.align. now rewrite while_loop_done. Qed.

Lemma tokenize_empty : MergedView.tokenize [] = Some [].
Proof. reflexivity. Qed.

(** ** Reconstruction (C1, C2) *)

(** C1, as the specification states it, fails: a [>] outside a tag matches
    no alternative of the token expression and is stepped over, so the
    tokens of [a>b] are [a] and [b]; the attribute-aware tokenizer also
    leaves out a whitespace-only text run. *)
Lemma tokenize_drops_stray_angle :
  MergedView.tokenize (str "a>b") = Some [str "a"; str "b"]
  /\ join [str "a"; str "b"] <> str "a>b"
  /\ option_map contents (HtmlDiff.tokenizeHTML (str "<b> </b>"))
     = Some [str "<b>"; str "</b>"]
  /\ join [str "<b>"; str "</b>"] <> str "<b> </b>".
Proof. repeat split; try reflexivity; discriminate. Qed.

(** A string without angle brackets is reconstructed exactly. *)
Corollary tokenize_reconstructs_clean (s : jsstring) :
  forallb (fun c => negb (is_angle c)) s = true ->
  exists toks, MergedView.tokenize s = Some toks /\ join toks = s.
Proof.
  intros Hs. destruct (merged_tokenize_spec s) as (toks & Ht & He & _).
  exists toks. split; [assumption|]. eapply erase_only_clean; eassumption.
Qed.

(** C2, as stated, fails with C1: the [delete] payloads of
    [diffTokens] for the baseline [a>b] and the empty current string are [a]
    and [b]. *)
Lemma diffTokens_loses_stray_angle :
  MergedView.diffTokens (str "a>b") [] = Some [(delete, str "a"); (delete, str "b")]
  /\ CompareView.diffTokens (str "a>b") [] = Some [(delete, str "ab")]
  /\ baseline_side [(delete, str "a"); (delete, str "b")] <> str "a>b"
  /\ baseline_side [(delete, str "ab")] <> str "a>b".
Proof. repeat split; try reflexivity; discriminate. Qed.

(** C2, amended: [diffTokens] returns in both files, and the [equal] and
    [delete] payloads put end to end are the tokens of the baseline put end
    to end, the [equal] and [insert] payloads those of the current string:
    each pane is its input string with only angle brackets left out. *)
Theorem diffTokens_covers_tokens (a b : jsstring) :
  exists A B ops ops',
    MergedView.tokenize a = Some A /\ MergedView.tokenize b = Some B
    /\ MergedView.diffTokens a b = Some ops
    /\ CompareView.diffTokens a b = Some ops'
    /\ baseline_side ops = join A /\ current_side ops = join B
    /\ baseline_side ops' = join A /\ current_side ops' = join B
    /\ erase_only is_angle a (join A) /\ erase_only is_angle b (join B).
Proof.
  destruct (merged_tokenize_spec a) as (A & HA & HeA & _).
  destruct (merged_tokenize_spec b) as (B & HB & HeB & _).
  destruct (merged_align_cover A B) as (ops & Ho & H1 & H2).
  destruct (compare_align_cover A B) as (ops' & Ho' & H1' & H2').
  exists A, B, ops, ops'.
  unfold MergedView.diffTokens, CompareView.diffTokens.
  rewrite !compare_tokenize_eq, HA, HB. auto 12.
Qed.

(** ** Identity and empty inputs (C9, C5) *)

(** C9: aligning a token sequence with itself yields one [equal] per token,
    in order, and nothing else; so [diffTokens(s, s)] is one [equal] per
    token of [s], in both files. *)
Theorem diffTokens_identity (s : jsstring) :
  (forall A, MergedView.align A A = Some (map (pair equal) A)
             /\ CompareView.align A A = Some (map (pair equal) A))
  /\ exists toks,
       MergedView.tokenize s = Some toks
       /\ MergedView.diffTokens s s = Some (map (pair equal) toks)
       /\ CompareView.diffTokens s s = Some (map (pair equal) toks).
Proof.
  split.
  - intros A. split; [apply merged_align_ident|apply compare_align_ident].
  - destruct (merged_tokenize_spec s) as (toks & Ht & _).
    exists toks. unfold MergedView.diffTokens, CompareView.diffTokens.
    rewrite compare_tokenize_eq, Ht.
    now rewrite merged_align_ident, compare_align_ident.
Qed.

(** C5, as stated, fails in [merged_view.js], which emits one operation per
    token: three inserts for a three-token string. *)
Lemma merged_empty_baseline_three_inserts :
  MergedView.diffTokens [] (str "a b")
  = Some [(insert, str "a"); (insert, str " "); (insert, str "b")]
  /\ MergedView.diffTokens [] (str "a b") <> Some [(insert, str "a b")].
Proof. split; [reflexivity|discriminate]. Qed.

(** C5, amended: against the empty string, [compare_view.js] yields one
    [insert] (one [delete]) whose payload is all tokens of the other string
    put end to end, provided it has a token, and nothing otherwise;
    [merged_view.js] yields one [insert] (one [delete]) per token, in order;
    two empty strings yield the empty sequence in both. *)
Theorem diffTokens_empty_sides (s : jsstring) :
  exists toks,
    MergedView.tokenize s = Some toks
    /\ CompareView.diffTokens [] s
       = Some (match toks with [] => [] | _ :: _ => [(insert, join toks)] end)
    /\ CompareView.diffTokens s []
       = Some (match toks with [] => [] | _ :: _ => [(delete, join toks)] end)
    /\ MergedView.diffTokens [] s = Some (map (pair insert) toks)
    /\ MergedView.diffTokens s [] = Some (map (pair delete) toks)
    /\ CompareView.diffTokens [] [] = Some []
    /\ MergedView.diffTokens [] [] = Some [].
Proof.
  destruct (merged_tokenize_spec s) as (toks & Ht & _).
  exists toks. unfold MergedView.diffTokens, CompareView.diffTokens.
  rewrite !compare_tokenize_eq, Ht, tokenize_empty.
  rewrite merged_align_ins, merged_align_del.
  destruct toks as [|t toks].
  - repeat split; reflexivity.
  - rewrite compare_align_ins, compare_align_del. repeat split; reflexivity.
Qed.

(** ** The table holds the LCS lengths of the suffixes *)

Lemma countdown_S k : countdown (S k) = k :: countdown k.
Proof. unfold countdown. now rewrite seq_S, rev_app_distr. Qed.

Lemma set_nth_length A (l : list A) i v : length (set_nth l i v) = length l.
Proof. revert i; induction l; intros [|i]; simpl; auto. Qed.

Lemma nth_set_nth A (l : list A) i k v d :
  nth k (set_nth l i v) d
  = if (i =? k) && (i <? length l) then v else nth k l d.
Proof.
  revert i k; induction l as [|x l IH]; intros [|i] [|k]; simpl; auto.
  now rewrite andb_false_r.
Qed.

Lemma dims_set n m dp i j v : dims n m dp -> dims n m (dp_set dp i j v).
Proof.
  intros [Hl Hr]. unfold dp_set. split.
  - now rewrite set_nth_length.
  - intros k Hk. rewrite nth_set_nth.
    destruct ((i =? k) && _) eqn:E; [|auto].
    bools. subst k. rewrite set_nth_length. auto.
Qed.

Lemma dp_get_set n m dp i j v i' j' :
  dims n m dp -> i <= n -> j <= m ->
  dp_get (dp_set dp i j v) i' j'
  = if (i =? i') && (j =? j') then v else dp_get dp i' j'.
Proof.
  intros [Hl Hr] Hi Hj. unfold dp_get, dp_set. rewrite nth_set_nth.
  destruct (i =? i') eqn:Ei; simpl.
  - bools. subst i'. replace (i <? length dp) with true
      by (symmetry; apply Nat.ltb_lt; lia).
    rewrite nth_set_nth.
    destruct (j =? j') eqn:Ej; simpl; [|reflexivity].
    replace (j <? _) with true; [reflexivity|].
    symmetry; apply Nat.ltb_lt. rewrite Hr; lia.
  - reflexivity.
Qed.

Lemma dims_init n m : dims n m (dp_init n m).
Proof.
  unfold dp_init. split; [apply repeat_length|].
  intros i Hi. rewrite nth_repeat_lt by lia. apply repeat_length.
Qed.

Lemma dp_get_init n m i j : dp_get (dp_init n m) i j = 0.
Proof.
  unfold dp_get, dp_init.
  destruct (Nat.lt_ge_cases i (n + 1)).
  - rewrite nth_repeat_lt by assumption.
    destruct (Nat.lt_ge_cases j (m + 1)).
    + now rewrite nth_repeat_lt.
    + apply nth_overflow. now rewrite repeat_length.
  - rewrite (nth_overflow (repeat _ _)) by now rewrite repeat_length.
    now destruct j.
Qed.

Lemma lcs_len_nil_r T same (A : list T) : lcs_len same A [] = 0.
Proof. now destruct A. Qed.

Lemma skipn_cons_nth T (d : T) l i :
  i < length l -> skipn i l = nth i l d :: skipn (i + 1) l.
Proof.
  revert i; induction l as [|x l IH]; intros [|i] H; simpl in *; try lia.
  - reflexivity.
  - apply IH. lia.
Qed.

Section TableCorrect.
Variable T : Type.
Variable same : T -> T -> bool.
Variable undef : T.
Variables A B : list T.
Local Abbreviation n := (length A).
Local Abbreviation m := (length B).

(** [L i j]: the LCS length of [A[i:]] and [B[j:]]. *)
Local Abbreviation L := (fun i j => lcs_len same (skipn i A) (skipn j B)).

Lemma L_step i j :
  i < n -> j < m ->
  L i j = if same (at_ undef A i) (at_ undef B j)
          then 1 + L (i + 1) (j + 1)
          else Nat.max (L (i + 1) j) (L i (j + 1)).
Proof.
  intros Hi Hj. cbv beta. unfold at_.
  pose proof (@skipn_cons_nth _ undef A i Hi) as EA.
  pose proof (@skipn_cons_nth _ undef B j Hj) as EB.
  set (A1 := skipn (i + 1) A) in *. set (B1 := skipn (j + 1) B) in *.
  rewrite EA, EB. reflexivity.
Qed.

Local Abbreviation filled := (filled same A B).

Lemma fill_cell_filled i c dp :
  i < n -> c < m -> filled i (S c) dp -> filled i c (fill_cell same undef A B dp i c).
Proof.
  intros Hi Hc [Hd Hf].
  assert (Hv : (if same (at_ undef A i) (at_ undef B c)
                then 1 + dp_get dp (i + 1) (c + 1)
                else Nat.max (dp_get dp (i + 1) c) (dp_get dp i (c + 1)))
               = L i c).
  { rewrite (L_step Hi Hc), !Hf by lia. reflexivity. }
  unfold fill_cell. split.
  - destruct (same _ _); now apply dims_set.
  - intros i' j Hi' Hj Hcase.
    assert (Hg : forall v, dp_get (dp_set dp i c v) i' j
                 = if (i =? i') && (c =? j) then v else dp_get dp i' j)
      by (intros; eapply dp_get_set; eauto; lia).
    destruct ((i =? i') && (c =? j)) eqn:E.
    + bools. subst i' j. rewrite <- Hv.
      destruct (same _ _); now rewrite Hg.
    + assert (dp_get dp i' j = L i' j).
      { apply Hf; try assumption.
        apply andb_false_iff in E as [E|E]; bools; lia. }
      destruct (same _ _); rewrite Hg; assumption.
Qed.

Lemma fill_row_filled i dp : forall c,
  i < n -> c <= m -> filled i c dp ->
  filled i 0 (fold_left (fun dp j => fill_cell same undef A B dp i j) (countdown c) dp).
Proof.
  intros c; revert dp; induction c as [|c IH]; intros dp Hi Hc Hf.
  - exact Hf.
  - rewrite countdown_S. simpl. apply IH; [assumption|lia|].
    apply fill_cell_filled; auto.
Qed.

Lemma fill_rows_filled : forall k dp,
  k <= n -> filled k 0 dp ->
  filled 0 0
    (fold_left
       (fun dp i => fold_left (fun dp j => fill_cell same undef A B dp i j)
                              (countdown m) dp)
       (countdown k) dp).
Proof.
  induction k as [|k IH]; intros dp Hk Hf.
  - exact Hf.
  - rewrite countdown_S. simpl. apply IH; [lia|].
    apply fill_row_filled; [lia|lia|].
    destruct Hf as [Hd Hf]. split; [assumption|].
    intros i' j Hi' Hj Hcase. apply Hf; auto. lia.
Qed.

(** After the two nested loops, [dp[i][j]] is the LCS length of [A[i:]]
    and [B[j:]], and the table has [n + 1] rows of [m + 1] cells. *)
Lemma lcs_table_correct :
  dims n m (lcs_table same undef A B)
  /\ forall i j, i <= n -> j <= m ->
       dp_get (lcs_table same undef A B) i j = L i j.
Proof.
  destruct (@fill_rows_filled n (dp_init n m) (le_n _)) as [Hd Hf].
  - split; [apply dims_init|].
    intros i' j Hi' Hj Hcase. rewrite dp_get_init.
    destruct Hcase as [?|[[? ?]|?]]; try lia.
    + subst. now rewrite skipn_all.
    + subst. now rewrite skipn_all, lcs_len_nil_r.
  - split; [exact Hd|]. intros i j Hi Hj. apply Hf; auto.
    destruct (Nat.eq_dec i 0); [right; left; lia|left; lia].
Qed.
End TableCorrect.

(** ** Monotonicity of the LCS length *)

Section LcsBounds.
Variable T : Type.
Variable same : T -> T -> bool.
Local Abbreviation lcs := (lcs_len same).

Lemma lcs_len_cons a A b B :
  lcs (a :: A) (b :: B)
  = if same a b then S (lcs A B) else Nat.max (lcs A (b :: B)) (lcs (a :: A) B).
Proof. reflexivity. Qed.

(** Dropping the head of either list loses at most one, and gains
    nothing. *)
Lemma lcs_len_bounds : forall k A B,
  length A + length B <= k ->
  (forall a, lcs (a :: A) B <= S (lcs A B) /\ lcs A B <= lcs (a :: A) B)
  /\ (forall b, lcs A (b :: B) <= S (lcs A B) /\ lcs A B <= lcs A (b :: B)).
Proof.
  induction k as [|k IH]; intros A B Hk.
  - destruct A, B; simpl in Hk; try lia. simpl. repeat split; lia.
  - split.
    + intros a. destruct B as [|b B'].
      * rewrite !lcs_len_nil_r. lia.
      * simpl in Hk. destruct (IH A B' ltac:(lia)) as [HA HB].
        destruct (HA a) as [L1 _]. destruct (HB b) as [L2 M2].
        rewrite lcs_len_cons. destruct (same a b); lia.
    + intros b. destruct A as [|a A'].
      * simpl. lia.
      * simpl in Hk. destruct (IH A' B ltac:(lia)) as [HA HB].
        destruct (HA a) as [L1 M1]. destruct (HB b) as [L2 _].
        rewrite lcs_len_cons. destruct (same a b); lia.
Qed.

Lemma lcs_len_skip_l k : forall A B, lcs (skipn k A) B <= lcs A B.
Proof.
  induction k as [|k IH]; intros [|a A] B; simpl; try lia.
  etransitivity; [apply IH|].
  apply (proj1 (@lcs_len_bounds _ A B (le_n _)) a).
Qed.

Lemma lcs_len_skip_r k : forall A B, lcs A (skipn k B) <= lcs A B.
Proof.
  induction k as [|k IH]; intros A [|b B]; simpl; try lia.
  etransitivity; [apply IH|].
  apply (proj2 (@lcs_len_bounds _ A B (le_n _)) b).
Qed.
End LcsBounds.

(** ** The look-ahead follows the tie-break *)

Section AheadTieBreak.
Variables A B : list jsstring.
Local Abbreviation n := (length A).
Local Abbreviation m := (length B).
Local Abbreviation dp := (lcs_table streq [] A B).
Local Abbreviation D := (dp_get (lcs_table streq [] A B)).

Lemma D_row_mono i r c : i <= r -> r <= n -> c <= m -> D r c <= D i c.
Proof.
  intros H1 H2 H3.
  rewrite !(proj2 (lcs_table_correct streq [] A B)) by lia.
  replace r with ((r - i) + i) by lia. rewrite <- skipn_skipn.
  apply lcs_len_skip_l.
Qed.

Lemma D_col_mono j c r : j <= c -> c <= m -> r <= n -> D r c <= D r j.
Proof.
  intros H1 H2 H3.
  rewrite !(proj2 (lcs_table_correct streq [] A B)) by lia.
  replace c with ((c - j) + j) by lia. rewrite <- skipn_skipn.
  apply lcs_len_skip_r.
Qed.

Lemma D_differ r c :
  r < n -> c < m -> streq (at_ [] A r) (at_ [] B c) = false ->
  D r c = Nat.max (D (r + 1) c) (D r (c + 1)).
Proof.
  intros H1 H2 Hne.
  rewrite !(proj2 (lcs_table_correct streq [] A B)) by lia.
  rewrite (L_step streq [] A B H1 H2), Hne. reflexivity.
Qed.

(** One step of the look-ahead: its test on the cells of the block start
    decides as the tie-break does on the cells of the current position,
    and the path invariant is kept. *)
Lemma ahead_follows i j e :
  ahead_path n m dp i j e -> CompareView.ahead_cond A B e = true ->
  let e' := if to_insert_side dp (fst e) (snd e)
            then (fst e, snd e + 1) else (fst e + 1, snd e) in
  CompareView.ahead_body dp i j e = Some e' /\ ahead_path n m dp i j e'.
Proof.
  destruct e as [ie je]. unfold ahead_path, to_insert_side. simpl.
  intros (H1 & H2 & H3 & H4 & Hv & Hrow) Hc.
  apply andb_true_iff in Hc as [Hc Hne]. apply andb_true_iff in Hc as [Hin Hjm].
  apply Nat.ltb_lt in Hin, Hjm. apply negb_true_iff in Hne.
  pose proof (D_differ Hin Hjm Hne) as Hmax.
  pose proof (@D_row_mono i ie (je + 1) H1 ltac:(lia) ltac:(lia)) as R1.
  pose proof (@D_row_mono i (ie + 1) j ltac:(lia) ltac:(lia) ltac:(lia)) as R2.
  pose proof (@D_col_mono j je (ie + 1) H3 ltac:(lia) ltac:(lia)) as C1.
  pose proof (@D_col_mono j (je + 1) i ltac:(lia) ltac:(lia) ltac:(lia)) as C2.
  destruct (D (ie + 1) je <=? D ie (je + 1)) eqn:Et; bools.
  - (* insert side *)
    assert (Hcode : (D i (je + 1) <? D (ie + 1) j) = false)
      by (apply Nat.ltb_ge; lia).
    rewrite Hcode. split; [reflexivity|]. simpl.
    repeat split; lia.
  - (* delete side *)
    assert (Hcode : (D i (je + 1) <? D (ie + 1) j) = true).
    { apply Nat.ltb_lt.
      destruct (Nat.eq_dec ie i) as [->|Hd].
      - lia.
      - specialize (Hrow ltac:(lia) ltac:(lia)). lia. }
    rewrite Hcode. split; [reflexivity|]. simpl.
    repeat split; try lia.
    intros _ Hm.
    destruct (Nat.eq_dec ie i) as [->|Hd].
    + lia.
    + specialize (Hrow ltac:(lia) ltac:(lia)). lia.
Qed.

Lemma ahead_reach_path i j e :
  i < n -> j < m -> ahead_reach A B dp i j e -> ahead_path n m dp i j e.
Proof.
  intros Hi Hj. induction 1 as [|e e' Hr IH Hc Hb].
  - unfold ahead_path. simpl. repeat split; try lia.
  - destruct (ahead_follows IH Hc) as [Hb' Hp].
    rewrite Hb in Hb'. injection Hb' as ->. exact Hp.
Qed.
End AheadTieBreak.

(** ** The attribute-aware loop *)

Lemma opt_streq_eq a b : HtmlDiff.opt_streq a b = true <-> a = b.
Proof.
  destruct a as [x|], b as [y|]; simpl; try (split; congruence).
  rewrite streq_eq. split; congruence.
Qed.

Lemma streq_neq a b : streq a b = false <-> a <> b.
Proof.
  split.
  - intros H E. apply streq_eq in E. congruence.
  - intros H. destruct (streq a b) eqn:E; [|reflexivity].
    apply streq_eq in E. contradiction.
Qed.

Section HtmlLoop.
Variables baseTokens currentTokens : list HtmlDiff.token.
Variable dp : table.
Local Abbreviation n := (length baseTokens).
Local Abbreviation m := (length currentTokens).
Local Abbreviation tokb := (fun st => at_ HtmlDiff.no_token baseTokens (bt_i st)).
Local Abbreviation tokc := (fun st => at_ HtmlDiff.no_token currentTokens (bt_j st)).

Lemma html_body_modify st :
  bt_i st < n -> bt_j st < m ->
  HtmlDiff.content (tokb st) <> HtmlDiff.content (tokc st) ->
  HtmlDiff.isAttributeModification (tokb st) (tokc st) = true ->
  HtmlDiff.diff_body baseTokens currentTokens dp st
  = Some (push st (modify, HtmlDiff.content (tokc st))
               (bt_i st + 1) (bt_j st + 1)).
Proof.
  intros Hi Hj Hne Hmod. unfold HtmlDiff.diff_body. cbv zeta.
  apply Nat.ltb_lt in Hi, Hj. apply streq_neq in Hne.
  now rewrite Hi, Hj, Hne, Hmod.
Qed.

Lemma html_body_tie_break st :
  bt_i st < n -> bt_j st < m ->
  HtmlDiff.content (tokb st) <> HtmlDiff.content (tokc st) ->
  HtmlDiff.isAttributeModification (tokb st) (tokc st) = false ->
  HtmlDiff.diff_body baseTokens currentTokens dp st
  = Some (if to_insert_side dp (bt_i st) (bt_j st)
          then push st (add, HtmlDiff.content (tokc st)) (bt_i st) (bt_j st + 1)
          else push st (delete, HtmlDiff.content (tokb st)) (bt_i st + 1) (bt_j st)).
Proof.
  intros Hi Hj Hne Hmod. unfold HtmlDiff.diff_body, to_insert_side. cbv zeta.
  assert (Hn : (bt_i st =? n) = false) by (apply Nat.eqb_neq; lia).
  apply Nat.ltb_lt in Hi, Hj. apply streq_neq in Hne.
  rewrite Hi, Hj, Hne, Hmod, Hn. simpl.
  now destruct (_ <=? _).
Qed.
End HtmlLoop.

Lemma merged_body_tie_break A B dp st :
  bt_i st < length A -> bt_j st < length B ->
  at_ [] A (bt_i st) <> at_ [] B (bt_j st) ->
  MergedView.diff_body A B dp st
  = Some (if to_insert_side dp (bt_i st) (bt_j st)
          then push st (insert, at_ [] B (bt_j st)) (bt_i st) (bt_j st + 1)
          else push st (delete, at_ [] A (bt_i st)) (bt_i st + 1) (bt_j st)).
Proof.
  intros Hi Hj Hne. unfold MergedView.diff_body, to_insert_side. cbv zeta.
  assert (Hn : (bt_i st =? length A) = false) by (apply Nat.eqb_neq; lia).
  apply Nat.ltb_lt in Hi, Hj. apply streq_neq in Hne.
  rewrite Hi, Hj, Hne, Hn. simpl.
  now destruct (_ <=? _).
Qed.

Lemma html_range_step bs cs dp st :
  range_inv (length bs) (length cs) st ->
  HtmlDiff.diff_cond bs cs st = true ->
  exists st', HtmlDiff.diff_body bs cs dp st = Some st'
              /\ range_inv (length bs) (length cs) st'
              /\ bt_mu (length bs) (length cs) st' < bt_mu (length bs) (length cs) st.
Proof.
  unfold range_inv, bt_mu, HtmlDiff.diff_cond, HtmlDiff.diff_body.
  intros [Hi Hj] Hc. cbv zeta.
  destruct (bt_i st <? length bs) eqn:Ei; destruct (bt_j st <? length cs) eqn:Ej;
    simpl in *; try discriminate; bools;
    repeat match goal with
           | |- context [if ?b then _ else _] => destruct b eqn:?
           end; bools;
    try (eexists; split; [reflexivity|simpl; lia]);
    exfalso; lia.
Qed.

(** [diffHTMLTokens] returns on every pair of strings. *)
Lemma diffHTMLTokens_total a b :
  exists ops, HtmlDiff.diffHTMLTokens a b = Some ops.
Proof.
  destruct (tokenizeHTML_spec a) as (bs & Ha & _).
  destruct (tokenizeHTML_spec b) as (cs & Hb & _).
  unfold HtmlDiff.diffHTMLTokens, HtmlDiff.align. rewrite Ha, Hb.
  destruct (while_loop_total (range_inv (length bs) (length cs))
              (bt_mu (length bs) (length cs)) _ _
              (@html_range_step bs cs
                 (lcs_table HtmlDiff.same_content HtmlDiff.no_token bs cs))
              (fuel := length bs + length cs) bt0)
    as (st & Hw & _).
  - unfold range_inv; simpl; lia.
  - unfold bt_mu; simpl; lia.
  - fold bt0. rewrite Hw. simpl. eauto.
Qed.

(** ** [merged_view.js] computes the backtracking of the specification *)

Lemma walk_nil_r A : walk A [] = map (pair delete) A.
Proof. now destruct A. Qed.

Lemma walk_cons a A b B :
  walk (a :: A) (b :: B)
  = if streq a b then (equal, a) :: walk A B
    else if lcs_len streq A (b :: B) <=? lcs_len streq (a :: A) B
         then (insert, b) :: walk (a :: A) B
         else (delete, a) :: walk A (b :: B).
Proof. reflexivity. Qed.

Lemma merged_walk_step A B st :
  walk_inv A B st -> MergedView.diff_cond A B st = true ->
  exists st', MergedView.diff_body A B (lcs_table streq [] A B) st = Some st'
              /\ walk_inv A B st'
              /\ bt_mu (length A) (length B) st' < bt_mu (length A) (length B) st.
Proof.
  intros (Hi & Hj & Hw) Hcond. unfold walk_inv, bt_mu.
  unfold MergedView.diff_cond in Hcond.
  destruct (Nat.lt_ge_cases (bt_i st) (length A)) as [Hin|Hin];
    destruct (Nat.lt_ge_cases (bt_j st) (length B)) as [Hjm|Hjm].
  - (* both in range *)
    pose proof (@skipn_cons_nth _ [] A (bt_i st) Hin) as EA.
    pose proof (@skipn_cons_nth _ [] B (bt_j st) Hjm) as EB.
    destruct (streq (at_ [] A (bt_i st)) (at_ [] B (bt_j st))) eqn:Es.
    + unfold MergedView.diff_body. cbv zeta.
      apply Nat.ltb_lt in Hin, Hjm. rewrite Hin, Hjm, Es. simpl.
      apply Nat.ltb_lt in Hin, Hjm.
      eexists; split; [reflexivity|]. simpl. repeat split; try lia.
      rewrite <- Hw, EA, EB, walk_cons. unfold at_ in Es. rewrite Es.
      now rewrite <- app_assoc.
    + rewrite (@merged_body_tie_break A B _ st Hin Hjm)
        by (now apply streq_neq).
      unfold to_insert_side.
      rewrite !(proj2 (lcs_table_correct streq [] A B)) by lia.
      rewrite <- Hw, EA, EB, walk_cons. unfold at_ in Es. rewrite Es.
      rewrite <- EA, <- EB.
      destruct (_ <=? _); eexists; (split; [reflexivity|]); simpl;
        rewrite <- app_assoc; repeat split; try lia; try reflexivity.
  - (* the current tokens are exhausted *)
    assert (Hjeq : bt_j st = length B) by lia.
    pose proof (@skipn_cons_nth _ [] A (bt_i st) Hin) as EA.
    unfold MergedView.diff_body. cbv zeta.
    assert (E1 : (bt_j st <? length B) = false) by (apply Nat.ltb_ge; lia).
    assert (E2 : (bt_i st <? length A) = true) by (now apply Nat.ltb_lt).
    rewrite E1, E2. simpl.
    eexists; split; [reflexivity|]. simpl. repeat split; try lia.
    rewrite <- Hw, Hjeq, skipn_all, !walk_nil_r, EA. simpl.
    now rewrite <- app_assoc.
  - (* the baseline tokens are exhausted *)
    assert (Hieq : bt_i st = length A) by lia.
    pose proof (@skipn_cons_nth _ [] B (bt_j st) Hjm) as EB.
    unfold MergedView.diff_body. cbv zeta.
    assert (E1 : (bt_i st <? length A) = false) by (apply Nat.ltb_ge; lia).
    assert (E2 : (bt_j st <? length B) = true) by (now apply Nat.ltb_lt).
    assert (E3 : (bt_i st =? length A) = true) by (now apply Nat.eqb_eq).
    rewrite E1, E2, E3. simpl.
    eexists; split; [reflexivity|]. simpl. repeat split; try lia.
    rewrite <- Hw, Hieq, skipn_all, EB. simpl.
    now rewrite <- app_assoc.
  - exfalso. apply Nat.ltb_ge in Hin, Hjm. rewrite Hin, Hjm in Hcond.
    discriminate.
Qed.

(** The whole alignment of [merged_view.js] is the backtracking of the
    specification, with the LCS lengths where the source reads its table. *)
Lemma merged_align_walk A B : MergedView.align A B = Some (walk A B).
Proof.
  unfold MergedView.align.
  destruct (while_loop_total (walk_inv A B) (bt_mu (length A) (length B))
              _ _ (@merged_walk_step A B)
              (fuel := length A + length B) bt0)
    as (st & Hw & (Hi & Hj & Hd) & Hcond).
  - unfold walk_inv; simpl. repeat split; lia.
  - unfold bt_mu; simpl. lia.
  - fold bt0. rewrite Hw. simpl. f_equal.
    unfold MergedView.diff_cond in Hcond. bools.
    rewrite <- Hd. rewrite !skipn_all2 by lia. simpl. now rewrite app_nil_r.
Qed.

(** ** The tie-break (C6) and the attribute modification (C7) *)




(** *** The run of [diffHTMLTokens] is the backtracking on the suffixes *)

Lemma html_walk_nil_r A :
  html_walk A [] = map (fun x => (delete, HtmlDiff.content x)) A.
Proof. now destruct A. Qed.

Lemma html_walk_cons a A b B :
  html_walk (a :: A) (b :: B)
  = if HtmlDiff.same_content a b
    then (equal, HtmlDiff.content b) :: html_walk A B
    else if HtmlDiff.isAttributeModification a b
    then (modify, HtmlDiff.content b) :: html_walk A B
    else if lcs_len HtmlDiff.same_content A (b :: B)
            <=? lcs_len HtmlDiff.same_content (a :: A) B
    then (add, HtmlDiff.content b) :: html_walk (a :: A) B
    else (delete, HtmlDiff.content a) :: html_walk A (b :: B).
Proof. reflexivity. Qed.

Lemma html_walk_step bs cs st :
  html_walk_inv bs cs st -> HtmlDiff.diff_cond bs cs st = true ->
  exists st',
    HtmlDiff.diff_body bs cs
      (lcs_table HtmlDiff.same_content HtmlDiff.no_token bs cs) st = Some st'
    /\ html_walk_inv bs cs st'
    /\ bt_mu (length bs) (length cs) st' < bt_mu (length bs) (length cs) st.
Proof.
  intros (Hi & Hj & Hw) Hcond. unfold html_walk_inv, bt_mu.
  unfold HtmlDiff.diff_cond in Hcond.
  destruct (Nat.lt_ge_cases (bt_i st) (length bs)) as [Hin|Hin];
    destruct (Nat.lt_ge_cases (bt_j st) (length cs)) as [Hjm|Hjm].
  - (* both in range *)
    pose proof (@skipn_cons_nth _ HtmlDiff.no_token bs (bt_i st) Hin) as EA.
    pose proof (@skipn_cons_nth _ HtmlDiff.no_token cs (bt_j st) Hjm) as EB.
    destruct (streq (HtmlDiff.content (at_ HtmlDiff.no_token bs (bt_i st)))
                    (HtmlDiff.content (at_ HtmlDiff.no_token cs (bt_j st))))
      eqn:Es.
    + unfold HtmlDiff.diff_body. cbv zeta.
      apply Nat.ltb_lt in Hin, Hjm. rewrite Hin, Hjm, Es. simpl.
      apply Nat.ltb_lt in Hin, Hjm.
      eexists; split; [reflexivity|]. simpl. repeat split; try lia.
      rewrite <- Hw, EA, EB, html_walk_cons.
      unfold HtmlDiff.same_content. unfold at_ in Es. rewrite Es.
      now rewrite <- app_assoc.
    + destruct (HtmlDiff.isAttributeModification
                  (at_ HtmlDiff.no_token bs (bt_i st))
                  (at_ HtmlDiff.no_token cs (bt_j st))) eqn:Em.
      * rewrite (@html_body_modify bs cs _ st Hin Hjm)
          by (try assumption; now apply streq_neq).
        eexists; split; [reflexivity|]. simpl. repeat split; try lia.
        rewrite <- Hw, EA, EB, html_walk_cons.
        unfold HtmlDiff.same_content. unfold at_ in Es, Em. rewrite Es, Em.
        now rewrite <- app_assoc.
      * rewrite (@html_body_tie_break bs cs _ st Hin Hjm)
          by (try assumption; now apply streq_neq).
        unfold to_insert_side.
        rewrite !(proj2 (lcs_table_correct HtmlDiff.same_content
                           HtmlDiff.no_token bs cs)) by lia.
        rewrite <- Hw, EA, EB, html_walk_cons.
        unfold HtmlDiff.same_content. unfold at_ in Es, Em. rewrite Es, Em.
        rewrite <- EA, <- EB.
        destruct (_ <=? _); eexists; (split; [reflexivity|]); simpl;
          rewrite <- app_assoc; repeat split; try lia; try reflexivity.
  - (* the current tokens are exhausted *)
    assert (Hjeq : bt_j st = length cs) by lia.
    pose proof (@skipn_cons_nth _ HtmlDiff.no_token bs (bt_i st) Hin) as EA.
    unfold HtmlDiff.diff_body. cbv zeta.
    assert (E1 : (bt_j st <? length cs) = false) by (apply Nat.ltb_ge; lia).
    assert (E2 : (bt_i st <? length bs) = true) by (now apply Nat.ltb_lt).
    rewrite E1, E2. simpl.
    eexists; split; [reflexivity|]. simpl. repeat split; try lia.
    rewrite <- Hw, Hjeq, skipn_all, !html_walk_nil_r, EA. simpl.
    now rewrite <- app_assoc.
  - (* the baseline tokens are exhausted *)
    assert (Hieq : bt_i st = length bs) by lia.
    pose proof (@skipn_cons_nth _ HtmlDiff.no_token cs (bt_j st) Hjm) as EB.
    unfold HtmlDiff.diff_body. cbv zeta.
    assert (E1 : (bt_i st <? length bs) = false) by (apply Nat.ltb_ge; lia).
    assert (E2 : (bt_j st <? length cs) = true) by (now apply Nat.ltb_lt).
    assert (E3 : (bt_i st =? length bs) = true) by (now apply Nat.eqb_eq).
    rewrite E1, E2, E3. simpl.
    eexists; split; [reflexivity|]. simpl. repeat split; try lia.
    rewrite <- Hw, Hieq, skipn_all, EB. simpl.
    now rewrite <- app_assoc.
  - exfalso. apply Nat.ltb_ge in Hin, Hjm. rewrite Hin, Hjm in Hcond.
    discriminate.
Qed.

(** The whole alignment of [diffHTMLTokens], on any two token arrays. *)
Lemma html_align_walk bs cs : HtmlDiff.align bs cs = Some (html_walk bs cs).
Proof.
  unfold HtmlDiff.align.
  destruct (while_loop_total (html_walk_inv bs cs)
              (bt_mu (length bs) (length cs)) _ _ (@html_walk_step bs cs)
              (fuel := length bs + length cs) bt0)
    as (st & Hw & (Hi & Hj & Hd) & Hcond).
  - unfold html_walk_inv; simpl. repeat split; lia.
  - unfold bt_mu; simpl. lia.
  - fold bt0. rewrite Hw. simpl. f_equal.
    unfold HtmlDiff.diff_cond in Hcond. bools.
    rewrite <- Hd. rewrite !skipn_all2 by lia. simpl. now rewrite app_nil_r.
Qed.

(** Every state the loop goes through has emitted a prefix of the result. *)
Lemma html_steps_inv bs cs : forall k st,
  html_steps bs cs k = Some st -> html_walk_inv bs cs st.
Proof.
  induction k as [|k IH]; intros st; simpl.
  - intros [= <-]. unfold html_walk_inv; simpl. repeat split; lia.
  - destruct (html_steps bs cs k) as [st0|]; [|discriminate].
    destruct (HtmlDiff.diff_cond bs cs st0) eqn:Hc; [|discriminate].
    intros Hb.
    destruct (@html_walk_step bs cs st0 (IH _ eq_refl) Hc) as (st' & Hb' & Hinv & _).
    rewrite Hb in Hb'. now injection Hb' as <-.
Qed.

(** C7: whenever the run of [diffHTMLTokens] stands, after some rounds of
    its loop, at a pair of tokens that are both opening tags ([isTag] and
    not [isClosingTag]) with the same tag name and different content, the
    alignment it returns is what it has emitted so far, then the single
    operation [modify] with the current tag as payload, then the alignment
    of the tokens after the pair on both sides: both indices advance, and
    the pair gives neither a [delete] nor an [add]. *)
Theorem attribute_change_is_one_modify
        (baseTokens currentTokens : list HtmlDiff.token) (k : nat) (st : bt) :
  let b := at_ HtmlDiff.no_token baseTokens (bt_i st) in
  let c := at_ HtmlDiff.no_token currentTokens (bt_j st) in
  html_steps baseTokens currentTokens k = Some st ->
  bt_i st < length baseTokens -> bt_j st < length currentTokens ->
  HtmlDiff.isTag b = true -> HtmlDiff.isTag c = true ->
  HtmlDiff.isClosingTag b = false -> HtmlDiff.isClosingTag c = false ->
  HtmlDiff.tagName b = HtmlDiff.tagName c ->
  HtmlDiff.content b <> HtmlDiff.content c ->
  exists rest,
    HtmlDiff.align (skipn (bt_i st + 1) baseTokens)
                   (skipn (bt_j st + 1) currentTokens) = Some rest
    /\ HtmlDiff.align baseTokens currentTokens
       = Some (bt_diff st ++ (modify, HtmlDiff.content c) :: rest).
Proof.
  intros b c Hrun Hi Hj Hb Hc Hcb Hcc Hname Hne.
  exists (html_walk (skipn (bt_i st + 1) baseTokens)
                    (skipn (bt_j st + 1) currentTokens)).
  split; [apply html_align_walk|].
  rewrite html_align_walk. f_equal.
  destruct (html_steps_inv _ _ _ Hrun) as (_ & _ & <-).
  rewrite (@skipn_cons_nth _ HtmlDiff.no_token baseTokens (bt_i st) Hi).
  rewrite (@skipn_cons_nth _ HtmlDiff.no_token currentTokens (bt_j st) Hj).
  rewrite html_walk_cons. fold (at_ HtmlDiff.no_token baseTokens (bt_i st)).
  fold (at_ HtmlDiff.no_token currentTokens (bt_j st)). fold b c.
  assert (Es : HtmlDiff.same_content b c = false)
    by (unfold HtmlDiff.same_content; now apply streq_neq).
  assert (Em : HtmlDiff.isAttributeModification b c = true).
  { unfold HtmlDiff.isAttributeModification.
    rewrite Hb, Hc, Hcb, Hcc. simpl.
    apply andb_true_iff. split.
    - now apply opt_streq_eq.
    - apply negb_true_iff. now apply streq_neq. }
  now rewrite Es, Em.
Qed.

(** The scenario of the specification after a common opening tag: the run
    has emitted [equal] for the paragraph tag and stands at the two image
    tags. *)
Lemma attribute_change_is_one_modify_witness :
  exists rest,
    HtmlDiff.align
      (skipn 2 [HtmlDiff.mk_token (str "<p>"); HtmlDiff.mk_token img1])
      (skipn 2 [HtmlDiff.mk_token (str "<p>"); HtmlDiff.mk_token img2])
    = Some rest
    /\ HtmlDiff.align
         [HtmlDiff.mk_token (str "<p>"); HtmlDiff.mk_token img1]
         [HtmlDiff.mk_token (str "<p>"); HtmlDiff.mk_token img2]
       = Some ([(equal, str "<p>")] ++ (modify, img2) :: rest).
Proof.
  apply (@attribute_change_is_one_modify
           [HtmlDiff.mk_token (str "<p>"); HtmlDiff.mk_token img1]
           [HtmlDiff.mk_token (str "<p>"); HtmlDiff.mk_token img2] 1
           {| bt_i := 1; bt_j := 1; bt_diff := [(equal, str "<p>")] |});
    simpl; try lia; try reflexivity.
  discriminate.
Defined.

Example diffHTMLTokens_img :
  HtmlDiff.diffHTMLTokens img1 img2 = Some [(modify, img2)].
Proof. reflexivity. Qed.

(** ** The side-by-side renderers *)

Import CompareView.

(** An invariant of the four steps is an invariant of both loops, whichever
    way the loop of [compare_view.js] ends. *)
Lemma render_loop_inv (all : list op) (I : panes -> Prop) :
  (forall st v w, In (delete, v) all -> In (insert, w) all ->
                  I st -> I (step_change st v w)) ->
  (forall st v, In (delete, v) all -> I st -> I (step_delete st v)) ->
  (forall st v, In (insert, v) all -> I st -> I (SideBySide.step_insert st v)) ->
  (forall st t v, In (t, v) all -> I st -> I (step_equal st v)) ->
  forall diff st, incl diff all -> I st ->
    I (SideBySide.render_loop diff st)
    /\ I (vars (CompareView.render_loop diff st)).
Proof.
  intros Hc Hd Hi He diff.
  remember (length diff) as k eqn:Hk.
  assert (Hle : length diff <= k) by lia. clear Hk.
  revert diff Hle.
  induction k as [|k IH]; intros diff Hle st Hincl HI.
  - destruct diff; simpl in *; [auto|lia].
  - destruct diff as [|[t v] rest]; [simpl; auto|].
    apply incl_cons_inv in Hincl as [Hin Hrest]. simpl in Hle.
    assert (Heq : I (SideBySide.render_loop rest (step_equal st v))
                  /\ I (vars (render_loop rest (step_equal st v))))
      by (apply IH; [lia|assumption|eauto]).
    destruct t; try exact Heq.
    + (* delete *)
      destruct rest as [|[t' w] rest'].
      * simpl. auto.
      * assert (Hdel : I (SideBySide.render_loop ((t', w) :: rest')
                            (step_delete st v))
                       /\ I (vars (render_loop ((t', w) :: rest')
                                     (step_delete st v))))
          by (apply IH; [simpl in *; lia|assumption|auto]).
        apply incl_cons_inv in Hrest as [Hin' Hrest'].
        destruct t'; try exact Hdel.
        apply (IH rest' ltac:(simpl in *; lia) (step_change st v w)); auto.
    + (* insert *)
      split; [|exact HI].
      apply (IH rest ltac:(lia) (SideBySide.step_insert st v)); auto.
Qed.

(** ** Change identifiers *)

Lemma str_inj a b : str a = str b -> a = b.
Proof.
  unfold str. intros H.
  rewrite <- (string_of_list_ascii_of_string a),
          <- (string_of_list_ascii_of_string b).
  f_equal.
  revert H. generalize (list_ascii_of_string a) (list_ascii_of_string b).
  induction l as [|x l IH]; intros [|y l']; simpl; try discriminate; auto.
  intros [= Hxy Hl]. f_equal; [|auto].
  rewrite <- (ascii_N_embedding x), <- (ascii_N_embedding y). now f_equal.
Qed.

(** The decimal rendering of the counter is injective. *)
Lemma num_inj k k' : num k = num k' -> k = k'.
Proof.
  unfold num. intros H. apply str_inj in H.
  apply (f_equal NilEmpty.uint_of_string) in H.
  rewrite !NilEmpty.usu in H. injection H as H.
  apply (f_equal Nat.of_uint) in H. now rewrite !Unsigned.of_to in H.
Qed.

Lemma del_id_inj k k' : del_id k = del_id k' -> k = k'.
Proof.
  unfold del_id. intros H. apply app_inv_head in H.
  apply app_inv_tail in H. now apply num_inj.
Qed.

Lemma add_id_inj k k' : add_id k = add_id k' -> k = k'.
Proof.
  unfold add_id. intros H. apply app_inv_head in H.
  apply app_inv_tail in H. now apply num_inj.
Qed.

Lemma del_add_neq k k' : del_id k <> add_id k'.
Proof.
  unfold del_id, add_id. intros H. apply app_inv_head in H.
  apply (f_equal (@rev _)) in H. rewrite !rev_app_distr in H.
  discriminate.
Qed.

Lemma change_ids_app cs cs' : change_ids (cs ++ cs') = change_ids cs ++ change_ids cs'.
Proof. apply flat_map_app. Qed.

Lemma ids_ok_in cs x :
  ids_ok cs -> In x (change_ids cs) ->
  exists k, k < length cs /\ (x = del_id k \/ x = add_id k).
Proof.
  intros Hok Hx. unfold change_ids in Hx. apply in_flat_map in Hx as (c & Hc & Hx).
  apply In_nth_error in Hc as (k & Hk).
  exists k. split.
  - apply nth_error_Some. congruence.
  - destruct (Hok k c Hk) as [Hd Ha]. unfold del_id, add_id.
    simpl in Hx. destruct Hx as [<-|[<-|[]]]; auto.
Qed.

(** Pushing the change numbered by the counter keeps the identifiers in
    step with the indices, and fresh. *)
Lemma ids_inv_push st t :
  ids_inv st ->
  ids_inv {| baselineContent := baselineContent st;
             currentContent := currentContent st;
             allChanges := allChanges st
               ++ [{| c_type := t; delId := del_id (changeCounter st);
                      addId := add_id (changeCounter st) |}];
             changeCounter := changeCounter st + 1 |}.
Proof.
  intros (Hlen & Hok & Hnd). unfold ids_inv. simpl.
  rewrite length_app. simpl. split; [lia|]. split.
  - intros k c Hk.
    destruct (Nat.lt_ge_cases k (length (allChanges st))) as [Hlt|Hge].
    + rewrite nth_error_app1 in Hk by assumption. auto.
    + rewrite nth_error_app2 in Hk by assumption.
      destruct (k - length (allChanges st)) as [|d] eqn:Ed.
      * simpl in Hk. injection Hk as <-. simpl.
        replace k with (changeCounter st) by lia. split; reflexivity.
      * simpl in Hk. destruct d; discriminate.
  - rewrite change_ids_app. apply NoDup_app; [assumption| |].
    + simpl. constructor.
      * simpl. intros [H|[]]. symmetry in H. now apply del_add_neq in H.
      * constructor; [intros []|constructor].
    + intros x Hx Hin.
      destruct (@ids_ok_in _ x Hok Hx) as (k & Hk & Hid).
      simpl in Hin.
      destruct Hin as [<-|[<-|[]]]; destruct Hid as [E|E];
        first [apply del_id_inj in E | apply add_id_inj in E
              | apply del_add_neq in E | symmetry in E; apply del_add_neq in E];
        try lia; try contradiction.
Qed.

Lemma ids_inv_render diff :
  ids_inv (SideBySide.render_loop diff panes0)
  /\ ids_inv (vars (CompareView.render_loop diff panes0)).
Proof.
  apply (@render_loop_inv diff ids_inv); intros.
  - now apply (ids_inv_push Cchange).
  - now apply (ids_inv_push Cdelete).
  - now apply (ids_inv_push Cinsert).
  - assumption.
  - apply incl_refl.
  - unfold ids_inv, ids_ok. simpl.
    split; [reflexivity|split; [|constructor]].
    intros [|k0] c0 H0; discriminate.
Qed.

(** ** Change identifiers (C10) *)

(** C10: for every operation sequence, the change at index [k] of
    [allChanges] carries the identifiers [change-k-del] and [change-k-add],
    both of them whatever its type, and the identifiers of one grouping are
    pairwise distinct.  This holds for the second side-by-side viewer and
    for [compare_view.js], there for the changes recorded up to the point
    where its loop ends, normally or not. *)
Theorem change_ids_indexed (diff : list op) :
  let cs := allChanges (SideBySide.render_loop diff panes0) in
  let cs' := allChanges (vars (CompareView.render_loop diff panes0)) in
  (forall k c, nth_error cs k = Some c ->
     delId c = str "change-" ++ num k ++ str "-del"
     /\ addId c = str "change-" ++ num k ++ str "-add")
  /\ NoDup (change_ids cs)
  /\ (forall k c, nth_error cs' k = Some c ->
     delId c = str "change-" ++ num k ++ str "-del"
     /\ addId c = str "change-" ++ num k ++ str "-add")
  /\ NoDup (change_ids cs').
Proof.
  destruct (ids_inv_render diff) as [(_ & H1 & H2) (_ & H3 & H4)].
  cbv zeta. auto.
Qed.

(** ** Escaping *)

Lemma replace_all_app c r a b :
  replace_all c r (a ++ b) = replace_all c r a ++ replace_all c r b.
Proof. apply flat_map_app. Qed.

(** The three chained replacements amount to one pass that turns each of
    the three characters into its entity. *)
Lemma esc_entities s : esc s = flat_map esc_char s.
Proof.
  assert (H : replace_all GT (str "&gt;")
                (replace_all LT (str "&lt;") (replace_all AMP (str "&amp;") s))
              = flat_map esc_char s).
  { induction s as [|x s IH]; [reflexivity|].
    change (replace_all AMP (str "&amp;") (x :: s))
      with ((if N.eqb x AMP then str "&amp;" else [x])
              ++ replace_all AMP (str "&amp;") s).
    rewrite !replace_all_app, IH. simpl. f_equal.
    unfold esc_char. destruct (N.eqb x AMP); [reflexivity|].
    change (replace_all LT (str "&lt;") [x])
      with ((if N.eqb x LT then str "&lt;" else [x]) ++ []).
    rewrite app_nil_r. destruct (N.eqb x LT); [reflexivity|].
    unfold replace_all. simpl. rewrite app_nil_r. reflexivity. }
  destruct s; [reflexivity|exact H].
Qed.

Lemma esc_char_no_angle x :
  forallb (fun c => negb (is_angle c)) (esc_char x) = true.
Proof.
  unfold esc_char.
  destruct (N.eqb x AMP); [reflexivity|].
  destruct (N.eqb x LT) eqn:E1; [reflexivity|].
  destruct (N.eqb x GT) eqn:E2; [reflexivity|].
  simpl. unfold is_angle. now rewrite E1, E2.
Qed.

Lemma esc_no_angle s : forallb (fun c => negb (is_angle c)) (esc s) = true.
Proof.
  rewrite esc_entities. induction s as [|x s IH]; [reflexivity|].
  simpl. rewrite forallb_app, IH, esc_char_no_angle. reflexivity.
Qed.

Lemma escaped_pane_snoc diff s p :
  escaped_pane diff s -> piece diff p -> escaped_pane diff (s ++ p).
Proof.
  intros (ps & Hps & ->) Hp. exists (ps ++ [p]). split.
  - apply Forall_app. auto.
  - rewrite concat_app. simpl. now rewrite app_nil_r.
Qed.

Lemma is_id_del k : is_id (del_id k).
Proof. exists k. auto. Qed.

Lemma is_id_add k : is_id (add_id k).
Proof. exists k. auto. Qed.

Create HintDb panes.
#[local] Hint Resolve is_id_del is_id_add escaped_pane_snoc : panes.
#[local] Hint Constructors piece : panes.
#[local] Hint Unfold is_class : panes.

Lemma panes_escaped_render diff :
  panes_escaped diff (SideBySide.render_loop diff panes0)
  /\ panes_escaped diff (vars (CompareView.render_loop diff panes0)).
Proof.
  apply (@render_loop_inv diff (panes_escaped diff));
    unfold panes_escaped; simpl.
  - intros st v w Hv Hw [Hb Hc]. split; apply escaped_pane_snoc; eauto 6 with panes.
  - intros st v Hv [Hb Hc]. split; apply escaped_pane_snoc; eauto 7 with panes.
  - intros st v Hv [Hb Hc]. split; apply escaped_pane_snoc; eauto 7 with panes.
  - intros st t v Hv [Hb Hc]. split; apply escaped_pane_snoc; eauto with panes.
  - apply incl_refl.
  - split; exists []; split; constructor.
Qed.

(** ** Escaping (C4) *)



(** ** Totality (C3) and conservation (C8) *)

Lemma compare_diffTokens_total a b :
  exists ops, CompareView.diffTokens a b = Some ops.
Proof.
  destruct (merged_tokenize_spec a) as (A & HA & _).
  destruct (merged_tokenize_spec b) as (B & HB & _).
  destruct (compare_align_cover A B) as (ops & Ho & _).
  exists ops. unfold CompareView.diffTokens.
  now rewrite !compare_tokenize_eq, HA, HB.
Qed.

(** The second side-by-side viewer always returns. *)
Lemma sbs_renderSideBySide_total a b :
  exists st, SideBySide.renderSideBySide a b = Some st.
Proof.
  destruct (compare_diffTokens_total a b) as (ops & H).
  unfold SideBySide.renderSideBySide, SideBySide.diffTokens. rewrite H.
  simpl. eauto.
Qed.

Lemma merged_buildMergedHTML_total a b :
  exists html, MergedView.buildMergedHTML a b = Some html.
Proof.
  destruct (merged_tokenize_spec a) as (A & HA & _).
  destruct (merged_tokenize_spec b) as (B & HB & _).
  destruct (merged_align_cover A B) as (ops & Ho & _).
  unfold MergedView.buildMergedHTML, MergedView.diffTokens.
  rewrite HA, HB, Ho. simpl. eauto.
Qed.

(** In [compare_view.js] an [insert] that does not follow a [delete] ends
    the loop with a [ReferenceError], whatever comes after it. *)
Lemma compare_render_lone_insert v rest st :
  CompareView.render_loop ((insert, v) :: rest) st
  = ReferenceError (str "escapedDelValue") st.
Proof. reflexivity. Qed.

(** C3 fails in [compare_view.js]: for the baseline [a] and the current
    string [a b] the alignment ends with a lone [insert], and
    [renderSideBySide] throws a [ReferenceError] instead of returning. *)
Theorem compare_renderSideBySide_throws :
  CompareView.diffTokens (str "a") (str "a b")
  = Some [(equal, str "a"); (insert, str " b")]
  /\ CompareView.renderSideBySide (str "a") (str "a b")
     = Some (ReferenceError (str "escapedDelValue")
               (step_equal panes0 (str "a"))).
Proof. split; reflexivity. Qed.

(** In the second side-by-side viewer the changes account for every
    [delete] and [insert]: a [change] for two of them, any other change for
    one. *)
Lemma sbs_changes_cover : forall diff st,
  list_sum (map covered (allChanges (SideBySide.render_loop diff st)))
  = list_sum (map covered (allChanges st)) + length (filter is_edit diff).
Proof.
  intros diff. remember (length diff) as k eqn:Hk.
  assert (Hle : length diff <= k) by lia. clear Hk. revert diff Hle.
  induction k as [|k IH]; intros diff Hle st.
  - destruct diff; simpl in *; lia.
  - destruct diff as [|[t v] rest]; [simpl; lia|]. simpl in Hle.
    assert (Heq : list_sum (map covered
                    (allChanges (SideBySide.render_loop rest (step_equal st v))))
                  = list_sum (map covered (allChanges st))
                    + length (filter is_edit rest))
      by (rewrite IH by lia; reflexivity).
    destruct t; try exact Heq.
    + (* delete *)
      destruct rest as [|[t' w] rest'].
      * simpl. rewrite map_app, list_sum_app. simpl. lia.
      * assert (Hdel : list_sum (map covered
                         (allChanges (SideBySide.render_loop ((t', w) :: rest')
                                        (step_delete st v))))
                       = list_sum (map covered (allChanges st)) + 1
                         + length (filter is_edit ((t', w) :: rest'))).
        { rewrite IH by (simpl in *; lia). simpl.
          rewrite map_app, list_sum_app. simpl. lia. }
        destruct t'; try (etransitivity; [exact Hdel|simpl; lia]).
        change (SideBySide.render_loop ((delete, v) :: (insert, w) :: rest') st)
          with (SideBySide.render_loop rest' (step_change st v w)).
        rewrite IH by (simpl in *; lia). simpl.
        rewrite map_app, list_sum_app. simpl. lia.
    + (* insert *)
      change (SideBySide.render_loop ((insert, v) :: rest) st)
        with (SideBySide.render_loop rest (SideBySide.step_insert st v)).
      rewrite IH by lia. simpl. rewrite map_app, list_sum_app. simpl. lia.
Qed.

(** C8 fails in [compare_view.js]: on the same input the lone [insert] of
    the alignment is in no change, the loop having thrown before recording
    it, while the second viewer records it. *)
Theorem compare_grouping_loses_insert :
  exists diff,
    CompareView.diffTokens (str "a") (str "a b") = Some diff
    /\ length (filter is_edit diff) = 1
    /\ allChanges (vars (CompareView.render_loop diff panes0)) = []
    /\ map c_type (allChanges (SideBySide.render_loop diff panes0)) = [Cinsert].
Proof.
  exists [(equal, str "a"); (insert, str " b")]. repeat split; reflexivity.
Qed.

(** ** The table holds the lengths of longest common subsequences *)

Lemma subseq_tail T (x : T) s l : subseq (x :: s) l -> subseq s l.
Proof.
  intros H. remember (x :: s) as xs eqn:E. revert x s E.
  induction H as [l|y s' l H IH|y s' l H IH]; intros x s E.
  - discriminate.
  - injection E as -> ->. now apply ss_skip.
  - apply ss_skip. eapply IH. eassumption.
Qed.

Lemma subseq_nil_r T (s : list T) : subseq s [] -> s = [].
Proof. now inversion 1. Qed.

Lemma subseq_length T (s l : list T) : subseq s l -> length s <= length l.
Proof. induction 1; simpl; lia. Qed.

(** No common subsequence is longer than [lcs_len]. *)
Lemma lcs_len_upper : forall A B S,
  subseq S A -> subseq S B -> length S <= lcs_len streq A B.
Proof.
  induction A as [|a A IHA].
  - intros B S HA _. apply subseq_nil_r in HA. subst. simpl. lia.
  - induction B as [|b B IHB]; intros S HA HB.
    + apply subseq_nil_r in HB. subst. simpl. lia.
    + rewrite lcs_len_cons. destruct (streq a b) eqn:Eab.
      * destruct S as [|s S']; [simpl; lia|].
        apply subseq_tail in HA as HA'. apply subseq_tail in HB as HB'.
        assert (subseq S' A).
        { inversion HA; subst; [assumption|now apply subseq_tail in H1]. }
        assert (subseq S' B).
        { inversion HB; subst; [assumption|now apply subseq_tail in H2]. }
        specialize (IHA B S' H H0). simpl. lia.
      * inversion HA as [l E1 E2|x s l Hs E1 E2|x s l Hs E1 E2]; subst.
        -- simpl. lia.
        -- inversion HB as [l E1 E2|x s' l Hs' E1 E2|x s' l Hs' E1 E2]; subst.
           ++ rewrite streq_refl in Eab. discriminate.
           ++ specialize (IHB (a :: s) HA Hs'). lia.
        -- specialize (IHA (b :: B) S Hs HB). lia.
Qed.

(** Some common subsequence has length [lcs_len]. *)
Lemma lcs_len_attained : forall A B,
  exists S, subseq S A /\ subseq S B /\ length S = lcs_len streq A B.
Proof.
  induction A as [|a A IHA].
  - intros B. exists []. repeat split; constructor.
  - induction B as [|b B IHB].
    + exists []. repeat split; constructor.
    + rewrite lcs_len_cons. destruct (streq a b) eqn:Eab.
      * apply streq_eq in Eab. subst b.
        destruct (IHA B) as (S & H1 & H2 & H3).
        exists (a :: S). repeat split; try now constructor. simpl. lia.
      * destruct (Nat.max_spec (lcs_len streq A (b :: B)) (lcs_len streq (a :: A) B))
          as [[_ ->]|[_ ->]].
        -- destruct IHB as (S & H1 & H2 & H3).
           exists S. repeat split; try assumption. now constructor.
        -- destruct (IHA (b :: B)) as (S & H1 & H2 & H3).
           exists S. repeat split; try assumption. now constructor.
Qed.

(** After the fill loops each cell [dp[i][j]] is the length of a longest
    common subsequence of [A[i:]] and [B[j:]]: one of that length exists and
    none is longer. *)
Theorem lcs_table_longest (A B : list jsstring) (i j : nat) :
  i <= length A -> j <= length B ->
  (exists S, subseq S (skipn i A) /\ subseq S (skipn j B)
             /\ length S = dp_get (lcs_table streq [] A B) i j)
  /\ (forall S, subseq S (skipn i A) -> subseq S (skipn j B) ->
                length S <= dp_get (lcs_table streq [] A B) i j).
Proof.
  intros Hi Hj.
  rewrite (proj2 (lcs_table_correct streq [] A B) i j Hi Hj).
  split; [apply lcs_len_attained|intros S; apply lcs_len_upper].
Qed.

Lemma lcs_table_longest_witness :
  (exists S, subseq S [str "a"; str "b"] /\ subseq S [str "b"; str "c"]
             /\ length S
                = dp_get (lcs_table streq [] [str "a"; str "b"] [str "b"; str "c"]) 0 0)
  /\ (forall S, subseq S [str "a"; str "b"] -> subseq S [str "b"; str "c"] ->
                length S
                <= dp_get (lcs_table streq [] [str "a"; str "b"] [str "b"; str "c"]) 0 0).
Proof.
  apply (@lcs_table_longest [str "a"; str "b"] [str "b"; str "c"] 0 0);
    simpl; lia.
Defined.

(** ** The tokens a diff keeps *)

Lemma equal_tokens_app o1 o2 :
  equal_tokens (o1 ++ o2) = equal_tokens o1 ++ equal_tokens o2.
Proof. unfold equal_tokens. now rewrite filter_app, map_app. Qed.

Lemma equal_tokens_inserts l : equal_tokens (map (pair insert) l) = [].
Proof. induction l; simpl; auto. Qed.

Lemma equal_tokens_deletes l : equal_tokens (map (pair delete) l) = [].
Proof. induction l; simpl; auto. Qed.

(** The backtracking keeps a longest common subsequence. *)
Lemma walk_keeps_lcs : forall A B,
  subseq (equal_tokens (walk A B)) A
  /\ subseq (equal_tokens (walk A B)) B
  /\ length (equal_tokens (walk A B)) = lcs_len streq A B.
Proof.
  induction A as [|a A IHA].
  - intros B. simpl. rewrite equal_tokens_inserts. repeat split; constructor.
  - induction B as [|b B IHB].
    + rewrite walk_nil_r, equal_tokens_deletes. repeat split; constructor.
    + rewrite walk_cons, lcs_len_cons. destruct (streq a b) eqn:Eab.
      * apply streq_eq in Eab. subst b.
        destruct (IHA B) as (H1 & H2 & H3).
        change (equal_tokens ((equal, a) :: walk A B))
          with (a :: equal_tokens (walk A B)).
        repeat split; try now constructor. simpl. lia.
      * destruct (lcs_len streq A (b :: B) <=? lcs_len streq (a :: A) B) eqn:El;
          bools.
        -- destruct IHB as (H1 & H2 & H3).
           change (equal_tokens ((insert, b) :: walk (a :: A) B))
             with (equal_tokens (walk (a :: A) B)).
           repeat split; try assumption; [now constructor|lia].
        -- destruct (IHA (b :: B)) as (H1 & H2 & H3).
           change (equal_tokens ((delete, a) :: walk A (b :: B)))
             with (equal_tokens (walk A (b :: B))).
           repeat split; try assumption; [now constructor|lia].
Qed.

(** The tokens that [diffTokens] of [merged_view.js] marks [equal] are a
    longest common subsequence of the two token arrays: they occur in both,
    in order, and no common subsequence is longer. *)
Theorem merged_diff_keeps_lcs (a b : jsstring) :
  exists A B ops,
    MergedView.tokenize a = Some A /\ MergedView.tokenize b = Some B
    /\ MergedView.diffTokens a b = Some ops
    /\ subseq (equal_tokens ops) A /\ subseq (equal_tokens ops) B
    /\ forall S, subseq S A -> subseq S B ->
                 length S <= length (equal_tokens ops).
Proof.
  destruct (merged_tokenize_spec a) as (A & HA & _).
  destruct (merged_tokenize_spec b) as (B & HB & _).
  destruct (walk_keeps_lcs A B) as (H1 & H2 & H3).
  exists A, B, (walk A B). unfold MergedView.diffTokens.
  rewrite HA, HB, merged_align_walk. repeat split; auto.
  intros S HSA HSB. rewrite H3. now apply lcs_len_upper.
Qed.

(** ** [compare_view.js] keeps the same tokens *)

Lemma push_if_kept s o d :
  fst o <> equal -> equal_tokens (CompareView.push_if s o d) = equal_tokens d.
Proof.
  intros Ho. unfold CompareView.push_if. destruct (CompareView.truthy s); [|reflexivity].
  rewrite equal_tokens_app. destruct o as [[] v]; simpl; try contradiction;
    now rewrite app_nil_r.
Qed.

Section CompareKept.
Variables A B : list jsstring.
Local Abbreviation n := (length A).
Local Abbreviation m := (length B).
Local Abbreviation dp := (lcs_table streq [] A B).

Lemma ahead_kept_step i j e :
  ahead_kept A B i j e -> CompareView.ahead_cond A B e = true ->
  exists e', CompareView.ahead_body dp i j e = Some e'
             /\ ahead_kept A B i j e' /\ ahead_mu n m e' < ahead_mu n m e.
Proof.
  intros [Hp Hk] Hc.
  destruct (@ahead_follows A B i j e Hp Hc) as [Hb Hp'].
  eexists; split; [exact Hb|].
  destruct e as [ie je]. simpl in *.
  apply andb_true_iff in Hc as [Hc Hne]. apply andb_true_iff in Hc as [Hin Hjm].
  apply Nat.ltb_lt in Hin, Hjm. apply negb_true_iff in Hne.
  pose proof (@skipn_cons_nth _ [] A ie Hin) as EA.
  pose proof (@skipn_cons_nth _ [] B je Hjm) as EB.
  assert (Hw : equal_tokens (walk (skipn ie A) (skipn je B))
               = equal_tokens
                   (if to_insert_side dp ie je
                    then walk (skipn ie A) (skipn (je + 1) B)
                    else walk (skipn (ie + 1) A) (skipn je B))).
  { unfold to_insert_side.
    rewrite !(proj2 (lcs_table_correct streq [] A B)) by lia.
    rewrite EA at 1. rewrite EB at 1. rewrite walk_cons.
    unfold at_ in Hne. rewrite Hne. rewrite <- EA, <- EB.
    now destruct (_ <=? _). }
  unfold ahead_kept, ahead_mu.
  destruct (to_insert_side dp ie je); simpl in *;
    (split; [split; [exact Hp'|congruence]|lia]).
Qed.

Lemma compare_kept_step st :
  kept_inv A B st -> CompareView.diff_cond A B st = true ->
  exists st', CompareView.diff_body A B dp st = Some st'
              /\ kept_inv A B st' /\ bt_mu n m st' < bt_mu n m st.
Proof.
  intros (Hi & Hj & Hk) Hcond. unfold CompareView.diff_cond in Hcond.
  apply andb_true_iff in Hcond as [Hin Hjm]. apply Nat.ltb_lt in Hin, Hjm.
  pose proof (@skipn_cons_nth _ [] A (bt_i st) Hin) as EA.
  pose proof (@skipn_cons_nth _ [] B (bt_j st) Hjm) as EB.
  unfold CompareView.diff_body, kept_inv, bt_mu. cbv zeta.
  destruct (streq (at_ [] A (bt_i st)) (at_ [] B (bt_j st))) eqn:Es.
  - eexists; split; [reflexivity|]. simpl. repeat split; try lia.
    rewrite <- Hk, EA, EB, walk_cons. unfold at_ in Es. rewrite Es.
    rewrite equal_tokens_app. simpl. now rewrite <- app_assoc.
  - destruct (while_loop_total (ahead_kept A B (bt_i st) (bt_j st)) (ahead_mu n m) _ _
                (@ahead_kept_step (bt_i st) (bt_j st))
                (fuel := n + m) (bt_i st, bt_j st))
      as ([iEnd jEnd] & Hw & [(H1 & H2 & H3 & H4 & _) Hk'] & Hc).
    + split; [|reflexivity]. unfold ahead_path. simpl. repeat split; lia.
    + unfold ahead_mu; simpl; lia.
    + rewrite Hw. eexists; split; [reflexivity|]. simpl in *.
      rewrite !push_if_kept by discriminate.
      assert (Hprog : bt_i st + bt_j st < iEnd + jEnd).
      { destruct (Nat.eq_dec iEnd (bt_i st)) as [->|]; [|lia].
        destruct (Nat.eq_dec jEnd (bt_j st)) as [->|]; [|lia].
        exfalso. apply Nat.ltb_lt in Hin, Hjm.
        rewrite Hin, Hjm, Es in Hc. discriminate. }
      repeat split; try lia. now rewrite Hk'.
Qed.

Lemma compare_tail_kept st :
  kept_inv A B st -> CompareView.diff_cond A B st = false ->
  equal_tokens (CompareView.diff_tail A B st) = equal_tokens (walk A B).
Proof.
  intros (Hi & Hj & Hk) Hcond. rewrite <- Hk.
  assert (Hrest : equal_tokens (walk (skipn (bt_i st) A) (skipn (bt_j st) B)) = []).
  { unfold CompareView.diff_cond in Hcond.
    apply andb_false_iff in Hcond as [H|H]; apply Nat.ltb_ge in H.
    - rewrite (skipn_all2 A) by lia. simpl. apply equal_tokens_inserts.
    - rewrite (skipn_all2 B) by lia. rewrite walk_nil_r.
      apply equal_tokens_deletes. }
  rewrite Hrest, app_nil_r.
  unfold CompareView.diff_tail. cbv zeta.
  destruct (bt_i st <? n); destruct (bt_j st <? m);
    rewrite ?equal_tokens_app; simpl; now rewrite ?app_nil_r.
Qed.
End CompareKept.

Lemma compare_align_kept A B :
  exists ops, CompareView.align A B = Some ops
              /\ equal_tokens ops = equal_tokens (walk A B).
Proof.
  unfold CompareView.align.
  destruct (while_loop_total (kept_inv A B) (bt_mu (length A) (length B))
              _ _ (@compare_kept_step A B)
              (fuel := length A + length B) bt0)
    as (st & Hw & Hinv & Hcond).
  - unfold kept_inv; simpl. repeat split; lia.
  - unfold bt_mu; simpl. lia.
  - fold bt0. rewrite Hw. eexists. split; [reflexivity|].
    now apply compare_tail_kept.
Qed.

(** [diffTokens] of [compare_view.js] marks [equal] exactly the tokens that
    [diffTokens] of [merged_view.js] does, in the same order: coalescing the
    differing blocks changes no decision about what is kept, and the kept
    tokens are a longest common subsequence here too. *)
Theorem compare_diff_keeps_same_tokens (a b : jsstring) :
  exists A B ops ops',
    MergedView.tokenize a = Some A /\ MergedView.tokenize b = Some B
    /\ MergedView.diffTokens a b = Some ops
    /\ CompareView.diffTokens a b = Some ops'
    /\ equal_tokens ops' = equal_tokens ops
    /\ length (equal_tokens ops') = dp_get (lcs_table streq [] A B) 0 0.
Proof.
  destruct (merged_tokenize_spec a) as (A & HA & _).
  destruct (merged_tokenize_spec b) as (B & HB & _).
  destruct (compare_align_kept A B) as (ops' & Ho & Hk).
  exists A, B, (walk A B), ops'.
  unfold MergedView.diffTokens, CompareView.diffTokens.
  rewrite !compare_tokenize_eq, HA, HB, merged_align_walk.
  repeat split; auto.
  rewrite Hk, (proj2 (lcs_table_correct streq [] A B)) by lia.
  apply walk_keeps_lcs.
Qed.

(** ** The two side-by-side renderers compared *)

Lemma compare_render_cases : forall diff st,
  if inserts_paired false diff
  then CompareView.render_loop diff st = Normal (SideBySide.render_loop diff st)
  else exists st', CompareView.render_loop diff st
                   = ReferenceError (str "escapedDelValue") st'.
Proof.
  intros diff. remember (length diff) as k eqn:Hk.
  assert (Hle : length diff <= k) by lia. clear Hk. revert diff Hle.
  induction k as [|k IH]; intros diff Hle st.
  - destruct diff; simpl in *; [reflexivity|lia].
  - destruct diff as [|[t v] rest]; [reflexivity|]. simpl in Hle.
    pose proof (IH rest ltac:(lia) (step_equal st v)) as Heq.
    destruct t; try exact Heq.
    + (* delete *)
      destruct rest as [|[t' w] rest']; [reflexivity|].
      pose proof (IH ((t', w) :: rest') ltac:(simpl in *; lia) (step_delete st v))
        as Hdel.
      pose proof (IH rest' ltac:(simpl in *; lia) (step_change st v w)) as Hch.
      destruct t'; first [exact Hdel | exact Hch].
    + (* insert *)
      simpl. eauto.
Qed.

(** The grouping loop of [compare_view.js] returns normally exactly when
    every [insert] of the operation list directly follows a [delete], and
    then it leaves the panes, the change list and the counter as the loop of
    the second viewer does; otherwise it ends in the [ReferenceError]. *)
Theorem compare_render_returns_iff (diff : list op) (st : panes) :
  (inserts_paired false diff = true
   <-> exists st', CompareView.render_loop diff st = Normal st')
  /\ (forall st', CompareView.render_loop diff st = Normal st' ->
                  st' = SideBySide.render_loop diff st).
Proof.
  pose proof (compare_render_cases diff st) as H.
  destruct (inserts_paired false diff).
  - split; [split; eauto|]. intros st' E. congruence.
  - destruct H as (st0 & H). split; [split|].
    + discriminate.
    + intros (st' & E). congruence.
    + intros st' E. congruence.
Qed.

(** ** Escaping is an injective homomorphism *)

Lemma esc_app (a b : jsstring) : esc (a ++ b) = esc a ++ esc b.
Proof. rewrite !esc_entities. apply flat_map_app. Qed.

(** [esc] goes through concatenation, the empty-string guard included:
    escaping token by token and escaping the whole text give the same. *)
Theorem esc_concat (l : list jsstring) : esc (join l) = join (map esc l).
Proof.
  unfold join. induction l as [|t l IH]; [reflexivity|].
  simpl. now rewrite esc_app, IH.
Qed.

Lemma esc_char_head x : exists c r, esc_char x = c :: r.
Proof.
  unfold esc_char.
  destruct (N.eqb x AMP); [eexists; eexists; reflexivity|].
  destruct (N.eqb x LT); [eexists; eexists; reflexivity|].
  destruct (N.eqb x GT); eexists; eexists; reflexivity.
Qed.

Lemma esc_char_cases x :
  (x = AMP /\ esc_char x = str "&amp;")
  \/ (x = LT /\ esc_char x = str "&lt;")
  \/ (x = GT /\ esc_char x = str "&gt;")
  \/ (x <> AMP /\ x <> LT /\ x <> GT /\ esc_char x = [x]).
Proof.
  unfold esc_char.
  destruct (N.eqb_spec x AMP); [auto|].
  destruct (N.eqb_spec x LT); [auto|].
  destruct (N.eqb_spec x GT); [auto|].
  right; right; right. auto.
Qed.

(** [esc] loses nothing: two strings with the same escaped text are the
    same string. *)
Theorem esc_injective (a b : jsstring) : esc a = esc b -> a = b.
Proof.
  rewrite !esc_entities. revert b.
  induction a as [|x a IH]; intros [|y b] H; simpl in H.
  - reflexivity.
  - destruct (esc_char_head y) as (c & r & E). rewrite E in H. discriminate.
  - destruct (esc_char_head x) as (c & r & E). rewrite E in H. discriminate.
  - destruct (esc_char_cases x) as [[-> Ex]|[[-> Ex]|[[-> Ex]|(N1 & N2 & N3 & Ex)]]];
      destruct (esc_char_cases y) as [[-> Ey]|[[-> Ey]|[[-> Ey]|(M1 & M2 & M3 & Ey)]]];
      rewrite ?Ex, ?Ey in H; simpl in H;
      try (injection H as H; try congruence; f_equal; now apply IH);
      try discriminate;
      try (injection H as H0 H; exfalso; unfold AMP, LT, GT in *; congruence).
    injection H as -> H. f_equal. now apply IH.
Qed.

Lemma esc_injective_witness : str "a<b" = str "a<b".
Proof. apply (@esc_injective (str "a<b") (str "a<b")). reflexivity. Defined.

(** ** A page compared with itself *)

Lemma render_equal_ops toks : forall st,
  SideBySide.render_loop (map (pair equal) toks) st
  = {| baselineContent := baselineContent st ++ esc (join toks);
       currentContent := currentContent st ++ esc (join toks);
       allChanges := allChanges st;
       changeCounter := changeCounter st |}.
Proof.
  induction toks as [|t toks IH]; intros st.
  - simpl. rewrite !app_nil_r. now destruct st.
  - change (SideBySide.render_loop (map (pair equal) (t :: toks)) st)
      with (SideBySide.render_loop (map (pair equal) toks) (step_equal st t)).
    rewrite IH. simpl. unfold join. simpl. fold (join toks).
    now rewrite esc_app, <- !app_assoc.
Qed.

Lemma inserts_paired_equal toks prev :
  inserts_paired prev (map (pair equal) toks) = true.
Proof. revert prev; induction toks; intros prev; simpl; auto. Qed.

(** Comparing a string with itself: both side-by-side viewers return, both
    panes hold the escaped tokens of the string and no change is recorded;
    the merged view is the tokens put end to end, without any [ins] or
    [del] markup. *)
Theorem self_comparison_is_clean (s : jsstring) :
  exists toks,
    MergedView.tokenize s = Some toks
    /\ SideBySide.renderSideBySide s s
       = Some {| baselineContent := esc (join toks);
                 currentContent := esc (join toks);
                 allChanges := []; changeCounter := 0 |}
    /\ CompareView.renderSideBySide s s
       = Some (Normal {| baselineContent := esc (join toks);
                         currentContent := esc (join toks);
                         allChanges := []; changeCounter := 0 |})
    /\ MergedView.buildMergedHTML s s = Some (join toks).
Proof.
  destruct (merged_tokenize_spec s) as (toks & Ht & _).
  exists toks. split; [assumption|].
  unfold SideBySide.renderSideBySide, SideBySide.diffTokens,
    CompareView.renderSideBySide, MergedView.buildMergedHTML,
    MergedView.diffTokens, CompareView.diffTokens.
  rewrite compare_tokenize_eq, Ht, merged_align_ident, compare_align_ident.
  simpl.
  pose proof (compare_render_cases (map (pair equal) toks) panes0) as Hr.
  rewrite inserts_paired_equal in Hr. rewrite Hr, render_equal_ops. simpl.
  repeat split. f_equal.
  unfold MergedView.merge_ops.
  assert (H : forall l acc,
             fold_left (fun html o => html ++ MergedView.merged_piece o)
                       (map (pair equal) l) acc = acc ++ join l).
  { induction l as [|t l IH]; intros acc; simpl.
    - now rewrite app_nil_r.
    - rewrite IH. unfold join. simpl. now rewrite <- app_assoc. }
  apply (H toks []).
Qed.

(** ** Tokens of [tokenizeHTML] *)

Lemma span_fst_all p s : forallb p (fst (span p s)) = true.
Proof.
  induction s as [|c s IH]; simpl; [reflexivity|].
  destruct (p c) eqn:E; [|reflexivity].
  destruct (span p s); simpl in *. now rewrite E.
Qed.

Lemma span_all p s : forallb p s = true -> span p s = (s, []).
Proof.
  induction s as [|c s IH]; simpl; [reflexivity|].
  rewrite andb_true_iff. intros [Hc Hs]. now rewrite Hc, IH.
Qed.

Lemma re_tag_shape s tok rest :
  TokenRe.re_tag s = Some (tok, rest) ->
  exists body, tok = LT :: body ++ [GT] /\ body <> []
               /\ forallb (fun c => negb (N.eqb c GT)) body = true.
Proof.
  destruct s as [|c s1]; simpl; [discriminate|].
  destruct (N.eqb_spec c LT) as [->|]; [|discriminate].
  pose proof (span_fst_all (fun x => negb (N.eqb x GT)) s1) as Hall.
  destruct (span _ s1) as [body s2] eqn:Hs. simpl in Hall.
  destruct body as [|b body]; [discriminate|].
  destruct s2 as [|g s3]; [discriminate|].
  intros [= <- <-].
  assert (Hg : snd (span (fun x => negb (N.eqb x GT)) s1) = g :: s3)
    by now rewrite Hs.
  apply span_snd_head in Hg. apply negb_false_iff, N.eqb_eq in Hg. subst g.
  exists (b :: body). repeat split; [discriminate|assumption].
Qed.

Lemma re_run_shape p s tok rest :
  TokenRe.re_run p s = Some (tok, rest) -> forallb p tok = true /\ tok <> [].
Proof.
  unfold TokenRe.re_run.
  pose proof (span_fst_all p s) as Hall.
  destruct (span p s) as [r s1]. simpl in Hall.
  destruct r; [discriminate|]. intros [= <- <-]. split; [assumption|discriminate].
Qed.

Lemma forallb_false_existsb A (p : A -> bool) l :
  forallb p l = false -> existsb (fun x => negb (p x)) l = true.
Proof.
  induction l as [|x l IH]; simpl; [discriminate|].
  destruct (p x); simpl; auto.
Qed.

(** A match that [trim] leaves non-empty has a code unit that is not
    whitespace. *)
Lemma trim_truthy s :
  CompareView.truthy (HtmlDiff.trim s) = true ->
  existsb (fun c => negb (is_space c)) s = true.
Proof.
  intros H. apply forallb_false_existsb.
  destruct (forallb is_space s) eqn:E; [|reflexivity].
  unfold HtmlDiff.trim in H. rewrite (span_all _ _ E) in H. discriminate.
Qed.

Lemma startsWith_nil s : startsWith s [] = true.
Proof. now destruct s. Qed.

Lemma mk_token_ok tok rest s :
  HtmlDiff.re_html s = Some (tok, rest) ->
  CompareView.truthy (HtmlDiff.trim tok) = true ->
  token_ok (HtmlDiff.mk_token tok).
Proof.
  unfold HtmlDiff.re_html, TokenRe.orelse. intros Hre Htrim.
  destruct (TokenRe.re_tag s) as [[t r]|] eqn:Htag.
  - injection Hre as -> ->.
    destruct (re_tag_shape _ Htag) as (body & -> & Hne & Hall).
    left. exists body. unfold HtmlDiff.mk_token.
    destruct body as [|c body]; [congruence|]. simpl.
    repeat split; auto. now rewrite !startsWith_nil.
  - apply re_run_shape in Hre as [Hall Hne].
    right. unfold HtmlDiff.mk_token. simpl.
    destruct tok as [|c tok]; [congruence|].
    simpl in Hall. apply andb_true_iff in Hall as [Hc Hall].
    apply negb_true_iff in Hc.
    pose proof Hc as Hc'. rewrite N.eqb_sym in Hc'. unfold LT in Hc'.
    simpl in Hc'. simpl. rewrite Hc, Hc'. simpl. rewrite Hall.
    repeat split; auto. now apply (trim_truthy (c :: tok)).
Qed.

Lemma tok_step_tokens st :
  Forall token_ok (snd st) -> HtmlDiff.tok_cond st = true ->
  exists st', HtmlDiff.tok_step st = Some st'
              /\ Forall token_ok (snd st')
              /\ length (fst st') < length (fst st).
Proof.
  destruct st as [rest toks]. intros Hok Hc.
  unfold HtmlDiff.tok_cond in Hc. simpl in *.
  destruct rest as [|c r]; [discriminate|].
  destruct (HtmlDiff.re_html (c :: r)) as [[tok rest']|] eqn:Hre.
  - destruct (re_html_consumes _ Hre) as [Hsplit Htok].
    eexists; split; [reflexivity|]. split.
    + simpl. destruct (CompareView.truthy (HtmlDiff.trim tok)) eqn:Ht; [|assumption].
      apply Forall_app. split; [assumption|].
      constructor; [|constructor]. eapply mk_token_ok; eassumption.
    + cbn [fst]. rewrite Hsplit, length_app.
      destruct tok; [congruence|simpl; lia].
  - eexists; split; [reflexivity|]. simpl. split; [assumption|lia].
Qed.

Lemma tokenizeHTML_ok s :
  exists toks, HtmlDiff.tokenizeHTML s = Some toks /\ Forall token_ok toks.
Proof.
  destruct (while_loop_total (fun st => Forall token_ok (snd st))
              (fun st => length (fst st))
              HtmlDiff.tok_cond HtmlDiff.tok_step tok_step_tokens
              (fuel := length s) (s, []))
    as ([rest toks] & Hw & Hok & _).
  - constructor.
  - simpl. lia.
  - exists toks. split; [exact (f_equal (option_map snd) Hw)|exact Hok].
Qed.

(** Every token of [tokenizeHTML] is a tag ([<], a non-empty body without
    [>], [>]; [isTag] set, [isClosingTag] telling whether the body starts
    with a slash) or a text run without [<] that holds a code unit other
    than whitespace (no flag set, no tag name). *)
Theorem tokenizeHTML_tokens (s : jsstring) :
  exists toks, HtmlDiff.tokenizeHTML s = Some toks /\ Forall token_ok toks.
Proof. exact (tokenizeHTML_ok s). Qed.

(** ** [diffHTMLTokens] accounts for every token *)

Lemma count_type_app t o1 o2 :
  count_type t (o1 ++ o2) = count_type t o1 + count_type t o2.
Proof. unfold count_type. now rewrite filter_app, length_app. Qed.

Lemma calculateStats_counts diff :
  Legend.added (Legend.calculateStats diff) = count_type add diff
  /\ Legend.deleted (Legend.calculateStats diff) = count_type delete diff
  /\ Legend.modified (Legend.calculateStats diff) = count_type modify diff.
Proof.
  unfold Legend.calculateStats.
  assert (H : forall st,
             Legend.added (fold_left Legend.count_op diff st)
             = Legend.added st + count_type add diff
             /\ Legend.deleted (fold_left Legend.count_op diff st)
                = Legend.deleted st + count_type delete diff
             /\ Legend.modified (fold_left Legend.count_op diff st)
                = Legend.modified st + count_type modify diff).
  { induction diff as [|[t v] diff IH]; intros st; simpl.
    - unfold count_type. simpl. lia.
    - destruct (IH (Legend.count_op st (t, v))) as (H1 & H2 & H3).
      rewrite H1, H2, H3. unfold count_type, Legend.count_op.
      destruct t; simpl; lia. }
  apply (H {| Legend.added := 0; Legend.deleted := 0; Legend.modified := 0 |}).
Qed.

Lemma html_count_step bs cs dp st :
  html_count_inv (length bs) (length cs) st ->
  HtmlDiff.diff_cond bs cs st = true ->
  exists st', HtmlDiff.diff_body bs cs dp st = Some st'
              /\ html_count_inv (length bs) (length cs) st'
              /\ bt_mu (length bs) (length cs) st' < bt_mu (length bs) (length cs) st.
Proof.
  unfold html_count_inv, bt_mu, HtmlDiff.diff_cond, HtmlDiff.diff_body.
  intros (Hi & Hj & H1 & H2) Hc. cbv zeta.
  destruct (bt_i st <? length bs) eqn:Ei; destruct (bt_j st <? length cs) eqn:Ej;
    simpl in *; try discriminate; bools;
    repeat match goal with
           | |- context [if ?b then _ else _] => destruct b eqn:?
           end; bools;
    try (eexists; split; [reflexivity|]; simpl;
         rewrite !count_type_app; unfold count_type at 2 4 6 8 10 12; simpl; lia);
    exfalso; lia.
Qed.

Lemma contents_nth toks i :
  nth i (contents toks) [] = HtmlDiff.content (at_ HtmlDiff.no_token toks i).
Proof.
  unfold contents, at_.
  change (@nil N) with (HtmlDiff.content HtmlDiff.no_token).
  apply map_nth.
Qed.

Lemma html_ident_step toks dp st :
  html_ident_inv toks st -> HtmlDiff.diff_cond toks toks st = true ->
  exists st', HtmlDiff.diff_body toks toks dp st = Some st'
              /\ html_ident_inv toks st'
              /\ bt_mu (length toks) (length toks) st'
                 < bt_mu (length toks) (length toks) st.
Proof.
  intros (Hij & Hi & Hd) Hcond. unfold html_ident_inv, bt_mu.
  unfold HtmlDiff.diff_cond in Hcond. rewrite <- Hij, orb_diag in Hcond.
  unfold HtmlDiff.diff_body. cbv zeta.
  rewrite <- Hij, Hcond, streq_refl. simpl.
  apply Nat.ltb_lt in Hcond.
  eexists; (split; [reflexivity|]); simpl.
  assert (Hlen : bt_i st < length (contents toks))
    by (unfold contents; now rewrite length_map).
  rewrite (@firstn_succ _ [] (contents toks) (bt_i st) Hlen), map_app, Hd.
  rewrite contents_nth. repeat split; auto; lia.
Qed.

(** [diffHTMLTokens] returns, and its operations account for every token
    once: the [equal], [modify] and [delete] operations are as many as the
    baseline tokens, the [equal], [modify] and [add] operations as many as
    the current tokens; [calculateStats] counts the last three. *)
Theorem diffHTMLTokens_accounts_tokens (a b : jsstring) :
  exists bs cs ops,
    HtmlDiff.tokenizeHTML a = Some bs /\ HtmlDiff.tokenizeHTML b = Some cs
    /\ HtmlDiff.diffHTMLTokens a b = Some ops
    /\ count_type equal ops + Legend.modified (Legend.calculateStats ops)
       + Legend.deleted (Legend.calculateStats ops) = length bs
    /\ count_type equal ops + Legend.modified (Legend.calculateStats ops)
       + Legend.added (Legend.calculateStats ops) = length cs
    /\ count_type insert ops = 0.
Proof.
  destruct (tokenizeHTML_spec a) as (bs & Ha & _).
  destruct (tokenizeHTML_spec b) as (cs & Hb & _).
  unfold HtmlDiff.diffHTMLTokens, HtmlDiff.align. rewrite Ha, Hb.
  assert (Hstep : forall st,
            html_count_inv (length bs) (length cs) st
            /\ count_type insert (bt_diff st) = 0 ->
            HtmlDiff.diff_cond bs cs st = true ->
            exists st',
              HtmlDiff.diff_body bs cs
                (lcs_table HtmlDiff.same_content HtmlDiff.no_token bs cs) st
              = Some st'
              /\ (html_count_inv (length bs) (length cs) st'
                  /\ count_type insert (bt_diff st') = 0)
              /\ bt_mu (length bs) (length cs) st'
                 < bt_mu (length bs) (length cs) st).
  { intros st [Hinv Hins] Hc.
    destruct (@html_count_step bs cs
                (lcs_table HtmlDiff.same_content HtmlDiff.no_token bs cs) st Hinv Hc)
      as (st' & Hb' & Hinv' & Hmu).
    exists st'. split; [assumption|].
    split; [split; [assumption|]|assumption].
    unfold HtmlDiff.diff_body in Hb'. cbv zeta in Hb'.
    repeat match type of Hb' with
           | context [if ?c then _ else _] => destruct c
           end; injection Hb' as <-; simpl; rewrite ?count_type_app, ?Hins;
      reflexivity. }
  destruct (while_loop_total
              (fun st => html_count_inv (length bs) (length cs) st
                         /\ count_type insert (bt_diff st) = 0)
              (bt_mu (length bs) (length cs)) _ _ Hstep
              (fuel := length bs + length cs) bt0)
    as (st & Hw & ((Hi & Hj & H1 & H2) & H3) & Hcond).
  - split; [|reflexivity]. unfold html_count_inv; simpl. repeat split; lia.
  - unfold bt_mu; simpl. lia.
  - fold bt0. rewrite Hw. exists bs, cs, (bt_diff st). simpl.
    destruct (calculateStats_counts (bt_diff st)) as (E1 & E2 & E3).
    rewrite E1, E2, E3.
    unfold HtmlDiff.diff_cond in Hcond. bools.
    repeat split; try assumption; lia.
Qed.

Lemma html_align_ident toks :
  HtmlDiff.align toks toks = Some (map (pair equal) (contents toks)).
Proof.
  unfold HtmlDiff.align.
  destruct (while_loop_total (html_ident_inv toks)
              (bt_mu (length toks) (length toks)) _ _
              (@html_ident_step toks
                 (lcs_table HtmlDiff.same_content HtmlDiff.no_token toks toks))
              (fuel := length toks + length toks) bt0)
    as (st & Hw & (Hij & Hi & Hd) & Hcond).
  - unfold html_ident_inv; simpl. repeat split; lia.
  - unfold bt_mu; simpl. lia.
  - fold bt0. rewrite Hw. simpl. rewrite Hd. f_equal. f_equal.
    unfold HtmlDiff.diff_cond in Hcond. bools.
    apply firstn_all2. unfold contents. rewrite length_map. lia.
Qed.

(** [diffHTMLTokens] of a string with itself is one [equal] per token, and
    the statistics of the legend are all zero. *)
Theorem diffHTMLTokens_identity (s : jsstring) :
  exists toks,
    HtmlDiff.tokenizeHTML s = Some toks
    /\ HtmlDiff.diffHTMLTokens s s = Some (map (pair equal) (contents toks))
    /\ Legend.calculateStats (map (pair equal) (contents toks))
       = {| Legend.added := 0; Legend.deleted := 0; Legend.modified := 0 |}.
Proof.
  destruct (tokenizeHTML_spec s) as (toks & Ht & _).
  exists toks. split; [assumption|]. split.
  - unfold HtmlDiff.diffHTMLTokens. rewrite Ht. apply html_align_ident.
  - unfold Legend.calculateStats.
    generalize (contents toks). intros l.
    generalize {| Legend.added := 0; Legend.deleted := 0; Legend.modified := 0 |}.
    induction l as [|t l IH]; intros st; simpl; auto.
Qed.

(** ** Navigation *)

Lemma subseq_refl T (l : list T) : subseq l l.
Proof. induction l; constructor; assumption. Qed.

Lemma subseq_filter T (p : T -> bool) l : subseq (filter p l) l.
Proof.
  induction l as [|x l IH]; simpl; [constructor|].
  destruct (p x); constructor; assumption.
Qed.

Lemma subseq_In T (s l : list T) x : subseq s l -> In x s -> In x l.
Proof.
  induction 1 as [l|y s l H IH|y s l H IH]; simpl; intros Hx.
  - contradiction.
  - destruct Hx; auto.
  - auto.
Qed.

Section NavProofs.
Variable xpathMatch : jsstring -> option (change -> bool).
Variable textMatch : jsstring -> change -> bool.
Local Abbreviation handle := (Navigation.handle xpathMatch textMatch).
Local Abbreviation run := (Navigation.run xpathMatch textMatch).

Lemma nav_inv_handle st e :
  nav_inv st ->
  nav_inv (handle st e)
  /\ Navigation.allChanges (handle st e) = Navigation.allChanges st.
Proof.
  intros [Hr Hs]. unfold nav_inv.
  destruct e as [| |value]; simpl.
  - unfold Navigation.prevClick.
    destruct (Z.ltb_spec 0 (Navigation.currentIndex st)); simpl; auto.
    repeat split; auto; lia.
  - unfold Navigation.nextClick.
    destruct (Z.ltb_spec (Navigation.currentIndex st)
                (Z.of_nat (length (Navigation.filteredChanges st)) - 1));
      simpl; auto.
    repeat split; auto; lia.
  - unfold Navigation.filterAndNavigate. cbv zeta.
    destruct (negb _); simpl.
    + repeat split; try lia. apply subseq_refl.
    + destruct (startsWith _ _); [destruct (xpathMatch _)|]; simpl; auto;
        repeat split; try lia; apply subseq_filter.
Qed.

Lemma nav_inv_run evs : forall st,
  nav_inv st ->
  nav_inv (run evs st)
  /\ Navigation.allChanges (run evs st) = Navigation.allChanges st.
Proof.
  induction evs as [|e evs IH]; intros st Hst; simpl; [auto|].
  destruct (nav_inv_handle e Hst) as [H1 H2].
  destruct (IH _ H1) as [H3 H4]. split; [assumption|congruence].
Qed.

(** Whatever the user clicks and types after a rendering, [currentIndex]
    stays between [-1] and the last index of [filteredChanges], which stays
    a sublist of [allChanges] in its order; so [updateNavigation] highlights
    a change of the list exactly when [currentIndex] is not [-1]. *)
Theorem navigation_stays_in_range (cs : list change) (evs : list Navigation.event) :
  let st := run evs (Navigation.rendered cs) in
  (-1 <= Navigation.currentIndex st
   <= Z.of_nat (length (Navigation.filteredChanges st)) - 1)%Z
  /\ subseq (Navigation.filteredChanges st) cs
  /\ Navigation.allChanges st = cs
  /\ (Navigation.currentIndex st = (-1)%Z
      -> Navigation.highlighted (Navigation.updateNavigation st) = None)
  /\ (Navigation.currentIndex st <> (-1)%Z
      -> exists c, Navigation.highlighted (Navigation.updateNavigation st) = Some c
                   /\ In c cs).
Proof.
  intros st.
  assert (H0 : nav_inv (Navigation.rendered cs)).
  { unfold nav_inv, Navigation.rendered. simpl. split; [lia|apply subseq_refl]. }
  destruct (nav_inv_run evs H0) as [[Hr Hs] Hall]. fold st in Hr, Hs, Hall.
  simpl in Hall. rewrite Hall in Hs.
  repeat split; try assumption; try lia.
  - intros E. unfold Navigation.updateNavigation. simpl. now rewrite E.
  - intros E. unfold Navigation.updateNavigation. simpl.
    destruct (Z.leb_spec 0 (Navigation.currentIndex st)); [|lia].
    destruct (Z.ltb_spec (Navigation.currentIndex st)
                (Z.of_nat (length (Navigation.filteredChanges st)))); [|lia].
    simpl.
    destruct (nth_error (Navigation.filteredChanges st)
                (Z.to_nat (Navigation.currentIndex st))) as [c|] eqn:En.
    + exists c. split; [reflexivity|].
      eapply subseq_In; [exact Hs|]. eapply nth_error_In; eassumption.
    + exfalso. apply nth_error_None in En. lia.
Qed.

Lemma ids_ok_delId_inj cs c1 c2 :
  ids_ok cs -> In c1 cs -> In c2 cs -> delId c1 = delId c2 -> c1 = c2.
Proof.
  intros Hok H1 H2 E.
  apply In_nth_error in H1 as (k1 & E1). apply In_nth_error in H2 as (k2 & E2).
  destruct (Hok _ _ E1) as [D1 _]. destruct (Hok _ _ E2) as [D2 _].
  assert (k1 = k2) by (apply del_id_inj; unfold del_id; congruence).
  subst. congruence.
Qed.

(** After any clicks and searches on the changes of a rendering,
    [updateDisplayForFilter] shows a change exactly when it is in
    [filteredChanges]: comparing [delId] alone is enough because the
    identifiers of one rendering are distinct. *)
Theorem display_follows_filter (diff : list op) (evs : list Navigation.event)
        (c : change) :
  let cs := allChanges (SideBySide.render_loop diff panes0) in
  let st := run evs (Navigation.rendered cs) in
  In c cs ->
  (Navigation.isFiltered st c = true <-> In c (Navigation.filteredChanges st)).
Proof.
  intros cs st Hc.
  assert (H0 : nav_inv (Navigation.rendered cs)).
  { unfold nav_inv, Navigation.rendered. simpl. split; [lia|apply subseq_refl]. }
  destruct (nav_inv_run evs H0) as [[_ Hs] Hall]. fold st in Hs, Hall.
  simpl in Hall. rewrite Hall in Hs.
  destruct (ids_inv_render diff) as [(_ & Hok & _) _]. fold cs in Hok.
  unfold Navigation.isFiltered. rewrite existsb_exists. split.
  - intros (fc & Hfc & E). apply streq_eq in E.
    assert (fc = c).
    { eapply ids_ok_delId_inj; eauto. eapply subseq_In; eauto. }
    now subst.
  - intros H. exists c. split; [assumption|apply streq_refl].
Qed.
End NavProofs.

Lemma display_follows_filter_witness :
  let cs := allChanges (SideBySide.render_loop [(insert, str "x")] panes0) in
  let c := {| c_type := Cinsert; delId := del_id 0; addId := add_id 0 |} in
  let st := Navigation.run (fun _ => None) (fun _ _ => false)
              [Navigation.Search (str "y")] (Navigation.rendered cs) in
  Navigation.isFiltered st c = true <-> In c (Navigation.filteredChanges st).
Proof.
  apply (@display_follows_filter (fun _ => None) (fun _ _ => false)
           [(insert, str "x")] [Navigation.Search (str "y")]).
  simpl. left. reflexivity.
Defined.

(** A button is disabled by [updateNavigation] exactly when its click
    handler would leave [currentIndex] as it is. *)
Theorem buttons_disabled_iff_idle (st : Navigation.nav) :
  (Navigation.prevDisabled (Navigation.updateNavigation st) = true
   <-> Navigation.currentIndex (Navigation.prevClick st) = Navigation.currentIndex st)
  /\ (Navigation.nextDisabled (Navigation.updateNavigation st) = true
   <-> Navigation.currentIndex (Navigation.nextClick st) = Navigation.currentIndex st).
Proof.
  unfold Navigation.updateNavigation, Navigation.prevClick, Navigation.nextClick.
  simpl. split.
  - destruct (Z.ltb_spec 0 (Navigation.currentIndex st));
      destruct (Z.leb_spec (Navigation.currentIndex st) 0); simpl;
      split; intros; try lia; try reflexivity; try discriminate.
  - destruct (Z.ltb_spec (Navigation.currentIndex st)
                (Z.of_nat (length (Navigation.filteredChanges st)) - 1));
      destruct (Z.leb_spec (Z.of_nat (length (Navigation.filteredChanges st)) - 1)
                  (Navigation.currentIndex st)); simpl;
      split; intros; try lia; try reflexivity; try discriminate.
Qed.

(** ** What the alignments never emit *)

Lemma nth_nonempty (A : list jsstring) i :
  Forall nonempty A -> i < length A -> nth i A [] <> [].
Proof.
  intros HA Hi. rewrite Forall_forall in HA. apply HA. now apply nth_In.
Qed.

Lemma join_skipn_nonempty (A : list jsstring) i :
  Forall nonempty A -> i < length A -> join (slice_from A i) <> [].
Proof.
  intros HA Hi. unfold slice_from, join.
  rewrite (@skipn_cons_nth _ [] A i Hi). simpl.
  pose proof (nth_nonempty HA Hi) as Hn.
  destruct (nth i A []); [congruence|discriminate].
Qed.

Lemma push_if_plain s t d :
  t = delete \/ t = insert ->
  Forall plain_op d -> Forall plain_op (CompareView.push_if s (t, s) d).
Proof.
  intros Ht Hd. unfold CompareView.push_if.
  destruct s as [|c s]; simpl; [assumption|].
  apply Forall_app. split; [assumption|].
  constructor; [|constructor]. split; simpl; [tauto|discriminate].
Qed.

Lemma map_pair_plain t (A : list jsstring) :
  t = equal \/ t = delete \/ t = insert ->
  Forall nonempty A -> Forall plain_op (map (pair t) A).
Proof.
  intros Ht HA. induction HA as [|x l Hx _ IH]; simpl; constructor; auto.
  split; simpl; auto.
Qed.

Lemma walk_plain : forall A B,
  Forall nonempty A -> Forall nonempty B -> Forall plain_op (walk A B).
Proof.
  induction A as [|a A IHA].
  - intros B _ HB. simpl. apply map_pair_plain; auto.
  - intros B HA. pose proof HA as HA'. inversion HA' as [|? ? Ha HA0]; subst.
    induction B as [|b B IHB]; intros HB.
    + rewrite walk_nil_r. apply map_pair_plain; auto.
    + inversion HB as [|? ? Hb HB0]; subst.
      rewrite walk_cons.
      destruct (streq a b); [|destruct (_ <=? _)];
        constructor; auto; split; simpl; auto.
Qed.

Lemma compare_plain_step A B dp st :
  Forall nonempty A -> Forall nonempty B ->
  plain_inv A B st -> CompareView.diff_cond A B st = true ->
  exists st', CompareView.diff_body A B dp st = Some st'
              /\ plain_inv A B st'
              /\ bt_mu (length A) (length B) st' < bt_mu (length A) (length B) st.
Proof.
  intros HA HB (Hi & Hj & Hp) Hcond. unfold plain_inv, bt_mu.
  destruct (@compare_body_cases A B dp st Hcond)
    as [(Heq & ->)|(iEnd & jEnd & Hr1 & Hr2 & Hprog & ->)];
    unfold CompareView.diff_cond in Hcond; bools;
    eexists; (split; [reflexivity|]); simpl.
  - repeat split; try lia. apply Forall_app. split; [assumption|].
    constructor; [|constructor]. split; simpl; [auto|].
    now apply nth_nonempty.
  - repeat split; try lia. apply push_if_plain; [auto|].
    apply push_if_plain; auto.
Qed.

Lemma compare_align_plain A B :
  Forall nonempty A -> Forall nonempty B ->
  exists ops, CompareView.align A B = Some ops /\ Forall plain_op ops.
Proof.
  intros HA HB. unfold CompareView.align.
  destruct (while_loop_total (plain_inv A B) (bt_mu (length A) (length B))
              _ _ (fun st => @compare_plain_step A B
                               (lcs_table streq [] A B) st HA HB)
              (fuel := length A + length B) bt0)
    as (st & Hw & (Hi & Hj & Hp) & Hcond).
  - unfold plain_inv; simpl. repeat split; try lia. constructor.
  - unfold bt_mu; simpl. lia.
  - fold bt0. rewrite Hw. eexists. split; [reflexivity|].
    unfold CompareView.diff_tail. cbv zeta.
    assert (H1 : Forall plain_op
                   (if bt_i st <? length A
                    then bt_diff st ++ [(delete, join (slice_from A (bt_i st)))]
                    else bt_diff st)).
    { destruct (bt_i st <? length A) eqn:E; [|assumption]. bools.
      apply Forall_app. split; [assumption|].
      constructor; [|constructor]. split; simpl; [auto|].
      now apply join_skipn_nonempty. }
    destruct (bt_j st <? length B) eqn:E; [|assumption]. bools.
    apply Forall_app. split; [assumption|].
    constructor; [|constructor]. split; simpl; [auto|].
    now apply join_skipn_nonempty.
Qed.

(** [diffTokens] emits only [equal], [delete] and [insert] operations and
    never one with an empty payload, in [merged_view.js] and in
    [compare_view.js]. *)
Theorem diffTokens_ops_plain (a b : jsstring) :
  exists ops ops',
    MergedView.diffTokens a b = Some ops
    /\ CompareView.diffTokens a b = Some ops'
    /\ Forall plain_op ops /\ Forall plain_op ops'.
Proof.
  destruct (merged_tokenize_spec a) as (A & HA & _ & HAne).
  destruct (merged_tokenize_spec b) as (B & HB & _ & HBne).
  destruct (compare_align_plain HAne HBne) as (ops' & Ho & Hp).
  exists (walk A B), ops'.
  unfold MergedView.diffTokens, CompareView.diffTokens.
  rewrite !compare_tokenize_eq, HA, HB, merged_align_walk.
  repeat split; auto. now apply walk_plain.
Qed.

(** In the second side-by-side viewer [renderSideBySide] returns for every
    pair of strings, and its changes account for every operation of the
    alignment that is not [equal]: counted two for a [change] and one for
    any other change, they are as many as those operations. *)
Theorem sbs_changes_account_for_edits (a b : jsstring) :
  exists ops st,
    SideBySide.diffTokens a b = Some ops
    /\ SideBySide.renderSideBySide a b = Some st
    /\ list_sum (map covered (allChanges st))
       = length (filter (fun o => negb (is_type equal o)) ops).
Proof.
  destruct (merged_tokenize_spec a) as (A & HA & _ & HAne).
  destruct (merged_tokenize_spec b) as (B & HB & _ & HBne).
  destruct (compare_align_plain HAne HBne) as (ops & Ho & Hp).
  exists ops, (SideBySide.render_loop ops panes0).
  unfold SideBySide.renderSideBySide, SideBySide.diffTokens, CompareView.diffTokens.
  rewrite !compare_tokenize_eq, HA, HB, Ho. repeat split.
  rewrite sbs_changes_cover. simpl. f_equal.
  clear Ho. induction Hp as [|[t v] ops [[E|[E|E]] _] _ IH];
    simpl in *; subst; simpl; now rewrite ?IH.
Qed.

(** ** The attribute-modification test *)

Lemma streq_sym a b : streq a b = streq b a.
Proof.
  destruct (streq a b) eqn:E1; destruct (streq b a) eqn:E2; try reflexivity.
  - apply streq_eq in E1. subst. now rewrite streq_refl in E2.
  - apply streq_eq in E2. subst. now rewrite streq_refl in E1.
Qed.

(** [isAttributeModification] is symmetric and never holds of a token and
    itself. *)
Theorem isAttributeModification_symmetric (t u : HtmlDiff.token) :
  HtmlDiff.isAttributeModification t u = HtmlDiff.isAttributeModification u t
  /\ HtmlDiff.isAttributeModification t t = false.
Proof.
  unfold HtmlDiff.isAttributeModification. split.
  - rewrite (streq_sym (HtmlDiff.content t)).
    assert (E : HtmlDiff.opt_streq (HtmlDiff.tagName t) (HtmlDiff.tagName u)
                = HtmlDiff.opt_streq (HtmlDiff.tagName u) (HtmlDiff.tagName t)).
    { destruct (HtmlDiff.tagName t), (HtmlDiff.tagName u); simpl; auto.
      apply streq_sym. }
    rewrite E.
    destruct (HtmlDiff.isTag t), (HtmlDiff.isTag u),
      (HtmlDiff.isClosingTag t), (HtmlDiff.isClosingTag u); reflexivity.
  - rewrite streq_refl. simpl. rewrite andb_false_r.
    now destruct (_ || _).
Qed.

(** ** Tag names *)

Lemma toLowerCase_word c :
  is_word c = true ->
  is_lower_word (if between 65 90 c then (c + 32)%N else c) = true.
Proof.
  unfold is_lower_word, is_word, between. intros H.
  repeat match goal with
         | |- context [N.leb ?a ?b] => destruct (N.leb_spec a b)
         | H : context [N.leb ?a ?b] |- _ => destruct (N.leb_spec a b)
         | |- context [N.eqb ?a ?b] => destruct (N.eqb_spec a b)
         | H : context [N.eqb ?a ?b] |- _ => destruct (N.eqb_spec a b)
         end; simpl in *; try reflexivity; try discriminate; lia.
Qed.

Lemma re_tagname_word s w :
  HtmlDiff.re_tagname s = Some w -> w <> [] /\ forallb is_word w = true.
Proof.
  induction s as [|c s IH]; simpl.
  - discriminate.
  - destruct (N.eqb c LT).
    + match goal with
      | |- context [span is_word ?x] =>
          pose proof (span_fst_all is_word x) as Hall;
          destruct (fst (span is_word x)) as [|d r] eqn:E
      end.
      * exact IH.
      * intros [= <-]. split; [discriminate|assumption].
    + exact IH.
Qed.

(** [getTagName] returns [null] or a non-empty name made of lower-case
    letters, digits and underscores. *)
Theorem getTagName_lower_word (tag w : jsstring) :
  HtmlDiff.getTagName tag = Some w ->
  w <> [] /\ forallb is_lower_word w = true.
Proof.
  unfold HtmlDiff.getTagName.
  destruct (HtmlDiff.re_tagname tag) as [w0|] eqn:E; [|discriminate].
  intros [= <-]. apply re_tagname_word in E as [Hne Hall].
  unfold HtmlDiff.toLowerCase. split.
  - destruct w0; [congruence|discriminate].
  - rewrite forallb_forall in *. intros x Hx.
    apply in_map_iff in Hx as (c & <- & Hc).
    apply toLowerCase_word. auto.
Qed.

Lemma getTagName_lower_word_witness :
  str "div" <> [] /\ forallb is_lower_word (str "div") = true.
Proof.
  apply (@getTagName_lower_word (str "</DIV>") (str "div")). reflexivity.
Defined.

(** ** Highlighting: [addClassToTag] *)

Lemma no_gt_app a b : no_gt (a ++ b) <-> no_gt a /\ no_gt b.
Proof. unfold no_gt. now rewrite forallb_app, andb_true_iff. Qed.

Lemma no_gt_cons c s : no_gt (c :: s) <-> c <> GT /\ no_gt s.
Proof.
  unfold no_gt. simpl.
  now rewrite andb_true_iff, negb_true_iff, N.eqb_neq.
Qed.

Lemma endsWith_app x p : Highlight.endsWith (x ++ p) p = true.
Proof.
  unfold Highlight.endsWith. rewrite length_app.
  replace (length x + length p - length p) with (length x + 0) by lia.
  rewrite skipn_app, skipn_all2, Nat.add_0_r by lia.
  replace (length x - length x) with 0 by lia. simpl.
  rewrite streq_refl, andb_true_r. apply Nat.leb_le. lia.
Qed.

Lemma endsWith_split s p : Highlight.endsWith s p = true -> exists x, s = x ++ p.
Proof.
  unfold Highlight.endsWith. rewrite andb_true_iff. intros [_ H].
  apply streq_eq in H. exists (firstn (length s - length p) s).
  set (k := length s - length p) in *.
  rewrite <- H. symmetry. apply firstn_skipn.
Qed.

Lemma lastIndexOf_gt x pos last :
  Highlight.lastIndexOf_from (x ++ [GT]) [GT] pos last
  = (pos + Z.of_nat (length x))%Z.
Proof.
  revert pos last. induction x as [|c x IH]; intros pos last.
  - simpl. lia.
  - change ((c :: x) ++ [GT]) with (c :: (x ++ [GT])).
    cbn [Highlight.lastIndexOf_from]. rewrite IH.
    cbn [length]. lia.
Qed.

Lemma lastIndexOf_slash_gt x pos last :
  Highlight.lastIndexOf_from (x ++ [SLASH; GT]) [SLASH; GT] pos last
  = (pos + Z.of_nat (length x))%Z.
Proof.
  revert pos last. induction x as [|c x IH]; intros pos last.
  - simpl. lia.
  - change ((c :: x) ++ [SLASH; GT]) with (c :: (x ++ [SLASH; GT])).
    cbn [Highlight.lastIndexOf_from]. rewrite IH.
    cbn [length]. lia.
Qed.

Lemma slice0_app x y : Highlight.slice0 (x ++ y) (Z.of_nat (length x)) = x.
Proof.
  unfold Highlight.slice0. rewrite length_app.
  destruct (Z.ltb_spec (Z.of_nat (length x)) 0); [lia|].
  rewrite Z.min_l by lia. rewrite Nat2Z.id.
  rewrite firstn_app, firstn_all, Nat.sub_diag. simpl. apply app_nil_r.
Qed.

(** What [addClassToTag] cuts off a tag. *)
Lemma tag_without_end body :
  (Highlight.endsWith (LT :: body ++ [GT]) (str "/>") = true
   /\ exists w, body = w ++ [SLASH]
                /\ Highlight.slice0 (LT :: body ++ [GT])
                     (Highlight.lastIndexOf (LT :: body ++ [GT]) (str "/>"))
                   = LT :: w)
  \/ (Highlight.endsWith (LT :: body ++ [GT]) (str "/>") = false
      /\ Highlight.slice0 (LT :: body ++ [GT])
           (Highlight.lastIndexOf (LT :: body ++ [GT]) (str ">"))
         = LT :: body).
Proof.
  destruct (Highlight.endsWith (LT :: body ++ [GT]) (str "/>")) eqn:E.
  - left. split; [reflexivity|].
    apply endsWith_split in E as [x Hx].
    change (str "/>") with ([SLASH] ++ [GT]) in Hx.
    rewrite app_assoc in Hx.
    change (LT :: body ++ [GT]) with ((LT :: body) ++ [GT]) in Hx.
    apply app_inj_tail in Hx as [Hx _].
    destruct x as [|c x]; [discriminate|].
    injection Hx as <- ->. exists x. split; [reflexivity|].
    replace (LT :: (x ++ [SLASH]) ++ [GT]) with ((LT :: x) ++ [SLASH; GT])
      by (simpl; now rewrite <- app_assoc).
    unfold Highlight.lastIndexOf.
    change (str "/>") with [SLASH; GT].
    rewrite lastIndexOf_slash_gt. apply slice0_app.
  - right. split; [reflexivity|].
    change (LT :: body ++ [GT]) with ((LT :: body) ++ [GT]).
    unfold Highlight.lastIndexOf. change (str ">") with [GT].
    rewrite lastIndexOf_gt. apply slice0_app.
Qed.

Lemma re_class_at_split s m v rest :
  Highlight.re_class_at s = Some (m, v, rest) ->
  s = m ++ rest /\ exists p q q', m = p ++ q :: v ++ [q'].
Proof.
  unfold Highlight.re_class_at.
  destruct (Highlight.ci_startsWith s (str "class=")); [|discriminate].
  destruct (skipn 6 s) as [|q r] eqn:Es; [discriminate|].
  destruct (is_quote q); [|discriminate].
  destruct (span (fun c => negb (is_quote c)) r) as [v0 r'] eqn:Esp.
  destruct r' as [|q' rest0]; [discriminate|].
  intros [= <- <- <-]. apply span_eq in Esp.
  split; [|now exists (firstn 6 s), q, q'].
  rewrite <- (firstn_skipn 6 s) at 1. rewrite Es, Esp.
  rewrite <- !app_assoc. simpl. now rewrite <- app_assoc.
Qed.

Lemma re_class_split : forall s before b m v a,
  Highlight.re_class before s = Some (b, m, v, a) ->
  exists x, b = before ++ x /\ s = x ++ m ++ a
            /\ exists p q q', m = p ++ q :: v ++ [q'].
Proof.
  induction s as [|c s IH]; intros before b m v a; cbn [Highlight.re_class].
  - destruct (Highlight.re_class_at []) as [[[m0 v0] r0]|] eqn:E; [|discriminate].
    intros [= <- <- <- <-]. apply re_class_at_split in E as [E1 E2].
    exists []. rewrite app_nil_r. auto.
  - destruct (Highlight.re_class_at (c :: s)) as [[[m0 v0] r0]|] eqn:E.
    + intros [= <- <- <- <-]. apply re_class_at_split in E as [E1 E2].
      exists []. rewrite app_nil_r. auto.
    + intros H. apply IH in H as (x & -> & -> & Hm).
      exists (c :: x). rewrite <- app_assoc. auto.
Qed.

Lemma getSubstitution_no_gt m b a v :
  no_gt m -> no_gt b -> no_gt a -> no_gt v ->
  forall tpl, no_gt tpl -> no_gt (Highlight.getSubstitution m b a v tpl).
Proof.
  intros Hm Hb Ha Hv.
  assert (H : forall n tpl, length tpl <= n -> no_gt tpl ->
                            no_gt (Highlight.getSubstitution m b a v tpl)).
  { induction n as [|n IH]; intros tpl Hlen Ht.
    - destruct tpl; [reflexivity|simpl in Hlen; lia].
    - destruct tpl as [|c t]; [reflexivity|].
      apply no_gt_cons in Ht as [Hc Ht]. simpl in Hlen.
      assert (IHt : no_gt (Highlight.getSubstitution m b a v t))
        by (apply IH; [lia|assumption]).
      cbn [Highlight.getSubstitution].
      destruct (negb (c =? Highlight.DOLLAR)%N).
      { apply no_gt_cons. auto. }
      destruct t as [|d t'].
      { apply no_gt_cons. split; [assumption|reflexivity]. }
      pose proof Ht as Ht0.
      apply no_gt_cons in Ht as [Hd Ht']. simpl in Hlen.
      assert (IHt' : no_gt (Highlight.getSubstitution m b a v t'))
        by (apply IH; [lia|assumption]).
      assert (Hlit : no_gt (c :: Highlight.getSubstitution m b a v (d :: t')))
        by (apply no_gt_cons; auto).
      destruct (d =? Highlight.DOLLAR)%N.
      { apply no_gt_cons. split; [discriminate|assumption]. }
      destruct (d =? AMP)%N; [apply no_gt_app; auto|].
      destruct (d =? Highlight.BACKTICK)%N; [apply no_gt_app; auto|].
      destruct (d =? SQ)%N; [apply no_gt_app; auto|].
      destruct (d =? 49)%N; [apply no_gt_app; auto|].
      destruct (d =? 48)%N; [|assumption].
      destruct t' as [|e t'']; [assumption|].
      destruct (e =? 49)%N; [|assumption].
      apply no_gt_cons in Ht' as [_ Ht'']. simpl in Hlen.
      apply no_gt_app. split; [assumption|]. apply IH; [lia|assumption]. }
  intros tpl. apply (H (length tpl)). lia.
Qed.

(** The tag rebuilt by [addClassToTag], before [data-diff-id] is appended:
    it still starts with [<] and holds no [>]. *)
Lemma new_tag_shape w className :
  no_gt w -> no_gt className ->
  exists r,
    no_gt r
    /\ match Highlight.re_class [] (LT :: w) with
       | Some (before, matched, existingClasses, after) =>
           before
           ++ Highlight.getSubstitution matched before after existingClasses
                (str "class=" ++ [DQ] ++ existingClasses ++ str " "
                 ++ className ++ [DQ])
           ++ after
       | None => (LT :: w) ++ str " class=" ++ [DQ] ++ className ++ [DQ]
       end = LT :: r.
Proof.
  intros Hw Hc.
  change (Highlight.re_class [] (LT :: w)) with (Highlight.re_class [LT] w).
  destruct (Highlight.re_class [LT] w) as [[[[b m] v] a]|] eqn:E.
  - apply re_class_split in E as (x & -> & -> & p & q & q' & ->).
    apply no_gt_app in Hw as [Hx Hw]. apply no_gt_app in Hw as [Hm Ha].
    pose proof Hm as Hm0.
    apply no_gt_app in Hm as [Hp Hm]. apply no_gt_cons in Hm as [Hq Hm].
    apply no_gt_app in Hm as [Hv Hq'].
    exists (x ++ Highlight.getSubstitution (p ++ q :: v ++ [q']) ([LT] ++ x) a v
                   (str "class=" ++ [DQ] ++ v ++ str " " ++ className ++ [DQ])
              ++ a).
    split; [|reflexivity].
    apply no_gt_app. split; [assumption|].
    apply no_gt_app. split; [|assumption].
    apply getSubstitution_no_gt; auto.
    apply no_gt_app. split; [reflexivity|].
    apply no_gt_cons. split; [discriminate|].
    apply no_gt_app. split; [exact Hv|].
    apply no_gt_app. split; [reflexivity|].
    apply no_gt_app. split; [assumption|reflexivity].
  - exists (w ++ str " class=" ++ [DQ] ++ className ++ [DQ]).
    split; [|reflexivity].
    apply no_gt_app. split; [assumption|].
    apply no_gt_app. split; [reflexivity|].
    apply no_gt_cons. split; [discriminate|].
    apply no_gt_app. split; [assumption|reflexivity].
Qed.

Lemma endsWith_quote_gt x :
  Highlight.endsWith (x ++ [DQ; GT]) (str "/>") = false.
Proof.
  destruct (Highlight.endsWith (x ++ [DQ; GT]) (str "/>")) eqn:E; [|reflexivity].
  apply endsWith_split in E as [y Hy].
  change (str "/>") with ([SLASH] ++ [GT]) in Hy.
  change [DQ; GT] with ([DQ] ++ [GT]) in Hy.
  rewrite !app_assoc in Hy.
  apply app_inj_tail in Hy as [Hy _].
  apply app_inj_tail in Hy as [_ Hy]. discriminate.
Qed.

Lemma addClassToTag_parts tag className dataId :
  Highlight.addClassToTag tag className dataId
  = let tagEnd := if Highlight.endsWith tag (str "/>")
                  then str "/>" else str ">" in
    let tagWithoutEnd :=
      Highlight.slice0 tag (Highlight.lastIndexOf tag tagEnd) in
    match Highlight.re_class [] tagWithoutEnd with
    | Some (before, matched, existingClasses, after) =>
        before
        ++ Highlight.getSubstitution matched before after existingClasses
             (str "class=" ++ [DQ] ++ existingClasses ++ str " "
              ++ className ++ [DQ])
        ++ after
    | None => tagWithoutEnd ++ str " class=" ++ [DQ] ++ className ++ [DQ]
    end
    ++ str " data-diff-id=" ++ [DQ] ++ dataId ++ [DQ] ++ tagEnd.
Proof.
  unfold Highlight.addClassToTag. cbv zeta.
  destruct (Highlight.re_class _ _) as [[[[b m] v] a]|];
    repeat rewrite <- app_assoc; reflexivity.
Qed.

(** [addClassToTag] turns a tag into one tag: given [<], a body without
    [>], [>], and a class name and an identifier without [>], the result is
    again [<], a body without [>], [>], and it ends in [/>] exactly when
    the given tag does. *)
Theorem addClassToTag_keeps_one_tag (body className dataId : jsstring) :
  no_gt body -> no_gt className -> no_gt dataId ->
  exists body',
    Highlight.addClassToTag (LT :: body ++ [GT]) className dataId
    = LT :: body' ++ [GT]
    /\ no_gt body'
    /\ Highlight.endsWith (LT :: body' ++ [GT]) (str "/>")
       = Highlight.endsWith (LT :: body ++ [GT]) (str "/>").
Proof.
  intros Hb Hc Hd. rewrite addClassToTag_parts. cbv zeta.
  destruct (tag_without_end body) as [(E & w & -> & Hs)|(E & Hs)];
    rewrite E in *; rewrite Hs.
  - apply no_gt_app in Hb as [Hw _].
    destruct (new_tag_shape Hw Hc) as (r & Hr & ->).
    exists (r ++ str " data-diff-id=" ++ [DQ] ++ dataId ++ [DQ] ++ [SLASH]).
    split; [|split].
    + change (str "/>") with ([SLASH] ++ [GT]).
      app_norm. reflexivity.
    + apply no_gt_app. split; [assumption|].
      apply no_gt_app. split; [reflexivity|].
      apply no_gt_cons. split; [discriminate|].
      apply no_gt_app. split; [assumption|reflexivity].
    + replace (LT :: (r ++ str " data-diff-id=" ++ [DQ] ++ dataId ++ [DQ] ++ [SLASH])
                     ++ [GT])
        with ((LT :: r ++ str " data-diff-id=" ++ [DQ] ++ dataId ++ [DQ])
              ++ str "/>").
      * apply endsWith_app.
      * change (str "/>") with ([SLASH] ++ [GT]).
        app_norm. reflexivity.
  - destruct (new_tag_shape Hb Hc) as (r & Hr & ->).
    exists (r ++ str " data-diff-id=" ++ [DQ] ++ dataId ++ [DQ]).
    split; [|split].
    + change (str ">") with [GT].
      app_norm. reflexivity.
    + apply no_gt_app. split; [assumption|].
      apply no_gt_app. split; [reflexivity|].
      apply no_gt_cons. split; [discriminate|].
      apply no_gt_app. split; [assumption|reflexivity].
    + replace (LT :: (r ++ str " data-diff-id=" ++ [DQ] ++ dataId ++ [DQ]) ++ [GT])
        with ((LT :: r ++ str " data-diff-id=" ++ [DQ] ++ dataId) ++ [DQ; GT]).
      * apply endsWith_quote_gt.
      * app_norm. reflexivity.
Qed.

Lemma addClassToTag_keeps_one_tag_witness :
  exists body',
    Highlight.addClassToTag (LT :: str "br class='a'/" ++ [GT])
      (str "diff-added") (Highlight.change_id 0)
    = LT :: body' ++ [GT]
    /\ no_gt body'
    /\ Highlight.endsWith (LT :: body' ++ [GT]) (str "/>")
       = Highlight.endsWith (LT :: str "br class='a'/" ++ [GT]) (str "/>").
Proof.
  apply (@addClassToTag_keeps_one_tag (str "br class='a'/") (str "diff-added")
           (Highlight.change_id 0)); reflexivity.
Defined.

(** ** Highlighting: what [diffHTMLTokens] hands to [applyDiffHighlighting] *)

Lemma token_ok_opening b c :
  token_ok c -> HtmlDiff.isAttributeModification b c = true ->
  Highlight.is_opening (HtmlDiff.content c) = true.
Proof.
  unfold HtmlDiff.isAttributeModification.
  intros [(body & Hc & Hne & _ & Htag & Hclose & _)|(_ & _ & Htag & _)] H.
  - assert (Hcl : HtmlDiff.isClosingTag c = false).
    { destruct (HtmlDiff.isClosingTag c); [|reflexivity].
      rewrite !orb_true_r in H. discriminate. }
    rewrite Hclose in Hcl. unfold Highlight.is_opening. rewrite Hc.
    destruct body as [|d body]; [congruence|].
    change (str "<") with [LT]. change (str "</") with [LT; SLASH].
    cbn [startsWith app] in Hcl |- *.
    rewrite startsWith_nil, andb_true_r in Hcl.
    now rewrite N.eqb_refl, Hcl, !startsWith_nil.
  - rewrite Htag in H. simpl in H. rewrite orb_true_r in H. discriminate.
Qed.

Lemma html_body_ops bs cs dp st st' :
  Forall token_ok cs ->
  HtmlDiff.diff_body bs cs dp st = Some st' ->
  Forall html_op (bt_diff st) -> Forall html_op (bt_diff st').
Proof.
  intros Hcs Hb Hd. unfold HtmlDiff.diff_body in Hb. cbv zeta in Hb.
  assert (Hpush : forall t v i j,
             t <> insert ->
             (t = modify -> Highlight.is_opening v = true) ->
             Forall html_op (bt_diff (push st (t, v) i j))).
  { intros t v i j H1 H2. simpl. apply Forall_app. split; [assumption|].
    constructor; [|constructor]. split; assumption. }
  case_if_in Hb E1.
  { injection Hb as <-. apply Hpush; discriminate. }
  case_if_in Hb Em.
  { injection Hb as <-. apply Hpush; [discriminate|]. intros _.
    apply andb_true_iff in Em as [Em Hmod].
    apply andb_true_iff in Em as [_ Hj]. apply Nat.ltb_lt in Hj.
    eapply token_ok_opening; [|exact Hmod].
    rewrite Forall_forall in Hcs. apply Hcs. unfold at_. now apply nth_In. }
  case_if_in Hb E3.
  { injection Hb as <-. apply Hpush; discriminate. }
  case_if_in Hb E4.
  { injection Hb as <-. apply Hpush; discriminate. }
  now injection Hb as <-.
Qed.

Lemma html_align_ops bs cs :
  Forall token_ok cs ->
  exists ops, HtmlDiff.align bs cs = Some ops /\ Forall html_op ops.
Proof.
  intros Hcs. unfold HtmlDiff.align.
  assert (Hstep : forall st,
            range_inv (length bs) (length cs) st
            /\ Forall html_op (bt_diff st) ->
            HtmlDiff.diff_cond bs cs st = true ->
            exists st',
              HtmlDiff.diff_body bs cs
                (lcs_table HtmlDiff.same_content HtmlDiff.no_token bs cs) st
              = Some st'
              /\ (range_inv (length bs) (length cs) st'
                  /\ Forall html_op (bt_diff st'))
              /\ bt_mu (length bs) (length cs) st'
                 < bt_mu (length bs) (length cs) st).
  { intros st [Hr Hd] Hc.
    destruct (@html_range_step bs cs
                (lcs_table HtmlDiff.same_content HtmlDiff.no_token bs cs) st Hr Hc)
      as (st' & Hb & Hr' & Hmu).
    exists st'. split; [assumption|].
    split; [split; [assumption|]|assumption].
    eapply html_body_ops; eassumption. }
  destruct (while_loop_total
              (fun st => range_inv (length bs) (length cs) st
                         /\ Forall html_op (bt_diff st))
              (bt_mu (length bs) (length cs)) _ _ Hstep
              (fuel := length bs + length cs) bt0)
    as (st & Hw & (_ & Hd) & _).
  - split; [|constructor]. unfold range_inv; simpl. lia.
  - unfold bt_mu; simpl. lia.
  - fold bt0. rewrite Hw. now exists (bt_diff st).
Qed.

(** A [modify] operation of [diffHTMLTokens] always carries an opening tag:
    its payload starts with [<] and not with [</], so that
    [applyDiffHighlighting] marks it through [addClassToTag]. *)
Theorem modify_carries_opening_tag (a b : jsstring) :
  exists ops,
    HtmlDiff.diffHTMLTokens a b = Some ops
    /\ forall v, In (modify, v) ops ->
         startsWith v (str "<") = true /\ startsWith v (str "</") = false.
Proof.
  destruct (tokenizeHTML_ok a) as (bs & Ha & _).
  destruct (tokenizeHTML_ok b) as (cs & Hb & Hcs).
  destruct (html_align_ops bs Hcs) as (ops & Ho & Hops).
  exists ops. unfold HtmlDiff.diffHTMLTokens. rewrite Ha, Hb.
  split; [assumption|]. intros v Hin.
  rewrite Forall_forall in Hops. destruct (Hops _ Hin) as [_ H].
  specialize (H eq_refl). unfold Highlight.is_opening in H. simpl in H.
  apply andb_true_iff in H as [H1 H2]. apply negb_true_iff in H2.
  split; assumption.
Qed.

Lemma count_type_cons t o ops :
  count_type t (o :: ops) = (if is_type t o then 1 else 0) + count_type t ops.
Proof. unfold count_type. simpl. now destruct (is_type t o). Qed.

Lemma highlight_op_mark h k o :
  html_op o ->
  snd (Highlight.highlight_op (h, k) o) + (if unmarked_closing o then 1 else 0)
  = k + (if is_type add o then 1 else 0) + (if is_type delete o then 1 else 0)
    + (if is_type modify o then 1 else 0).
Proof.
  destruct o as [t v]. intros [Hins Hmod]. simpl in Hins, Hmod.
  unfold Highlight.highlight_op, unmarked_closing, is_type. cbn [fst snd].
  destruct t; try congruence.
  - simpl. lia.
  - unfold Highlight.is_opening.
    destruct (startsWith v (str "<")); destruct (startsWith v (str "</"));
      simpl; lia.
  - unfold Highlight.is_opening.
    destruct (startsWith v (str "<")); destruct (startsWith v (str "</"));
      simpl; lia.
  - rewrite (Hmod eq_refl). simpl. lia.
Qed.

Lemma highlight_marks : forall ops st,
  Forall html_op ops ->
  snd (fold_left Highlight.highlight_op ops st)
  + length (filter unmarked_closing ops)
  = snd st + count_type add ops + count_type delete ops
    + count_type modify ops.
Proof.
  induction ops as [|o ops IH]; intros [h k] Hops.
  - simpl. unfold count_type. simpl. lia.
  - inversion Hops as [|? ? Ho Hops']; subst.
    cbn [fold_left]. specialize (IH (Highlight.highlight_op (h, k) o) Hops').
    pose proof (@highlight_op_mark h k o Ho) as Hstep.
    rewrite !count_type_cons. cbn [filter snd].
    destruct (unmarked_closing o); cbn [length]; lia.
Qed.

(** On the operations of [diffHTMLTokens], [applyDiffHighlighting] hands
    out one [diff-change] identifier per added, deleted or modified token,
    except for the added and deleted closing tags, which it copies without
    a mark: the identifiers used and those closing tags together are the
    total of the counts of [calculateStats]. *)
Theorem highlighted_changes_and_legend (a b : jsstring) :
  exists ops,
    HtmlDiff.diffHTMLTokens a b = Some ops
    /\ snd (Highlight.highlight_loop ops)
       + length (filter unmarked_closing ops)
       = Legend.added (Legend.calculateStats ops)
         + Legend.deleted (Legend.calculateStats ops)
         + Legend.modified (Legend.calculateStats ops).
Proof.
  destruct (tokenizeHTML_ok a) as (bs & Ha & _).
  destruct (tokenizeHTML_ok b) as (cs & Hb & Hcs).
  destruct (html_align_ops bs Hcs) as (ops & Ho & Hops).
  exists ops. unfold HtmlDiff.diffHTMLTokens. rewrite Ha, Hb.
  split; [assumption|].
  destruct (calculateStats_counts ops) as (E1 & E2 & E3).
  rewrite E1, E2, E3. unfold Highlight.highlight_loop.
  rewrite (highlight_marks _ Hops). simpl. lia.
Qed.

Lemma highlight_equal : forall l st,
  fold_left Highlight.highlight_op (map (pair equal) l) st
  = (fst st ++ join l, snd st).
Proof.
  induction l as [|x l IH]; intros [h k]; simpl.
  - now rewrite app_nil_r.
  - rewrite IH. simpl. now rewrite <- app_assoc.
Qed.

(** A page compared with itself is rendered without a mark:
    [applyDiffHighlighting] of [diffHTMLTokens(s, s)] is the tokens of [s]
    joined, which is [s] less the whitespace-only runs and the stray [<]
    that [tokenizeHTML] drops. *)
Theorem unchanged_page_is_unmarked (s : jsstring) :
  exists toks ops,
    HtmlDiff.tokenizeHTML s = Some toks
    /\ HtmlDiff.diffHTMLTokens s s = Some ops
    /\ Highlight.applyDiffHighlighting ops = join (contents toks)
    /\ erase_only is_lt_or_space s (Highlight.applyDiffHighlighting ops).
Proof.
  destruct (tokenizeHTML_spec s) as (toks & Ht & He).
  exists toks, (map (pair equal) (contents toks)).
  unfold HtmlDiff.diffHTMLTokens. rewrite Ht, html_align_ident.
  unfold Highlight.applyDiffHighlighting, Highlight.highlight_loop.
  rewrite highlight_equal. simpl. repeat split. exact He.
Qed.

(** ** What the tokenizers read (C1) *)

Lemma span_run p t rest :
  forallb p t = true -> starts_with p rest = false ->
  span p (t ++ rest) = (t, rest).
Proof.
  intros Ht Hr. induction t as [|c t IH]; simpl in *.
  - destruct rest as [|d rest]; [reflexivity|]. simpl in Hr |- *.
    now rewrite Hr.
  - apply andb_true_iff in Ht as [Hc Ht]. now rewrite Hc, IH.
Qed.

Lemma span_rest_stops p s : starts_with p (snd (span p s)) = false.
Proof.
  destruct (snd (span p s)) as [|c r] eqn:E; [reflexivity|].
  simpl. now apply span_snd_head in E.
Qed.

(** A maximal run is determined by the string it starts. *)
Lemma run_unique p t rest t' rest' :
  forallb p t = true -> starts_with p rest = false ->
  forallb p t' = true -> starts_with p rest' = false ->
  t ++ rest = t' ++ rest' -> t = t' /\ rest = rest'.
Proof.
  intros Ht Hr Ht' Hr' E.
  pose proof (@span_run p t rest Ht Hr) as E1.
  pose proof (@span_run p t' rest' Ht' Hr') as E2.
  rewrite E, E2 in E1. now injection E1 as -> ->.
Qed.

Lemma kept_app a b : kept (a ++ b) = kept a ++ kept b.
Proof.
  induction a as [|[t|t] a IH]; simpl; [reflexivity| |assumption].
  now rewrite IH.
Qed.

Lemma re_tag_none s : TokenRe.re_tag s = None -> ~ tag_at s.
Proof.
  intros H (body & rest & -> & Hne & Hgt). simpl in H.
  rewrite (@span_run (fun x => negb (N.eqb x GT)) body (GT :: rest)) in H
    by (assumption || reflexivity).
  destruct body; [congruence|discriminate].
Qed.

Lemma re_tag_some s tok rest :
  TokenRe.re_tag s = Some (tok, rest) ->
  exists body, s = LT :: body ++ GT :: rest /\ tok = LT :: body ++ [GT]
               /\ body <> [] /\ no_gt body.
Proof.
  intros H. destruct (re_tag_shape _ H) as (body & -> & Hne & Hall).
  apply re_tag_consumes in H as [-> _].
  exists body. repeat split; try assumption.
  simpl. now rewrite <- app_assoc.
Qed.

Lemma re_attr_value_none s : TokenRe.re_attr_value s = None -> ~ attr_at s.
Proof.
  intros H (q & v & q' & rest & -> & Hq & Hq' & Hv). simpl in H.
  rewrite Hq in H.
  rewrite (@span_run (fun x => negb (is_quote x)) v (q' :: rest)) in H;
    [discriminate|assumption|simpl; now rewrite Hq'].
Qed.

Lemma re_attr_value_some s tok rest :
  TokenRe.re_attr_value s = Some (tok, rest) ->
  exists q v q',
    s = EQ :: q :: v ++ q' :: rest /\ tok = EQ :: q :: v ++ [q']
    /\ is_quote q = true /\ is_quote q' = true /\ no_quote v.
Proof.
  destruct s as [|e [|q s2]]; simpl; try discriminate.
  destruct (N.eqb_spec e EQ) as [->|]; [|discriminate]. simpl.
  destruct (is_quote q) eqn:Hq; [|discriminate].
  pose proof (span_fst_all (fun x => negb (is_quote x)) s2) as Hall.
  pose proof (span_rest_stops (fun x => negb (is_quote x)) s2) as Hstop.
  destruct (span _ s2) as [body s3] eqn:Hs. apply span_eq in Hs.
  simpl in Hall, Hstop.
  destruct s3 as [|q2 s4]; [discriminate|].
  intros [= <- <-]. simpl in Hstop. apply negb_false_iff in Hstop.
  exists q, body, q2. subst s2. auto.
Qed.

(** A match of the token expression is a piece of the cut. *)
Lemma re_lex s tok rest segs :
  TokenRe.re s = Some (tok, rest) -> lexes rest segs ->
  lexes s (Kept tok :: segs).
Proof.
  unfold TokenRe.re, TokenRe.orelse. intros H Hrest.
  destruct (TokenRe.re_tag s) as [[t r]|] eqn:Htag.
  { injection H as <- <-.
    apply re_tag_some in Htag as (body & -> & -> & Hne & Hgt).
    now apply lex_tag. }
  destruct (TokenRe.re_word s) as [[t r]|] eqn:Hword.
  { injection H as <- <-. unfold TokenRe.re_word in Hword.
    pose proof (span_fst_all is_word s) as Hall.
    pose proof (span_rest_stops is_word s) as Hstop.
    destruct (span is_word s) as [w s1] eqn:Hs. apply span_eq in Hs.
    simpl in Hall, Hstop. subst s.
    destruct w as [|c w]; [discriminate|].
    destruct (TokenRe.re_attr_value s1) as [[v s2]|] eqn:Hv.
    - injection Hword as <- <-.
      apply re_attr_value_some in Hv
        as (q & v0 & q' & -> & -> & Hq & Hq' & Hv0).
      apply lex_word_attr; auto. discriminate.
    - injection Hword as <- <-.
      apply lex_word; auto; [discriminate|now apply re_attr_value_none]. }
  destruct (TokenRe.re_run is_space s) as [[t r]|] eqn:Hsp.
  { injection H as <- <-. unfold TokenRe.re_run in Hsp.
    pose proof (span_fst_all is_space s) as Hall.
    pose proof (span_rest_stops is_space s) as Hstop.
    destruct (span is_space s) as [w s1] eqn:Hs. apply span_eq in Hs.
    simpl in Hall, Hstop. subst s.
    destruct w as [|c w]; [discriminate|]. injection Hsp as <- <-.
    apply lex_space; auto. discriminate. }
  unfold TokenRe.re_run in H.
  pose proof (span_fst_all TokenRe.is_punct s) as Hall.
  pose proof (span_rest_stops TokenRe.is_punct s) as Hstop.
  destruct (span TokenRe.is_punct s) as [w s1] eqn:Hs. apply span_eq in Hs.
  simpl in Hall, Hstop. subst s.
  destruct w as [|c w]; [discriminate|]. injection H as <- <-.
  apply lex_punct; auto. discriminate.
Qed.

(** A position where the token expression matches nothing is a stray angle
    bracket. *)
Lemma re_none_lex c r segs :
  TokenRe.re (c :: r) = None -> lexes r segs ->
  lexes (c :: r) (Lost [c] :: segs).
Proof.
  intros H Hr. pose proof (re_none_angle _ _ H) as Ha.
  unfold TokenRe.re in H. apply orelse_none in H as [Htag _].
  unfold is_angle in Ha. apply orb_true_iff in Ha as [Ha|Ha];
    apply N.eqb_eq in Ha; subst c.
  - apply lex_stray_lt; [now apply re_tag_none|assumption].
  - now apply lex_stray_gt.
Qed.

Section MatchLex.
Variable re : jsstring -> option (jsstring * jsstring).
Variable R : jsstring -> list seg -> Prop.
Hypothesis re_cons : consumes re.
Hypothesis R_end : R [] [].
Hypothesis R_some : forall s tok rest segs,
  re s = Some (tok, rest) -> R rest segs -> R s (Kept tok :: segs).
Hypothesis R_none : forall c r segs,
  re (c :: r) = None -> R r segs -> R (c :: r) (Lost [c] :: segs).

Let Inv (s : jsstring) (st : jsstring * list jsstring) : Prop :=
  exists done, snd st = kept done
               /\ forall tl, R (fst st) tl -> R s (done ++ tl).

Lemma match_step_lex s st :
  Inv s st -> match_cond st = true ->
  exists st', match_step re st = Some st' /\ Inv s st'
              /\ length (fst st') < length (fst st).
Proof.
  destruct st as [rest toks]. intros (done & Hk & Hd) Hc.
  unfold match_cond in Hc. simpl in *.
  destruct rest as [|c r]; [discriminate|].
  destruct (re (c :: r)) as [[tok rest']|] eqn:Hre.
  - destruct (re_cons Hre) as [Hsplit Htok].
    eexists; split; [reflexivity|]. split.
    + exists (done ++ [Kept tok]). simpl. split.
      * rewrite kept_app, Hk. reflexivity.
      * intros tl Htl. rewrite <- app_assoc. apply Hd. simpl. eauto.
    + cbn [fst]. rewrite Hsplit, length_app.
      destruct tok; [congruence|simpl; lia].
  - eexists; split; [reflexivity|]. split.
    + exists (done ++ [Lost [c]]). simpl. split.
      * rewrite kept_app, Hk. simpl. now rewrite app_nil_r.
      * intros tl Htl. rewrite <- app_assoc. apply Hd. simpl. eauto.
    + simpl. lia.
Qed.

(** [str.match(re)] returns the tokens of a cut of its input. *)
Lemma match_all_lex s :
  exists segs, match_all re s = Some (kept segs) /\ R s segs.
Proof.
  destruct (@while_loop_total _ (Inv s) (fun st => length (fst st))
              match_cond (match_step re) (@match_step_lex s)
              (length s) (s, []))
    as ([rest toks] & Hw & (done & Hk & Hd) & Hc).
  - exists []. simpl. split; [reflexivity|]. auto.
  - simpl. lia.
  - exists done. unfold match_all. rewrite Hw. simpl in *.
    unfold match_cond in Hc. simpl in Hc.
    destruct rest; [|discriminate].
    split; [now rewrite Hk|]. rewrite <- (app_nil_r done). auto.
Qed.
End MatchLex.

Lemma tokenize_lexes s :
  exists segs, MergedView.tokenize s = Some (kept segs) /\ lexes s segs.
Proof.
  apply match_all_lex;
    [apply re_consumes|constructor|apply re_lex|apply re_none_lex].
Qed.

(** A tag is never emptied by [trim]. *)
Lemma trim_tag_truthy body :
  CompareView.truthy (HtmlDiff.trim (LT :: body)) = true.
Proof.
  destruct (CompareView.truthy (HtmlDiff.trim (LT :: body))) eqn:E;
    [reflexivity|].
  apply trim_falsy in E. discriminate.
Qed.

Lemma tok_step_lex s st :
  (exists done, snd st = map HtmlDiff.mk_token (kept done)
                /\ forall tl, lexes_html (fst st) tl -> lexes_html s (done ++ tl)) ->
  HtmlDiff.tok_cond st = true ->
  exists st', HtmlDiff.tok_step st = Some st'
    /\ (exists done, snd st' = map HtmlDiff.mk_token (kept done)
          /\ forall tl, lexes_html (fst st') tl -> lexes_html s (done ++ tl))
    /\ length (fst st') < length (fst st).
Proof.
  destruct st as [rest toks]. intros (done & Hk & Hd) Hc.
  unfold HtmlDiff.tok_cond in Hc. simpl in *.
  destruct rest as [|c r]; [discriminate|].
  destruct (HtmlDiff.re_html (c :: r)) as [[tok rest']|] eqn:Hre.
  - destruct (re_html_consumes _ Hre) as [Hsplit Htok].
    eexists; split; [reflexivity|]. split.
    + unfold HtmlDiff.re_html, TokenRe.orelse in Hre.
      destruct (TokenRe.re_tag (c :: r)) as [[t r0]|] eqn:Htag.
      * injection Hre as <- <-.
        apply re_tag_some in Htag as (body & Hs & -> & Hne & Hgt).
        rewrite Hs in *. rewrite trim_tag_truthy.
        exists (done ++ [Kept (LT :: body ++ [GT])]). simpl. split.
        -- rewrite kept_app, map_app, Hk. reflexivity.
        -- intros tl Htl. rewrite <- app_assoc. apply Hd. simpl.
           now apply lexh_tag.
      * unfold TokenRe.re_run in Hre.
        pose proof (span_fst_all not_lt (c :: r)) as Hall.
        pose proof (span_rest_stops not_lt (c :: r)) as Hstop.
        fold not_lt in Hre.
        destruct (span not_lt (c :: r)) as [w s1] eqn:Hs.
        simpl in Hall, Hstop.
        destruct w as [|d w]; [discriminate|]. injection Hre as <- <-.
        rewrite Hsplit in *.
        destruct (CompareView.truthy (HtmlDiff.trim (d :: w))) eqn:Ht.
        -- exists (done ++ [Kept (d :: w)]). simpl. split.
           ++ rewrite kept_app, map_app, Hk. reflexivity.
           ++ intros tl Htl. rewrite <- app_assoc. apply Hd.
              apply (lexh_text (t := d :: w));
                [discriminate|exact Hall|exact Hstop
                |now apply trim_truthy|exact Htl].
        -- exists (done ++ [Lost (d :: w)]). simpl. split.
           ++ rewrite kept_app, Hk. simpl. now rewrite app_nil_r.
           ++ intros tl Htl. rewrite <- app_assoc. apply Hd.
              apply (lexh_blank (t := d :: w));
                [discriminate|exact Hall|exact Hstop
                |now apply trim_falsy|exact Htl].
    + cbn [fst]. rewrite Hsplit, length_app.
      destruct tok; [congruence|simpl; lia].
  - eexists; split; [reflexivity|]. split.
    + pose proof (re_html_none _ _ Hre) as Hlt. apply N.eqb_eq in Hlt. subst c.
      unfold HtmlDiff.re_html in Hre. apply orelse_none in Hre as [Htag _].
      exists (done ++ [Lost [LT]]). simpl. split.
      * rewrite kept_app, Hk. simpl. now rewrite app_nil_r.
      * intros tl Htl. rewrite <- app_assoc. apply Hd. simpl.
        apply lexh_stray_lt; [now apply re_tag_none|assumption].
    + simpl. lia.
Qed.

Lemma tokenizeHTML_lexes s :
  exists segs, HtmlDiff.tokenizeHTML s = Some (map HtmlDiff.mk_token (kept segs))
               /\ lexes_html s segs.
Proof.
  destruct (@while_loop_total _
              (fun st => exists done,
                   snd st = map HtmlDiff.mk_token (kept done)
                   /\ forall tl, lexes_html (fst st) tl
                                 -> lexes_html s (done ++ tl))
              (fun st => length (fst st))
              HtmlDiff.tok_cond HtmlDiff.tok_step (@tok_step_lex s)
              (length s) (s, []))
    as ([rest toks] & Hw & (done & Hk & Hd) & Hc).
  - exists []. simpl. split; [reflexivity|]. auto.
  - simpl. lia.
  - exists done. unfold HtmlDiff.tokenizeHTML. rewrite Hw. simpl in *.
    unfold HtmlDiff.tok_cond in Hc. simpl in Hc.
    destruct rest; [|discriminate].
    split; [now rewrite Hk|]. rewrite <- (app_nil_r done).
    apply Hd. constructor.
Qed.

(** The pieces of a cut, put end to end, are the input. *)
Lemma lexes_text s segs : lexes s segs -> join (map seg_text segs) = s.
Proof.
  unfold join. induction 1; simpl; rewrite ?IHlexes; app_norm; reflexivity.
Qed.

Lemma lexes_html_text s segs :
  lexes_html s segs -> join (map seg_text segs) = s.
Proof.
  unfold join. induction 1; simpl; rewrite ?IHlexes_html; app_norm;
    reflexivity.
Qed.

Lemma kept_all segs :
  lost segs = [] -> join (kept segs) = join (map seg_text segs).
Proof.
  unfold join. induction segs as [|[t|t] segs IH]; simpl; intros H.
  - reflexivity.
  - now rewrite IH.
  - discriminate.
Qed.

Lemma angle_class c :
  is_angle c = true ->
  is_word c = false /\ is_space c = false /\ TokenRe.is_punct c = false.
Proof.
  unfold is_angle. intros H. apply orb_true_iff in H as [H|H];
    apply N.eqb_eq in H; subst c; repeat split.
Qed.

Lemma markup_text_inv c rest :
  is_angle c = false -> markup (c :: rest) ->
  markup rest /\ (c = EQ -> starts_with is_quote rest = false).
Proof.
  intros Hc H. inversion H; subst; [discriminate|auto].
Qed.

Lemma markup_strip (p : cu -> bool) r rest :
  (forall c, p c = true -> is_angle c = false) ->
  forallb p r = true -> markup (r ++ rest) -> markup rest.
Proof.
  intros Hp. induction r as [|c r IH]; simpl; intros Hr H; [assumption|].
  apply andb_true_iff in Hr as [Hc Hr].
  apply markup_text_inv in H as [H _]; auto.
Qed.

Lemma markup_tag_inv body rest :
  no_gt body -> markup (LT :: body ++ GT :: rest) -> markup rest.
Proof.
  intros Hb H. inversion H as [|body0 rest0 Hne Hb0 Hrest E|]; subst;
    [|discriminate].
  destruct (@run_unique (fun x => negb (N.eqb x GT)) body0 (GT :: rest0)
              body (GT :: rest)) as [_ E']; try assumption; try reflexivity.
  now injection E' as <-.
Qed.

Lemma markup_tag_at rest : markup (LT :: rest) -> tag_at (LT :: rest).
Proof.
  intros H. inversion H as [|body0 rest0 Hne Hb0 Hrest E|]; subst;
    [|discriminate].
  now exists body0, rest0.
Qed.

Lemma not_angle_of (p : cu -> bool) :
  (forall c, is_angle c = true -> p c = false) ->
  forall c, p c = true -> is_angle c = false.
Proof.
  intros H c Hc. destruct (is_angle c) eqn:E; [|reflexivity].
  rewrite (H c E) in Hc. discriminate.
Qed.

(** [tokenize] steps over nothing of such markup. *)
Lemma lexes_markup s segs : lexes s segs -> markup s -> lost segs = [].
Proof.
  induction 1 as [|body rest segs Hne Hb Hl IH
                  |w rest segs Hne Hw Hstop Hattr Hl IH
                  |w q v q' rest segs Hne Hw Hq Hq' Hv Hl IH
                  |r rest segs Hne Hr Hstop Hl IH
                  |r rest segs Hne Hr Hstop Hl IH
                  |rest segs Hl IH
                  |rest segs Htag Hl IH]; intros Hm; simpl.
  - reflexivity.
  - apply IH. eapply markup_tag_inv; eassumption.
  - apply IH. eapply (@markup_strip is_word); [|eassumption..].
    apply not_angle_of. intros c Hc. apply (angle_class _ Hc).
  - exfalso.
    apply (@markup_strip is_word) in Hm;
      [|apply not_angle_of; intros c Hc; apply (angle_class _ Hc)|assumption].
    apply markup_text_inv in Hm as [_ Hm]; [|reflexivity].
    specialize (Hm eq_refl). simpl in Hm. congruence.
  - apply IH. eapply (@markup_strip is_space); [|eassumption..].
    apply not_angle_of. intros c Hc. apply (angle_class _ Hc).
  - apply IH. eapply (@markup_strip TokenRe.is_punct); [|eassumption..].
    apply not_angle_of. intros c Hc. apply (angle_class _ Hc).
  - exfalso. inversion Hm; subst. discriminate.
  - exfalso. apply Htag. now apply markup_tag_at.
Qed.

Lemma starts_with_head (p : cu -> bool) t rest :
  t <> [] -> forallb p t = true -> starts_with p (t ++ rest) = true.
Proof.
  destruct t as [|c t]; [congruence|]. simpl. intros _ H.
  now apply andb_true_iff in H as [H _].
Qed.

(** [tokenizeHTML] steps over nothing of such markup. *)
Lemma lexes_html_markup s segs :
  lexes_html s segs -> markup_html s -> lost segs = [].
Proof.
  induction 1 as [|body rest segs Hne Hb Hl IH
                  |t rest segs Hne Ht Hstop Hex Hl IH
                  |t rest segs Hne Ht Hstop Hsp Hl IH
                  |rest segs Htag Hl IH]; intros Hm; simpl.
  - reflexivity.
  - apply IH.
    inversion Hm as [|body0 rest0 Hne0 Hb0 Hrest E
                      |t0 rest0 Hne0 Ht0 Hstop0 Hex0 Hrest E].
    + destruct (@run_unique (fun x => negb (N.eqb x GT)) body0 (GT :: rest0)
                  body (GT :: rest)) as [_ E'];
        try assumption; try reflexivity.
      now injection E' as <-.
    + exfalso. pose proof (@starts_with_head not_lt t0 rest0 Hne0 Ht0) as Hh.
      rewrite E in Hh. discriminate.
  - apply IH.
    inversion Hm as [E|body0 rest0 Hne0 Hb0 Hrest E
                      |t0 rest0 Hne0 Ht0 Hstop0 Hex0 Hrest E].
    + exfalso. symmetry in E. apply app_eq_nil in E as [E _]. congruence.
    + exfalso. pose proof (@starts_with_head not_lt t rest Hne Ht) as Hh.
      rewrite <- E in Hh. discriminate.
    + destruct (@run_unique not_lt t0 rest0 t rest) as [_ <-]; assumption.
  - exfalso.
    inversion Hm as [E|body0 rest0 Hne0 Hb0 Hrest E
                      |t0 rest0 Hne0 Ht0 Hstop0 Hex0 Hrest E].
    + symmetry in E. apply app_eq_nil in E as [E _]. congruence.
    + pose proof (@starts_with_head not_lt t rest Hne Ht) as Hh.
      rewrite <- E in Hh. discriminate.
    + destruct (@run_unique not_lt t0 rest0 t rest) as [<- _]; try assumption.
      assert (Hno : existsb (fun c => negb (is_space c)) t0 = false).
      { clear -Hsp. induction t0 as [|c t0 IH]; simpl in *; [reflexivity|].
        apply andb_true_iff in Hsp as [Hc Hsp]. now rewrite Hc, IH. }
      congruence.
  - exfalso.
    inversion Hm as [|body0 rest0 Hne0 Hb0 Hrest E
                      |t0 rest0 Hne0 Ht0 Hstop0 Hex0 Hrest E].
    + apply Htag. subst. now exists body0, rest0.
    + pose proof (@starts_with_head not_lt t0 rest0 Hne0 Ht0) as Hh.
      rewrite E in Hh. discriminate.
Qed.

(** *** The cut is the only one: every cut gives the tokens returned *)

Lemma space_not_word c : is_space c = true -> is_word c = false.
Proof.
  intros H. destruct (is_word c) eqn:W; [exfalso|reflexivity].
  unfold is_space, is_word, between in *.
  repeat match goal with
         | H : _ || _ = true |- _ => apply orb_true_iff in H as [H|H]
         | H : _ && _ = true |- _ => apply andb_true_iff in H as [? ?]
         | H : N.leb _ _ = true |- _ => apply N.leb_le in H
         | H : N.eqb _ _ = true |- _ => apply N.eqb_eq in H
         end; lia.
Qed.

Lemma word_not_lt c : is_word c = true -> N.eqb c LT = false.
Proof.
  intros H. destruct (N.eqb_spec c LT) as [->|]; [discriminate|reflexivity].
Qed.

Lemma re_tag_head_none c r : N.eqb c LT = false -> TokenRe.re_tag (c :: r) = None.
Proof. intros H. simpl. now rewrite H. Qed.

Lemma re_word_head_none c r : is_word c = false -> TokenRe.re_word (c :: r) = None.
Proof. intros H. unfold TokenRe.re_word. simpl. now rewrite H. Qed.

Lemma re_run_head_none p c r : p c = false -> TokenRe.re_run p (c :: r) = None.
Proof. intros H. unfold TokenRe.re_run. simpl. now rewrite H. Qed.

Lemma re_tag_complete body rest :
  body <> [] -> no_gt body ->
  TokenRe.re_tag (LT :: body ++ GT :: rest) = Some (LT :: body ++ [GT], rest).
Proof.
  intros Hne Hb. simpl.
  rewrite (@span_run (fun x => negb (N.eqb x GT)) body (GT :: rest))
    by (assumption || reflexivity).
  destruct body; [congruence|reflexivity].
Qed.

Lemma re_run_complete p r rest :
  r <> [] -> forallb p r = true -> starts_with p rest = false ->
  TokenRe.re_run p (r ++ rest) = Some (r, rest).
Proof.
  intros Hne Hr Hstop. unfold TokenRe.re_run.
  rewrite (@span_run _ _ _ Hr Hstop). destruct r; [congruence|reflexivity].
Qed.

Lemma re_complete_tag body rest :
  body <> [] -> no_gt body ->
  TokenRe.re (LT :: body ++ GT :: rest) = Some (LT :: body ++ [GT], rest).
Proof.
  intros Hne Hb. unfold TokenRe.re. now rewrite re_tag_complete.
Qed.

Lemma re_complete_word w rest :
  w <> [] -> forallb is_word w = true ->
  starts_with is_word rest = false -> ~ attr_at rest ->
  TokenRe.re (w ++ rest) = Some (w, rest).
Proof.
  intros Hne Hw Hstop Hattr. unfold TokenRe.re.
  destruct w as [|c w]; [congruence|].
  pose proof Hw as Hw0. simpl in Hw0. apply andb_true_iff in Hw0 as [Hc _].
  change ((c :: w) ++ rest) with (c :: (w ++ rest)).
  rewrite re_tag_head_none by now apply word_not_lt. simpl TokenRe.orelse.
  change (c :: (w ++ rest)) with ((c :: w) ++ rest).
  unfold TokenRe.re_word. rewrite (@span_run _ _ _ Hw Hstop).
  destruct (TokenRe.re_attr_value rest) as [[v s2]|] eqn:Hv; [|reflexivity].
  exfalso. apply Hattr.
  apply re_attr_value_some in Hv as (q & v0 & q' & -> & _ & Hq & Hq' & Hv0).
  now exists q, v0, q', s2.
Qed.

Lemma re_complete_word_attr w q v q' rest :
  w <> [] -> forallb is_word w = true ->
  is_quote q = true -> is_quote q' = true -> no_quote v ->
  TokenRe.re (w ++ EQ :: q :: v ++ q' :: rest)
  = Some (w ++ EQ :: q :: v ++ [q'], rest).
Proof.
  intros Hne Hw Hq Hq' Hv. unfold TokenRe.re.
  destruct w as [|c w]; [congruence|].
  pose proof Hw as Hw0. simpl in Hw0. apply andb_true_iff in Hw0 as [Hc _].
  change ((c :: w) ++ EQ :: q :: v ++ q' :: rest)
    with (c :: (w ++ EQ :: q :: v ++ q' :: rest)).
  rewrite re_tag_head_none by now apply word_not_lt. simpl TokenRe.orelse.
  change (c :: (w ++ EQ :: q :: v ++ q' :: rest))
    with ((c :: w) ++ EQ :: q :: v ++ q' :: rest).
  unfold TokenRe.re_word.
  rewrite (@span_run is_word (c :: w) (EQ :: q :: v ++ q' :: rest))
    by (assumption || reflexivity).
  cbn [TokenRe.re_attr_value]. rewrite N.eqb_refl, Hq. cbn [andb].
  rewrite (@span_run (fun x => negb (is_quote x)) v (q' :: rest));
    [reflexivity|assumption|simpl; now rewrite Hq'].
Qed.

Lemma re_complete_space r rest :
  r <> [] -> forallb is_space r = true -> starts_with is_space rest = false ->
  TokenRe.re (r ++ rest) = Some (r, rest).
Proof.
  intros Hne Hr Hstop. unfold TokenRe.re.
  rewrite (@re_run_complete _ _ _ Hne Hr Hstop).
  destruct r as [|c r]; [congruence|].
  simpl in Hr. apply andb_true_iff in Hr as [Hc _].
  change ((c :: r) ++ rest) with (c :: (r ++ rest)).
  rewrite re_tag_head_none
    by (destruct (N.eqb_spec c LT) as [->|]; [discriminate|reflexivity]).
  rewrite re_word_head_none by now apply space_not_word.
  reflexivity.
Qed.

Lemma re_complete_punct r rest :
  r <> [] -> forallb TokenRe.is_punct r = true ->
  starts_with TokenRe.is_punct rest = false ->
  TokenRe.re (r ++ rest) = Some (r, rest).
Proof.
  intros Hne Hr Hstop. unfold TokenRe.re.
  rewrite (@re_run_complete _ _ _ Hne Hr Hstop).
  destruct r as [|c r]; [congruence|].
  simpl in Hr. apply andb_true_iff in Hr as [Hc _].
  unfold TokenRe.is_punct in Hc. apply negb_true_iff in Hc.
  apply orb_false_iff in Hc as [Hc Ha]. apply orb_false_iff in Hc as [Hw Hs].
  change ((c :: r) ++ rest) with (c :: (r ++ rest)).
  rewrite re_tag_head_none
    by (unfold is_angle in Ha; now apply orb_false_iff in Ha as [Ha _]).
  rewrite re_word_head_none by assumption.
  rewrite (@re_run_head_none is_space _ _ Hs).
  reflexivity.
Qed.

Lemma re_complete_gt rest : TokenRe.re (GT :: rest) = None.
Proof.
  unfold TokenRe.re.
  rewrite re_tag_head_none, re_word_head_none by reflexivity.
  now rewrite !re_run_head_none.
Qed.

Lemma re_complete_lt rest :
  ~ tag_at (LT :: rest) -> TokenRe.re (LT :: rest) = None.
Proof.
  intros Htag. unfold TokenRe.re.
  destruct (TokenRe.re_tag (LT :: rest)) as [[t r]|] eqn:E.
  - exfalso. apply Htag.
    apply re_tag_some in E as (body & E & _ & Hne & Hb).
    now exists body, r.
  - rewrite re_word_head_none by reflexivity.
    now rewrite !re_run_head_none.
Qed.

Lemma match_round re c r fuel toks :
  length (c :: r) <= fuel ->
  while_loop fuel match_cond (match_step re) (c :: r, toks)
  = match re (c :: r) with
    | Some (tok, rest') =>
        while_loop (fuel - 1) match_cond (match_step re) (rest', toks ++ [tok])
    | None => while_loop (fuel - 1) match_cond (match_step re) (r, toks)
    end.
Proof.
  intros Hlen. destruct fuel as [|f]; [simpl in Hlen; lia|].
  replace (S f - 1) with f by lia. cbn [while_loop match_cond fst].
  unfold match_step. now destruct (re (c :: r)) as [[tok rest']|].
Qed.

(** The loop of [match] on a cut: it returns the tokens of the cut. *)
Lemma lexes_run : forall s segs,
  lexes s segs ->
  forall fuel toks, length s <= fuel ->
    while_loop fuel match_cond (match_step TokenRe.re) (s, toks)
    = Some ([], toks ++ kept segs).
Proof.
  assert (Hpiece : forall tok rest fuel toks segs,
            tok <> [] -> TokenRe.re (tok ++ rest) = Some (tok, rest) ->
            (forall fuel toks, length rest <= fuel ->
               while_loop fuel match_cond (match_step TokenRe.re) (rest, toks)
               = Some ([], toks ++ kept segs)) ->
            length (tok ++ rest) <= fuel ->
            while_loop fuel match_cond (match_step TokenRe.re) (tok ++ rest, toks)
            = Some ([], toks ++ tok :: kept segs)).
  { intros tok rest fuel toks segs Hne Hre IH Hlen.
    destruct tok as [|c tok]; [congruence|].
    change ((c :: tok) ++ rest) with (c :: (tok ++ rest)) in *.
    rewrite match_round by assumption. rewrite Hre.
    rewrite IH by (simpl in Hlen; rewrite length_app in Hlen; lia).
    now rewrite <- app_assoc. }
  induction 1 as [|body rest segs Hne Hb Hl IH
                  |w rest segs Hne Hw Hstop Hattr Hl IH
                  |w q v q' rest segs Hne Hw Hq Hq' Hv Hl IH
                  |r rest segs Hne Hr Hstop Hl IH
                  |r rest segs Hne Hr Hstop Hl IH
                  |rest segs Hl IH
                  |rest segs Htag Hl IH]; intros fuel toks Hlen;
    cbn [kept].
  - rewrite while_loop_done by reflexivity. now rewrite app_nil_r.
  - replace (LT :: body ++ GT :: rest) with ((LT :: body ++ [GT]) ++ rest) in *
      by (simpl; now rewrite <- app_assoc).
    apply Hpiece; try assumption; [discriminate|].
    replace ((LT :: body ++ [GT]) ++ rest) with (LT :: body ++ GT :: rest)
      by (simpl; now rewrite <- app_assoc).
    now apply re_complete_tag.
  - apply Hpiece; try assumption. now apply re_complete_word.
  - replace (w ++ EQ :: q :: v ++ q' :: rest)
      with ((w ++ EQ :: q :: v ++ [q']) ++ rest) in *
      by (app_norm; reflexivity).
    apply Hpiece; try assumption.
    + destruct w; [congruence|discriminate].
    + replace ((w ++ EQ :: q :: v ++ [q']) ++ rest)
        with (w ++ EQ :: q :: v ++ q' :: rest) by (app_norm; reflexivity).
      now apply re_complete_word_attr.
  - apply Hpiece; try assumption. now apply re_complete_space.
  - apply Hpiece; try assumption. now apply re_complete_punct.
  - rewrite match_round by assumption. rewrite re_complete_gt.
    apply IH. simpl in Hlen. lia.
  - rewrite match_round by assumption. rewrite re_complete_lt by assumption.
    apply IH. simpl in Hlen. lia.
Qed.

Lemma lexes_tokens s segs :
  lexes s segs -> MergedView.tokenize s = Some (kept segs).
Proof.
  intros H. unfold MergedView.tokenize, match_all.
  now rewrite (@lexes_run _ _ H (length s) [] (le_n _)).
Qed.

Lemma blank_not_truthy t :
  forallb is_space t = true -> CompareView.truthy (HtmlDiff.trim t) = false.
Proof.
  intros H. destruct (CompareView.truthy (HtmlDiff.trim t)) eqn:E;
    [|reflexivity].
  apply trim_truthy in E.
  assert (Hno : existsb (fun c => negb (is_space c)) t = false).
  { clear -H. induction t as [|c t IH]; simpl in *; [reflexivity|].
    apply andb_true_iff in H as [Hc H]. now rewrite Hc, IH. }
  congruence.
Qed.

Lemma text_truthy t :
  existsb (fun c => negb (is_space c)) t = true ->
  CompareView.truthy (HtmlDiff.trim t) = true.
Proof.
  intros H. destruct (CompareView.truthy (HtmlDiff.trim t)) eqn:E;
    [reflexivity|].
  apply trim_falsy in E.
  assert (Hno : existsb (fun c => negb (is_space c)) t = false).
  { clear -E. induction t as [|c t IH]; simpl in *; [reflexivity|].
    apply andb_true_iff in E as [Hc E]. now rewrite Hc, IH. }
  congruence.
Qed.

Lemma re_html_complete_tag body rest :
  body <> [] -> no_gt body ->
  HtmlDiff.re_html (LT :: body ++ GT :: rest) = Some (LT :: body ++ [GT], rest).
Proof.
  intros Hne Hb. unfold HtmlDiff.re_html. now rewrite re_tag_complete.
Qed.

Lemma re_html_complete_text t rest :
  t <> [] -> forallb not_lt t = true -> starts_with not_lt rest = false ->
  HtmlDiff.re_html (t ++ rest) = Some (t, rest).
Proof.
  intros Hne Ht Hstop. unfold HtmlDiff.re_html.
  fold not_lt. rewrite (@re_run_complete _ _ _ Hne Ht Hstop).
  destruct t as [|c t]; [congruence|].
  simpl in Ht. apply andb_true_iff in Ht as [Hc _].
  change ((c :: t) ++ rest) with (c :: (t ++ rest)).
  rewrite re_tag_head_none by now apply negb_true_iff in Hc.
  reflexivity.
Qed.

Lemma re_html_complete_lt rest :
  ~ tag_at (LT :: rest) -> HtmlDiff.re_html (LT :: rest) = None.
Proof.
  intros Htag. unfold HtmlDiff.re_html.
  destruct (TokenRe.re_tag (LT :: rest)) as [[t r]|] eqn:E.
  - exfalso. apply Htag.
    apply re_tag_some in E as (body & E & _ & Hne & Hb).
    now exists body, r.
  - now rewrite re_run_head_none.
Qed.

Lemma tok_round c r fuel toks :
  length (c :: r) <= fuel ->
  while_loop fuel HtmlDiff.tok_cond HtmlDiff.tok_step (c :: r, toks)
  = match HtmlDiff.re_html (c :: r) with
    | Some (tok, rest') =>
        while_loop (fuel - 1) HtmlDiff.tok_cond HtmlDiff.tok_step
          (rest', if CompareView.truthy (HtmlDiff.trim tok)
                  then toks ++ [HtmlDiff.mk_token tok] else toks)
    | None =>
        while_loop (fuel - 1) HtmlDiff.tok_cond HtmlDiff.tok_step (r, toks)
    end.
Proof.
  intros Hlen. destruct fuel as [|f]; [simpl in Hlen; lia|].
  replace (S f - 1) with f by lia. cbn [while_loop HtmlDiff.tok_cond fst].
  unfold HtmlDiff.tok_step.
  now destruct (HtmlDiff.re_html (c :: r)) as [[tok rest']|].
Qed.

(** The loop of [tokenizeHTML] on a cut: it returns the tokens of the cut. *)
Lemma lexes_html_run : forall s segs,
  lexes_html s segs ->
  forall fuel toks, length s <= fuel ->
    while_loop fuel HtmlDiff.tok_cond HtmlDiff.tok_step (s, toks)
    = Some ([], toks ++ map HtmlDiff.mk_token (kept segs)).
Proof.
  induction 1 as [|body rest segs Hne Hb Hl IH
                  |t rest segs Hne Ht Hstop Hex Hl IH
                  |t rest segs Hne Ht Hstop Hsp Hl IH
                  |rest segs Htag Hl IH]; intros fuel toks Hlen;
    cbn [kept map].
  - rewrite while_loop_done by reflexivity. now rewrite app_nil_r.
  - rewrite tok_round by assumption.
    rewrite re_html_complete_tag by assumption.
    rewrite trim_tag_truthy.
    rewrite IH by (simpl in Hlen; rewrite length_app in Hlen; simpl in Hlen; lia).
    now rewrite <- app_assoc.
  - destruct t as [|c t]; [congruence|].
    change ((c :: t) ++ rest) with (c :: (t ++ rest)) in *.
    rewrite tok_round by assumption.
    change (c :: (t ++ rest)) with ((c :: t) ++ rest).
    rewrite re_html_complete_text by assumption.
    rewrite text_truthy by assumption.
    rewrite IH by (simpl in Hlen; rewrite length_app in Hlen; lia).
    now rewrite <- app_assoc.
  - destruct t as [|c t]; [congruence|].
    change ((c :: t) ++ rest) with (c :: (t ++ rest)) in *.
    rewrite tok_round by assumption.
    change (c :: (t ++ rest)) with ((c :: t) ++ rest).
    rewrite re_html_complete_text by assumption.
    rewrite blank_not_truthy by assumption.
    apply IH. simpl in Hlen; rewrite length_app in Hlen; lia.
  - rewrite tok_round by assumption.
    rewrite re_html_complete_lt by assumption.
    apply IH. simpl in Hlen. lia.
Qed.

Lemma lexes_html_tokens s segs :
  lexes_html s segs ->
  HtmlDiff.tokenizeHTML s = Some (map HtmlDiff.mk_token (kept segs)).
Proof.
  intros H. unfold HtmlDiff.tokenizeHTML.
  now rewrite (@lexes_html_run _ _ H (length s) [] (le_n _)).
Qed.

Lemma mk_token_content l : contents (map HtmlDiff.mk_token l) = l.
Proof.
  unfold contents. rewrite map_map. simpl. apply map_id.
Qed.

Example markup_paragraph :
  markup (str "<p>x = 1</p>") /\ markup_html (str "<p>x = 1</p>").
Proof.
  split.
  - change (markup (LT :: str "p" ++ GT :: str "x = 1</p>")).
    apply mk_tag; [discriminate|reflexivity|].
    do 5 (apply mk_text; [reflexivity|intros _; reflexivity|]).
    change (markup (LT :: str "/p" ++ GT :: [])).
    apply mk_tag; [discriminate|reflexivity|constructor].
  - change (markup_html (LT :: str "p" ++ GT :: str "x = 1</p>")).
    apply mh_tag; [discriminate|reflexivity|].
    apply (@mh_text (str "x = 1") (str "</p>"));
      [discriminate|reflexivity|reflexivity|reflexivity|].
    change (markup_html (LT :: str "/p" ++ GT :: [])).
    apply mh_tag; [discriminate|reflexivity|constructor].
Qed.

(** C1, amended.  Every tokenizer returns, and what it returns is fixed by
    a cut of the input into pieces that, put end to end, are the input
    exactly.  For [tokenize] (both files) a piece is a tag, a word as far as
    it goes with the attribute value that follows it, a run of whitespace
    or a run of punctuation as far as it goes, each of them a token of its
    own, or a single angle bracket that is stepped over: a [>] where a
    token would start, a [<] that starts no tag.  For [tokenizeHTML] a
    piece is a tag or the text up to the next [<], each a token, except
    that text of whitespace only is stepped over, as is a [<] that starts
    no tag.  Nothing else is left out, so the tokens of markup without such
    pieces, put end to end, are the input exactly. *)
Theorem tokenize_cuts_input (s : jsstring) :
  exists segs hsegs,
    MergedView.tokenize s = Some (kept segs)
    /\ CompareView.tokenize s = Some (kept segs)
    /\ lexes s segs
    /\ (forall segs', lexes s segs' -> kept segs' = kept segs)
    /\ HtmlDiff.tokenizeHTML s = Some (map HtmlDiff.mk_token (kept hsegs))
    /\ lexes_html s hsegs
    /\ (forall hsegs', lexes_html s hsegs' -> kept hsegs' = kept hsegs)
    /\ join (map seg_text segs) = s
    /\ join (map seg_text hsegs) = s
    /\ (markup s -> join (kept segs) = s)
    /\ (markup_html s ->
        join (contents (map HtmlDiff.mk_token (kept hsegs))) = s).
Proof.
  destruct (tokenize_lexes s) as (segs & Ht & Hl).
  destruct (tokenizeHTML_lexes s) as (hsegs & Hh & Hlh).
  exists segs, hsegs. rewrite compare_tokenize_eq.
  split; [assumption|]. split; [assumption|]. split; [assumption|].
  split.
  { intros segs' Hl'. apply lexes_tokens in Hl'. congruence. }
  split; [assumption|]. split; [assumption|].
  split.
  { intros hsegs' Hl'. apply lexes_html_tokens in Hl'.
    rewrite Hh in Hl'. injection Hl' as Hl'.
    apply (f_equal contents) in Hl'. now rewrite !mk_token_content in Hl'. }
  split; [now apply lexes_text|].
  split; [now apply lexes_html_text|].
  split.
  - intros Hm. rewrite kept_all by (eapply lexes_markup; eassumption).
    now apply lexes_text.
  - intros Hm. rewrite mk_token_content.
    rewrite kept_all by (eapply lexes_html_markup; eassumption).
    now apply lexes_html_text.
Qed.
